(** * Chronological merge of log sources: the synchronous and the asynchronous solution

    A shallow embedding of [lib/log-source.js], [solution/sync-sorted-merge.js]
    and [solution/async-sorted-merge.js].

    - JavaScript objects that are shared by reference (the log sources, which
      the scheduler, the priority-queue items and the promise callbacks all
      mutate) live in a store, a [list] indexed by the source's position in
      the input array; a reference is that index.  A reference outside the
      store would read a default source; no run produces one.
    - The asynchronous solution is a small-step machine: one step is one
      piece of code that runs without interruption (from the loop head to the
      [await], one promise callback, the emission gate, the filter).  Every
      state the machine goes through is a point of the run.
    - The order in which the timers of [popAsync] fire is the only source of
      non-determinism; it is a parameter ([delay]) of the machine, and every
      result on the asynchronous solution holds for all its values.
    - The printer is the list of the calls it receives. *)

From stdpp Require Import base list strings sorting.
From Stdlib Require Import ZArith Lia.

Local Open Scope nat_scope.

(** ** Data model *)

(** A log entry [{ date, msg }]; the date is its time in milliseconds. *)
Record Entry := { date : Z; msg : string }.

(** What [pop] and the promise of [popAsync] give back: an entry or [false]. *)
Definition Log := option Entry.

(** The calls made on the printer, in order. *)
Inductive Event :=
| EvPrint (l : Log)
| EvDone.

(** Exceptions. *)
Inductive result (A : Type) :=
| Ok (a : A)
| Throw (why : string).
Arguments Ok {A} a.
Arguments Throw {A} why.

(** The arguments of the calls of [printer.print], in order. *)
Definition printed (out : list Event) : list Log :=
  omap (fun ev => match ev with EvPrint l => Some l | EvDone => None end) out.

(** Non-decreasing in timestamp. *)
Definition earlier (a b : Entry) : Prop := (date a <= date b)%Z.

Definition chronological : list Entry -> Prop := Sorted earlier.

(** ** The min-priority queue *)

(** Modelled from the spec: the package [@datastructures-js/priority-queue]
    is a dependency and not part of the repository.  A queue is the list of
    its items, smallest first; [push] puts an item behind the items that are
    not larger, [pop] takes the head.  [before a b] is the comparison
    [priority a < priority b] of JavaScript, which is false as soon as one
    side is [undefined].  Where the package puts an item without priority,
    and which of two items of equal priority it returns first, is not fixed
    by the repository; no result on this queue depends on either.  The
    heap of the package itself is [Heap] below, for the results that do. *)
Module MinPriorityQueue.
Section Queue.
Context {A : Type} (before : A -> A -> bool).

Fixpoint push (x : A) (q : list A) : list A :=
  match q with
  | [] => [x]
  | y :: q' => if before x y then x :: y :: q' else y :: push x q'
  end.

Definition pop (q : list A) : option (A * list A) :=
  match q with
  | [] => None
  | x :: q' => Some (x, q')
  end.

Definition size (q : list A) : nat := length q.

Definition isEmpty (q : list A) : bool :=
  match q with [] => true | _ => false end.
End Queue.
End MinPriorityQueue.

(** ** lib/log-source.js *)

(** [upcoming] stands for the random generator and the clock: the entries
    that [getNextPseudoRandomEntry] will produce before one of them lies in
    the future. *)
Record LogSource := {
  drained : bool;
  last : Entry;
  upcoming : list Entry
}.

(** The entry of the constructor; no call ever returns it. *)
Definition origin : Entry := {| date := 0; msg := EmptyString |}.

Definition newLogSource (feed : list Entry) : LogSource :=
  {| drained := false; last := origin; upcoming := feed |}.

(** [this.last = this.getNextPseudoRandomEntry(); if (this.last.date > now)
    this.drained = true]: the first two statements of [pop] and [popAsync].
    The entry that lies in the future is not represented: [last] keeps its
    value, which is not read again once [drained] is set. *)
Definition advance (s : LogSource) : LogSource :=
  match upcoming s with
  | e :: rest => {| drained := drained s; last := e; upcoming := rest |}
  | [] => {| drained := true; last := last s; upcoming := [] |}
  end.

(** [this.drained ? false : this.last], read when it is evaluated. *)
Definition answer (s : LogSource) : Log :=
  if drained s then None else Some (last s).

Definition pop (s : LogSource) : Log * LogSource :=
  let s' := advance s in (answer s', s').

(** [popAsync] advances the source at once; its promise evaluates [answer]
    on the source as it is when the timer fires. *)
Definition popAsync (s : LogSource) : LogSource := advance s.

(** The input of a merge: one fresh source for each feed. *)
Definition sourcesOf (feeds : list (list Entry)) : list LogSource :=
  map newLogSource feeds.

(** ** solution/async-sorted-merge.js *)

Module Async.

(** A log source with the fields that [initializeSources] adds to it. *)
Record Source := {
  base : LogSource;
  bufferCount : Z;
  loading : bool;
  id : nat
}.

#[export] Instance Source_inhabited : Inhabited Source :=
  populate {| base := newLogSource []; bufferCount := 0; loading := false; id := 0 |}.

(** An item [{ log, source }] of the priority queue; [queueLogFromSource]
    pushes one only under [if (log)], so its log is an entry. *)
Record Item := { log : Entry; source : nat }.

(** A promise [source.popAsync().then(...)] of the promise queue: the source
    of its callback, the instant at which its timer fires, and whether it is
    still pending. *)
Record Promise := { owner : nat; due : nat; pending : bool }.

(** Where the main loop stands. *)
Inductive Pc :=
| LoopHead          (* about to test [continueLoop] *)
| Awaiting          (* inside [await Promise.all(promiseQueue)] *)
| Gate              (* about to test [allSourcesHaveBeenRead] *)
| Filter            (* about to drop the drained sources *)
| Finished          (* [printer.done()] has been called *)
| Crashed (why : string).

Record State := {
  heap : list Source;            (* the source objects *)
  logSources : list nat;         (* the array [logSources], as references *)
  priorityQueue : list Item;
  promiseQueue : list Promise;
  printer : list Event;          (* the calls received by the printer *)
  issued : nat;                  (* number of calls of [popAsync] so far *)
  pc : Pc
}.

Definition before (a b : Item) : bool := (date (log a) <? date (log b))%Z.

(** A promise once its callback has run. *)
Definition fulfil (p : Promise) : Promise :=
  {| owner := owner p; due := due p; pending := false |}.

Definition setPc (p : Pc) (st : State) : State :=
  {| heap := heap st; logSources := logSources st; priorityQueue := priorityQueue st;
     promiseQueue := promiseQueue st; printer := printer st; issued := issued st;
     pc := p |}.

(** [findNextLogSourceToQueue]: the loop, with [minSource] as accumulator.
    [None] for [minSource] makes the bound [Infinity]. *)
Fixpoint findNextLoop (h : list Source) (ls : list nat) (minSource : option nat)
  : option nat :=
  match ls with
  | [] => minSource
  | s :: rest =>
      if loading (h !!! s) then findNextLoop h rest minSource
      else if (bufferCount (h !!! s) =? 0)%Z then Some s
      else
        let below :=
          match minSource with
          | Some m => (bufferCount (h !!! s) <? bufferCount (h !!! m))%Z
          | None => true
          end in
        if below then findNextLoop h rest (Some s)
        else findNextLoop h rest minSource
  end.

Definition findNextLogSourceToQueue (h : list Source) (ls : list nat) : option nat :=
  findNextLoop h ls None.

Section Scheduler.
(** [delay n] is the instant at which the timer of the [n]-th call of
    [popAsync] fires ([P.delay(_.random(8))], counted from that call). *)
Variable delay : nat -> nat.

(** [queueLogFromSource], up to the push on the promise queue.  The
    callback of the promise is [settle] below. *)
Definition queueLogFromSource (s : nat) (st : State) : State :=
  {| heap := alter (fun src =>
               {| base := popAsync (base src); bufferCount := bufferCount src;
                  loading := true; id := id src |}) s (heap st);
     logSources := logSources st;
     priorityQueue := priorityQueue st;
     promiseQueue := promiseQueue st ++
                     [{| owner := s; due := delay (issued st); pending := true |}];
     printer := printer st;
     issued := S (issued st);
     pc := pc st |}.

(** The callback [(log) => { if (log) { push; bufferCount++ } loading = false }]
    of the promise at position [k], run when its timer fires; the promise
    is fulfilled afterwards. *)
Definition settle (k : nat) (st : State) : State :=
  match promiseQueue st !! k with
  | None => st
  | Some p =>
      let s := owner p in
      let src := heap st !!! s in
      let fulfilled := alter fulfil k (promiseQueue st) in
      match answer (base src) with
      | Some l =>
          {| heap := alter (fun src =>
                       {| base := base src; bufferCount := bufferCount src + 1;
                          loading := false; id := id src |}) s (heap st);
             logSources := logSources st;
             priorityQueue := MinPriorityQueue.push before {| log := l; source := s |}
                                (priorityQueue st);
             promiseQueue := fulfilled;
             printer := printer st;
             issued := issued st;
             pc := pc st |}
      | None =>
          {| heap := alter (fun src =>
                       {| base := base src; bufferCount := bufferCount src;
                          loading := false; id := id src |}) s (heap st);
             logSources := logSources st;
             priorityQueue := priorityQueue st;
             promiseQueue := fulfilled;
             printer := printer st;
             issued := issued st;
             pc := pc st |}
      end
  end.

Definition addNextLogToQueue (st : State) : State :=
  match findNextLogSourceToQueue (heap st) (logSources st) with
  | Some s => queueLogFromSource s st
  | None => st
  end.

Definition allSourcesHaveBeenRead (h : list Source) (ls : list nat) : bool :=
  forallb (fun s => (0 <? bufferCount (h !!! s))%Z) ls.

(** [printNextLogFromQueue]; destructuring the [null] that [pop] returns
    on an empty queue is a [TypeError]. *)
Definition printNextLogFromQueue (st : State) : result State :=
  match MinPriorityQueue.pop (priorityQueue st) with
  | None => Throw "TypeError"
  | Some (item, rest) =>
      Ok {| heap := alter (fun src =>
                      {| base := base src; bufferCount := bufferCount src - 1;
                         loading := loading src; id := id src |}) (source item) (heap st);
            logSources := logSources st;
            priorityQueue := rest;
            promiseQueue := promiseQueue st;
            printer := printer st ++ [EvPrint (Some (log item))];
            issued := issued st;
            pc := pc st |}
  end.

Definition priorityQueueIsFull (q : list Item) (maxSize : nat) (promises : list Promise)
  : result bool :=
  if maxSize <? MinPriorityQueue.size q then Throw "PriorityQueue exceeded MaxSize"
  else Ok (maxSize <=? MinPriorityQueue.size q + length promises).

Definition promiseQueueIsFull (promises : list Promise) (maxSize : nat) : bool :=
  maxSize <=? length promises.

Definition allSourcesAreLoading (h : list Source) (ls : list nat) : bool :=
  forallb (fun s => loading (h !!! s)) ls.

Definition initializeSources (sources : list LogSource) : list Source :=
  imap (fun index s =>
          {| base := s; bufferCount := 0; loading := false; id := index + 1 |}) sources.

Definition continueLoop (ls : list nat) (q : list Item) : bool :=
  (0 <? length ls) || negb (MinPriorityQueue.size q =? 0).

(** The pending promise whose timer fires first (the oldest one among
    equals): its position in the promise queue and its instant. *)
Fixpoint soonestDue (promises : list Promise) : option (nat * nat) :=
  match promises with
  | [] => None
  | p :: rest =>
      match soonestDue rest with
      | Some (k, d) =>
          if pending p && (due p <=? d) then Some (0, due p) else Some (S k, d)
      | None => if pending p then Some (0, due p) else None
      end
  end.

Definition soonest (promises : list Promise) : option nat :=
  fst <$> soonestDue promises.

(** The state in which the exported function enters its loop. *)
Definition start (sources : list LogSource) : State :=
  {| heap := initializeSources sources;
     logSources := seq 0 (length sources);
     priorityQueue := [];
     promiseQueue := [];
     printer := [];
     issued := 0;
     pc := LoopHead |}.

(** [promiseQueue = []], once [Promise.all] has resolved. *)
Definition clearPromiseQueue (st : State) : State :=
  {| heap := heap st; logSources := logSources st;
     priorityQueue := priorityQueue st; promiseQueue := [];
     printer := printer st; issued := issued st; pc := pc st |}.

(** [logSources = logSources.filter(({ drained }) => !drained)]. *)
Definition dropDrained (st : State) : State :=
  {| heap := heap st;
     logSources := filter (fun s => drained (base (heap st !!! s)) = false)
                     (logSources st);
     priorityQueue := priorityQueue st; promiseQueue := promiseQueue st;
     printer := printer st; issued := issued st; pc := pc st |}.

(** [printer.done()]. *)
Definition printerDone (st : State) : State :=
  {| heap := heap st; logSources := logSources st;
     priorityQueue := priorityQueue st; promiseQueue := promiseQueue st;
     printer := printer st ++ [EvDone]; issued := issued st; pc := pc st |}.

(** One uninterrupted piece of the exported function.
    [MAX_PRIORITY_QUEUE_SIZE] is the constant computed on entry. *)
Definition step (MAX_PRIORITY_QUEUE_SIZE : nat) (st : State) : State :=
  match pc st with
  | LoopHead =>
      if continueLoop (logSources st) (priorityQueue st) then
        match priorityQueueIsFull (priorityQueue st) MAX_PRIORITY_QUEUE_SIZE
                (promiseQueue st) with
        | Throw why => setPc (Crashed why) st
        | Ok fullPriorityQueue =>
            let fullPromiseQueue := promiseQueueIsFull (promiseQueue st) 50 in
            let st1 := if fullPriorityQueue then st else addNextLogToQueue st in
            if (0 <? length (promiseQueue st1))
               && (fullPriorityQueue || fullPromiseQueue
                   || allSourcesAreLoading (heap st1) (logSources st1))
            then setPc Awaiting st1
            else setPc Gate st1
        end
      else setPc Finished (printerDone st)
  | Awaiting =>
      match soonest (promiseQueue st) with
      | Some k => settle k st
      | None => setPc Gate (clearPromiseQueue st)
      end
  | Gate =>
      if allSourcesHaveBeenRead (heap st) (logSources st) then
        match printNextLogFromQueue st with
        | Ok st' => setPc Filter st'
        | Throw why => setPc (Crashed why) st
        end
      else setPc Filter st
  | Filter => setPc LoopHead (dropDrained st)
  | Finished => st
  | Crashed _ => st
  end.

Fixpoint run (MAX_PRIORITY_QUEUE_SIZE : nat) (n : nat) (st : State) : State :=
  match n with
  | 0 => st
  | S n' => run MAX_PRIORITY_QUEUE_SIZE n' (step MAX_PRIORITY_QUEUE_SIZE st)
  end.

(** The exported function on fresh sources with the given feeds, after
    [n] steps. *)
Definition asyncSortedMerge (feeds : list (list Entry)) (n : nat) : State :=
  run (length feeds * 10) n (start (sourcesOf feeds)).

End Scheduler.

(** *** What the states of a run are made of *)

(** The items of source [i] that are resident in the priority queue. *)
Definition residents (i : nat) (q : list Item) : list Item :=
  filter (fun it => source it = i) q.

(** The promises that have not settled yet, and those of source [i]. *)
Definition inFlight (promises : list Promise) : list Promise :=
  filter (fun p => pending p = true) promises.

Definition fetching (i : nat) (promises : list Promise) : list Promise :=
  filter (fun p => owner p = i) (inFlight promises).

(** The entries of a source that are not in the priority queue yet: the
    one its pending promise will deliver, then those it has still to
    produce. *)
Definition future (s : Source) : list Entry :=
  (if loading s then match answer (base s) with Some e => [e] | None => [] end
   else [])
  ++ (if drained (base s) then [] else upcoming (base s)).

(** A source that the gate waits for and that no fetch is serving. *)
Definition starving (h : list Source) (i : nat) : Prop :=
  bufferCount (h !!! i) = 0%Z ∧ loading (h !!! i) = false.

(** The entries passed to [printer.print] so far. *)
Definition emitted (st : State) : list Entry :=
  omap (fun ev => match ev with EvPrint (Some e) => Some e | _ => None end)
       (printer st).

(** The entries that are still to be printed. *)
Definition pool (st : State) : list Entry :=
  map log (priorityQueue st) ++ concat (map future (heap st)).

(** The facts that hold wherever the loop stands. *)
Record Core (feeds : list (list Entry)) (st : State) : Prop := {
  core_heap : length (heap st) = length feeds;
  core_sources : Forall (fun i => i < length (heap st)) (logSources st);
  core_nodup : NoDup (logSources st);
  core_items : Forall (fun it => source it < length (heap st)) (priorityQueue st);
  core_promises : Forall (fun p => owner p < length (heap st)) (promiseQueue st);
  core_count : forall i s, heap st !! i = Some s ->
    bufferCount s = Z.of_nat (length (residents i (priorityQueue st)));
  core_loading : forall i s, heap st !! i = Some s ->
    length (fetching i (promiseQueue st)) = if loading s then 1 else 0;
  core_retired : forall i s, heap st !! i = Some s ->
    i ∉ logSources st -> drained (base s) = true;
  core_room :
    length (filter (starving (heap st)) (logSources st))
    + length (priorityQueue st) + length (inFlight (promiseQueue st))
    <= length feeds * 10;
  core_all : emitted st ++ pool st ≡ₚ concat feeds
}.

(** The facts that depend on where the loop stands. *)
Definition AtPc (st : State) : Prop :=
  match pc st with
  | LoopHead =>
      Forall (fun p => pending p = true) (promiseQueue st)
      ∧ Forall (fun i => drained (base (heap st !!! i)) = false) (logSources st)
      ∧ length (promiseQueue st) <= 50
  | Awaiting =>
      promiseQueue st <> []
      ∧ length (promiseQueue st) <= 51
      ∧ (logSources st = [] -> priorityQueue st <> [])
  | Gate =>
      Forall (fun p => pending p = true) (promiseQueue st)
      ∧ length (promiseQueue st) <= 50
      ∧ (logSources st = [] -> priorityQueue st <> [])
  | Filter =>
      Forall (fun p => pending p = true) (promiseQueue st)
      ∧ length (promiseQueue st) <= 50
  | Finished =>
      logSources st = [] ∧ priorityQueue st = []
      ∧ length (promiseQueue st) <= 50
  | Crashed _ => False
  end.

(** The printer has received the entries, and [done] once the loop is left. *)
Definition PrinterLog (st : State) : Prop :=
  printer st
  = map (fun e => EvPrint (Some e)) (emitted st)
    ++ match pc st with Finished => [EvDone] | _ => [] end.

Record Inv (feeds : list (list Entry)) (st : State) : Prop := {
  inv_core : Core feeds st;
  inv_pc : AtPc st;
  inv_printer : PrinterLog st
}.

(** The facts on the order of the entries. *)
Record Ord (st : State) : Prop := {
  ord_queue : StronglySorted earlier (map log (priorityQueue st));
  ord_future : forall i s, heap st !! i = Some s -> StronglySorted earlier (future s);
  ord_resident : forall i s it e, heap st !! i = Some s ->
    it ∈ priorityQueue st -> source it = i -> e ∈ future s -> earlier (log it) e;
  ord_emitted : StronglySorted earlier (emitted st);
  ord_floor : forall p x, p ∈ emitted st -> x ∈ pool st -> earlier p x
}.

(** *** The measure of what remains to be done *)

(** The calls of [popAsync] that a source can still receive from the loop. *)
Definition fetchesLeft (s : Source) : nat :=
  if drained (base s) then 0 else S (length (upcoming (base s))).

Definition potential (st : State) : nat :=
  5 * sum_list_with fetchesLeft (heap st)
  + length (priorityQueue st)
  + 2 * length (promiseQueue st)
  + 2 * length (inFlight (promiseQueue st)).

Definition rank (st : State) : nat :=
  match pc st with
  | LoopHead => 3
  | Awaiting => 2
  | Gate => if allSourcesHaveBeenRead (heap st) (logSources st) then 1 else 5
  | Filter => 4
  | Finished => 0
  | Crashed _ => 0
  end.

Definition measure (st : State) : nat := 8 * potential st + rank st.

(** A number of steps within which every run on the given feeds is over. *)
Definition enough (feeds : list (list Entry)) : nat :=
  measure (start (sourcesOf feeds)).

End Async.

(** ** solution/sync-sorted-merge.js *)

Module Sync.

#[export] Instance LogSource_inhabited : Inhabited LogSource :=
  populate (newLogSource []).

(** An item [{ log, source }] of the priority queue.  The first loop pushes
    what [pop] returned as it is, so the log can be [false]. *)
Record Item := { log : Log; source : nat }.

(** [log.date], which is [undefined] on [false]. *)
Definition priority (it : Item) : option Z := date <$> log it.

Definition before (a b : Item) : bool :=
  match priority a, priority b with
  | Some x, Some y => (x <? y)%Z
  | _, _ => false
  end.

Record State := {
  heap : list LogSource;       (* the source objects *)
  pq : list Item;
  printer : list Event         (* the calls received by the printer *)
}.

(** The body of [for (const source of logSources)]:
    [const log = source.pop(); pq.push({ log, source });] *)
Definition fillOne (s : nat) (st : State) : State :=
  let (l, src) := pop (heap st !!! s) in
  {| heap := <[s := src]> (heap st);
     pq := MinPriorityQueue.push before {| log := l; source := s |} (pq st);
     printer := printer st |}.

Fixpoint fill (logSources : list nat) (st : State) : State :=
  match logSources with
  | [] => st
  | s :: rest => fill rest (fillOne s st)
  end.

(** The body of [while (!pq.isEmpty())]. *)
Definition body (st : State) : State :=
  match MinPriorityQueue.pop (pq st) with
  | None => st
  | Some (item, rest) =>
      let out := printer st ++ [EvPrint (log item)] in
      if drained (heap st !!! source item) then
        {| heap := heap st; pq := rest; printer := out |}
      else
        let (l, src) := pop (heap st !!! source item) in
        {| heap := <[source item := src]> (heap st);
           pq := match l with
                 | Some _ =>
                     MinPriorityQueue.push before
                       {| log := l; source := source item |} rest
                 | None => rest
                 end;
           printer := out |}
  end.

Fixpoint loop (fuel : nat) (st : State) : option State :=
  if MinPriorityQueue.isEmpty (pq st) then Some st
  else match fuel with
       | 0 => None
       | S fuel' => loop fuel' (body st)
       end.

(** The state in which the exported function enters its first loop. *)
Definition start (sources : list LogSource) : State :=
  {| heap := sources; pq := []; printer := [] |}.

(** The exported function: the calls it makes on the printer, when [fuel]
    iterations of the loop are enough. *)
Definition syncSortedMerge (sources : list LogSource) (fuel : nat)
  : option (list Event) :=
  match loop fuel (fill (seq 0 (length sources)) (start sources)) with
  | Some st' => Some (printer st' ++ [EvDone])
  | None => None
  end.

(** *** What the states of a run are made of *)

(** The entries in the queue. *)
Definition queued (q : list Item) : list Entry := omap log q.

(** The entries that a source has still to produce. *)
Definition rest (s : LogSource) : list Entry :=
  if drained s then [] else upcoming s.

(** The entries passed to [printer.print] so far. *)
Definition emitted (st : State) : list Entry :=
  omap (fun ev => match ev with EvPrint (Some e) => Some e | _ => None end)
       (printer st).

(** The entries that are still to be printed. *)
Definition pool (st : State) : list Entry :=
  queued (pq st) ++ concat (map rest (heap st)).

(** The facts that hold once the first loop has gone through the first [k]
    sources, when no source is empty from the start. *)
Record Inv (feeds : list (list Entry)) (k : nat) (st : State) : Prop := {
  inv_heap : length (heap st) = length feeds;
  inv_items : Forall (fun it => is_Some (log it) /\ source it < k) (pq st);
  inv_nodup : NoDup (map source (pq st));
  inv_fresh : forall i, k <= i -> heap st !! i = newLogSource <$> feeds !! i;
  inv_live : forall i s, i < k -> heap st !! i = Some s ->
    (exists it, it ∈ pq st /\ source it = i) \/ rest s = [];
  inv_undrained : forall it, it ∈ pq st -> drained (heap st !!! source it) = false;
  inv_all : emitted st ++ pool st ≡ₚ concat feeds;
  inv_printer : printer st = map (fun e => EvPrint (Some e)) (emitted st)
}.

(** The facts on the order of the entries. *)
Record Ord (st : State) : Prop := {
  ord_queue : StronglySorted earlier (queued (pq st));
  ord_rest : forall i s, heap st !! i = Some s -> StronglySorted earlier (rest s);
  ord_item : forall it e x, it ∈ pq st -> log it = Some e ->
    x ∈ rest (heap st !!! source it) -> earlier e x;
  ord_emitted : StronglySorted earlier (emitted st);
  ord_floor : forall p x, p ∈ emitted st -> x ∈ pool st -> earlier p x
}.

End Sync.

(** ** Data for the examples *)

Definition mk (d : Z) : Entry := {| date := d; msg := EmptyString |}.

(** All timers fire at once: the promises of a batch settle in the order
    in which the fetches were issued. *)
Definition atOnce : nat -> nat := fun _ => 0.

(** A source with one entry and a source with two. *)
Definition oneAndTwo : list (list Entry) := [[mk 1]; [mk 2; mk 3]].

(** Fifty-one sources with one entry each. *)
Definition fiftyOne : list (list Entry) := replicate 51 [mk 1].

(** A source that is empty from the start and a source with one entry. *)
Definition emptyAndOne : list (list Entry) := [[]; [mk 5]].

(** The three sources of the scenario of the specification. *)
Definition threeSources : list (list Entry) :=
  [[mk 1; mk 5; mk 9]; [mk 2; mk 3; mk 10]; [mk 4; mk 6; mk 7]].

(** A state at the head of the loop whose queue holds one item although the
    ceiling is 0; no run goes through it. *)
Definition overfull : Async.State :=
  {| Async.heap := []; Async.logSources := [];
     Async.priorityQueue := [{| Async.log := mk 1; Async.source := 0 |}];
     Async.promiseQueue := []; Async.printer := []; Async.issued := 0;
     Async.pc := Async.LoopHead |}.

(** ** The priority queue as the package implements it *)

(** [@datastructures-js/priority-queue] keeps the items of a
    [MinPriorityQueue] in the binary heap of [@datastructures-js/heap], laid
    out in an array, and orders them with the comparison
    [(a, b) => priority(a) <= priority(b) ? -1 : 1].  The two packages are
    dependencies and not part of the repository; [Heap] follows the class
    [Heap] of the second one method by method ([_shouldSwap], [_swap],
    [_compareChildrenOf], [_heapifyUp], [_heapifyDown], [insert],
    [extractRoot], [isEmpty]), and [HeapQueue] the [MinPriorityQueue] of the
    first one.  As long as every item has a priority, the heap gives back
    the least item first, as the sorted list of [MinPriorityQueue] above
    does.  An item without priority ([log.date] of [false]) compares as the
    larger one on either side, and the heap then no longer gives back the
    least item first: this is what the synchronous solution runs into on a
    source that is empty from the start. *)
Module Heap.
Section Heap.
Context {A : Type} `{!Inhabited A}.
Variable compare : A -> A -> Z.

Definition size (nodes : list A) : Z := Z.of_nat (length nodes).

(** [this._nodes[i]], read at an index that is in the array. *)
Definition node (nodes : list A) (i : Z) : A := nodes !!! Z.to_nat i.

Definition shouldSwap (nodes : list A) (parentIndex childIndex : Z) : bool :=
  if (parentIndex <? 0)%Z || (size nodes <=? parentIndex)%Z then false
  else if (childIndex <? 0)%Z || (size nodes <=? childIndex)%Z then false
  else (0 <? compare (node nodes parentIndex) (node nodes childIndex))%Z.

Definition swap (nodes : list A) (i j : Z) : list A :=
  let temp := node nodes i in
  <[Z.to_nat j := temp]> (<[Z.to_nat i := node nodes j]> nodes).

Definition hasLeftChild (nodes : list A) (parentIndex : Z) : bool :=
  (parentIndex * 2 + 1 <? size nodes)%Z.

Definition hasRightChild (nodes : list A) (parentIndex : Z) : bool :=
  (parentIndex * 2 + 2 <? size nodes)%Z.

(** The index of the child to compare the parent with, or -1. *)
Definition compareChildrenOf (nodes : list A) (parentIndex : Z) : Z :=
  if negb (hasLeftChild nodes parentIndex) && negb (hasRightChild nodes parentIndex)
  then (-1)%Z
  else
    let leftChildIndex := (parentIndex * 2 + 1)%Z in
    let rightChildIndex := (parentIndex * 2 + 2)%Z in
    if negb (hasLeftChild nodes parentIndex) then rightChildIndex
    else if negb (hasRightChild nodes parentIndex) then leftChildIndex
    else if (0 <? compare (node nodes leftChildIndex) (node nodes rightChildIndex))%Z
         then rightChildIndex else leftChildIndex.

(** The loop of [_heapifyUp]; [Math.floor((childIndex - 1) / 2)] is the
    division of [Z], which rounds down.  The index goes down at each turn,
    so the loop makes fewer turns than the array has nodes. *)
Fixpoint heapifyUpLoop (turns : nat) (nodes : list A) (childIndex : Z) : list A :=
  match turns with
  | 0 => nodes
  | S turns' =>
      let parentIndex := ((childIndex - 1) / 2)%Z in
      if shouldSwap nodes parentIndex childIndex
      then heapifyUpLoop turns' (swap nodes parentIndex childIndex) parentIndex
      else nodes
  end.

Definition heapifyUp (nodes : list A) (startIndex : Z) : list A :=
  heapifyUpLoop (length nodes) nodes startIndex.

(** The loop of [_heapifyDown]; the index goes up at each turn. *)
Fixpoint heapifyDownLoop (turns : nat) (nodes : list A) (parentIndex : Z) : list A :=
  match turns with
  | 0 => nodes
  | S turns' =>
      let childIndex := compareChildrenOf nodes parentIndex in
      if shouldSwap nodes parentIndex childIndex
      then heapifyDownLoop turns' (swap nodes parentIndex childIndex) childIndex
      else nodes
  end.

Definition heapifyDown (nodes : list A) (startIndex : Z) : list A :=
  heapifyDownLoop (length nodes) nodes startIndex.

(** [insert]: the value goes to the end of the array and moves up. *)
Definition insert (value : A) (nodes : list A) : list A :=
  let nodes' := nodes ++ [value] in
  heapifyUp nodes' (size nodes' - 1).

(** [extractRoot]: the last node takes the place of the root and moves
    down; [null] on an empty heap. *)
Definition extractRoot (nodes : list A) : option (A * list A) :=
  match nodes with
  | [] => None
  | root :: _ =>
      let nodes' := removelast (<[0 := node nodes (size nodes - 1)]> nodes) in
      Some (root, heapifyDown nodes' 0)
  end.

Definition isEmpty (nodes : list A) : bool :=
  match nodes with [] => true | _ => false end.

End Heap.
End Heap.

(** [priority(a) <= priority(b)] in JavaScript: false as soon as one side
    is [undefined]. *)
Definition lessOrEqual (x y : option Z) : bool :=
  match x, y with
  | Some a, Some b => (a <=? b)%Z
  | _, _ => false
  end.

(** The [MinPriorityQueue] of the package on [getCompareValue]. *)
Module HeapQueue.
Section Queue.
Context {A : Type} `{!Inhabited A}.
Variable getCompareValue : A -> option Z.

Definition getMinCompare (a b : A) : Z :=
  if lessOrEqual (getCompareValue a) (getCompareValue b) then (-1)%Z else 1%Z.

Definition push (x : A) (q : list A) : list A := Heap.insert getMinCompare x q.

Definition pop (q : list A) : option (A * list A) :=
  Heap.extractRoot getMinCompare q.

Definition size (q : list A) : nat := length q.

Definition isEmpty (q : list A) : bool := Heap.isEmpty q.

(** [a] comes no later than [b]: both have a priority, and that of [a] is
    not the larger one. *)
Definition inOrder (a b : A) : Prop :=
  lessOrEqual (getCompareValue a) (getCompareValue b) = true.

(** Every item of the queue has a priority. *)
Definition keyed (q : list A) : Prop :=
  Forall (fun x => is_Some (getCompareValue x)) q.

(** The order of a heap: no node comes before its parent, the node at
    [Math.floor((i - 1) / 2)]. *)
Definition ordered (q : list A) : Prop :=
  forall i : Z, (0 < i < Heap.size q)%Z ->
    inOrder (Heap.node q ((i - 1) / 2)) (Heap.node q i).
End Queue.
End HeapQueue.

(** ** solution/sync-sorted-merge.js on the heap of the package *)

(** The function of [Sync] again, statement by statement, with the queue
    as the package implements it. *)
Module SyncHeap.
Import Sync.

#[export] Instance Item_inhabited : Inhabited Item :=
  populate {| log := None; source := 0 |}.

(** The body of [for (const source of logSources)]. *)
Definition fillOne (s : nat) (st : State) : State :=
  let (l, src) := pop (heap st !!! s) in
  {| heap := <[s := src]> (heap st);
     pq := HeapQueue.push priority {| log := l; source := s |} (pq st);
     printer := printer st |}.

Fixpoint fill (logSources : list nat) (st : State) : State :=
  match logSources with
  | [] => st
  | s :: rest => fill rest (fillOne s st)
  end.

(** The body of [while (!pq.isEmpty())]. *)
Definition body (st : State) : State :=
  match HeapQueue.pop priority (pq st) with
  | None => st
  | Some (item, rest) =>
      let out := printer st ++ [EvPrint (log item)] in
      if drained (heap st !!! source item) then
        {| heap := heap st; pq := rest; printer := out |}
      else
        let (l, src) := pop (heap st !!! source item) in
        {| heap := <[source item := src]> (heap st);
           pq := match l with
                 | Some _ =>
                     HeapQueue.push priority {| log := l; source := source item |} rest
                 | None => rest
                 end;
           printer := out |}
  end.

Fixpoint loop (fuel : nat) (st : State) : option State :=
  if HeapQueue.isEmpty (pq st) then Some st
  else match fuel with
       | 0 => None
       | S fuel' => loop fuel' (body st)
       end.

(** The exported function: the calls it makes on the printer, when [fuel]
    iterations of the second loop are enough. *)
Definition syncSortedMerge (sources : list LogSource) (fuel : nat)
  : option (list Event) :=
  match loop fuel (fill (seq 0 (length sources)) (start sources)) with
  | Some st' => Some (printer st' ++ [EvDone])
  | None => None
  end.

(** Two states that differ only in the order in which the queue keeps its
    items. *)
Definition sameItems (st st' : State) : Prop :=
  heap st = heap st' /\ printer st = printer st' /\ pq st ≡ₚ pq st'.

(** The facts on a run on sources none of which is empty from the start:
    the queue is a heap in order, and the state is one of the states of
    [Inv] and [Ord] but for the order in which the queue keeps its items. *)
Definition HeapInv (feeds : list (list Entry)) (k : nat) (st : State) : Prop :=
  HeapQueue.ordered priority (pq st)
  /\ exists st1, sameItems st st1 /\ Inv feeds k st1
       /\ (Forall chronological feeds -> Ord st1).

End SyncHeap.

(** Four sources, the second one empty from the start. *)
Definition oneEmptyOfFour : list (list Entry) :=
  [[mk 40]; []; [mk 92]; [mk 103]].

(** ** lib/log-source.js, with its random draws and its clock *)

(** The class as it is written.  What a call takes from outside (the random
    numbers of lodash, the phrase of Faker, the reading of the clock) is an
    argument of the call.  Dates are times in milliseconds; they stay far
    below 2^53, where the numbers of JavaScript are exact integers. *)
Module RandomSource.

(** What one call of [pop] or [popAsync] draws: [_.random(10)],
    [_.random(1000 * 60)], [Faker.Company.catchPhrase()] and the clock. *)
Record Draw := { hours : Z; millis : Z; phrase : string; now : Z }.

(** [_.random(n)] is an integer from 0 to [n], both included. *)
Definition inRange (d : Draw) : Prop :=
  (0 <= hours d <= 10)%Z /\ (0 <= millis d <= 1000 * 60)%Z.

Record LogSource := { drained : bool; last : Entry }.

(** [days] is the result of [_.random(40, 60)]. *)
Definition constructor (now days : Z) (phrase : string) : LogSource :=
  {| drained := false;
     last := {| date := now - 1000 * 60 * 60 * 24 * days; msg := phrase |} |}.

Definition getNextPseudoRandomEntry (this : LogSource) (d : Draw) : Entry :=
  {| date := date (last this) + 1000 * 60 * 60 * hours d + millis d;
     msg := phrase d |}.

(** [this.last = this.getNextPseudoRandomEntry();
     if (this.last.date > now) this.drained = true]. *)
Definition advance (d : Draw) (this : LogSource) : LogSource :=
  let next := getNextPseudoRandomEntry this d in
  {| drained := if (now d <? date next)%Z then true else drained this;
     last := next |}.

(** [this.drained ? false : this.last]. *)
Definition answer (this : LogSource) : Log :=
  if drained this then None else Some (last this).

Definition pop (d : Draw) (this : LogSource) : Log * LogSource :=
  let this' := advance d this in (answer this', this').

(** The object after the call; the promise evaluates [answer] on the
    object as it is when the timer fires. *)
Definition popAsync (d : Draw) (this : LogSource) : LogSource := advance d this.

(** What successive calls of [pop] return. *)
Fixpoint pops (ds : list Draw) (this : LogSource) : list Log :=
  match ds with
  | [] => []
  | d :: ds' => let (l, this') := pop d this in l :: pops ds' this'
  end.

(** The object after successive calls of [popAsync], no timer having fired
    in between. *)
Fixpoint popAsyncs (ds : list Draw) (this : LogSource) : LogSource :=
  match ds with
  | [] => this
  | d :: ds' => popAsyncs ds' (popAsync d this)
  end.

(** The entries that the draws generate after [prev], up to the first one
    that lies in the future. *)
Fixpoint feedOf (prev : Entry) (ds : list Draw) : list Entry :=
  match ds with
  | [] => []
  | d :: ds' =>
      let next := {| date := date prev + 1000 * 60 * 60 * hours d + millis d;
                     msg := phrase d |} in
      if (now d <? date next)%Z then [] else next :: feedOf next ds'
  end.

(** The largest step between two entries: ten hours and one minute. *)
Definition maxGap : Z := 1000 * 60 * 60 * 10 + 1000 * 60.

(** Each date is at least the one before and at most [maxGap] later. *)
Fixpoint paced (prev : Z) (dates : list Z) : Prop :=
  match dates with
  | [] => True
  | d :: rest => (prev <= d <= prev + maxGap)%Z /\ paced d rest
  end.

End RandomSource.

(** What [n] successive calls of [pop] return, on a source given by its feed. *)
Fixpoint popMany (n : nat) (s : LogSource) : list Log :=
  match n with
  | 0 => []
  | S n' => let (l, s') := pop s in l :: popMany n' s'
  end.

(** A source given by its feed stands for an object of the class and the
    draws still to come: it is drained when the object is, and otherwise
    holds the entries that the draws generate. *)
Definition standsFor (s : LogSource) (this : RandomSource.LogSource)
    (ds : list RandomSource.Draw) : Prop :=
  drained s = RandomSource.drained this
  /\ (RandomSource.drained this = false ->
      upcoming s = RandomSource.feedOf (RandomSource.last this) ds).

(** ** More on the synchronous merge *)

(** The number of sources that are empty from the start. *)
Definition emptyFeeds (feeds : list (list Entry)) : nat :=
  length (filter (fun f => f = []) feeds).

(** The number of [false] in a list of logs. *)
Definition falses (logs : list Log) : nat :=
  length (filter (fun l => l = None) logs).

(** The entries of a list of logs. *)
Definition entries (logs : list Log) : list Entry := omap id logs.

Module SyncRun.
Import Sync.

(** The synchronous merge once its first loop is over. *)
Definition syncFilled (feeds : list (list Entry)) : State :=
  fill (seq 0 (length feeds)) (start (sourcesOf feeds)).

(** What the second loop has still to do: one iteration for each item of
    the queue and for each entry that the sources still hold. *)
Definition syncTodo (st : State) : nat :=
  length (pq st) + length (concat (map rest (heap st))).

(** The facts that hold once the first loop has gone through the first [k]
    sources, whatever the feeds. *)
Record SyncInv (feeds : list (list Entry)) (k : nat) (st : State) : Prop := {
  sinv_heap : length (heap st) = length feeds;
  sinv_items : Forall (fun it => source it < k) (pq st);
  sinv_nodup : NoDup (map source (pq st));
  sinv_fresh : forall i, k <= i ->
    heap st !! i = newLogSource <$> feeds !! i;
  sinv_drained : forall it, it ∈ pq st ->
    drained (heap st !!! source it)
    = match log it with Some _ => false | None => true end;
  sinv_live : forall i s, i < k -> heap st !! i = Some s ->
    (exists it, it ∈ pq st /\ source it = i) \/ rest s = [];
  sinv_all : emitted st ++ pool st ≡ₚ concat feeds;
  sinv_false :
    falses (printed (printer st)) + falses (map log (pq st))
    = emptyFeeds (take k feeds);
  sinv_printer : printer st = map EvPrint (printed (printer st))
}.

End SyncRun.

(** ** More on the asynchronous merge *)

(** The timestamps of the entries passed to [printer.print], in order. *)
Definition timestamps (out : list Event) : list Z :=
  map date (entries (printed out)).

Module AsyncRun.
Import Async.

(** [Promise.all] resolves in this step: every promise of the batch has
    settled. *)
Definition resolves (st : State) : bool :=
  match pc st with
  | Awaiting =>
      match soonest (promiseQueue st) with Some _ => false | None => true end
  | _ => false
  end.

(** [awaitCounter] after [n] steps from [st]: the number of times the
    [await] of the loop has resumed. *)
Fixpoint awaitCounter (delay : nat -> nat) (MAX_PRIORITY_QUEUE_SIZE : nat)
    (n : nat) (st : State) : nat :=
  match n with
  | 0 => 0
  | S n' =>
      (if resolves st then 1 else 0)
      + awaitCounter delay MAX_PRIORITY_QUEUE_SIZE n'
          (step delay MAX_PRIORITY_QUEUE_SIZE st)
  end.

(** The facts on the calls of [popAsync] and on the end of the loop. *)
Record Fetches (feeds : list (list Entry)) (st : State) : Prop := {
  fetches_issued :
    issued st + sum_list_with fetchesLeft (heap st)
    = length (concat feeds) + length feeds;
  fetches_ids : map id (heap st) = seq 1 (length feeds);
  fetches_none_left :
    match pc st with
    | LoopHead => logSources st = [] -> promiseQueue st = []
    | Gate | Filter =>
        Forall (fun i => drained (base (heap st !!! i)) = true) (logSources st) ->
        promiseQueue st = []
    | Finished => promiseQueue st = []
    | _ => True
    end
}.

End AsyncRun.

Module AsyncLoop.
Import Async.

(** This step ends an iteration of the loop: it is the last statement of
    its body, [logSources = logSources.filter(...)]. *)
Definition endsIteration (st : State) : bool :=
  match pc st with Filter => true | _ => false end.

(** The number of iterations of the loop that are over after [n] steps
    from [st]. *)
Fixpoint iterations (delay : nat -> nat) (MAX_PRIORITY_QUEUE_SIZE : nat)
    (n : nat) (st : State) : nat :=
  match n with
  | 0 => 0
  | S n' =>
      (if endsIteration st then 1 else 0)
      + iterations delay MAX_PRIORITY_QUEUE_SIZE n'
          (step delay MAX_PRIORITY_QUEUE_SIZE st)
  end.

End AsyncLoop.

(** * Facts *)

(** ** Lists *)

Section ListFacts.
Context {A : Type}.
Implicit Types l : list A.

Lemma alter_split (f : A -> A) l k x :
  l !! k = Some x ->
  exists l1 l2, l = l1 ++ x :: l2 /\ length l1 = k /\ alter f k l = l1 ++ f x :: l2.
Proof.
  revert k. induction l as [|y l IH]; intros [|k] Hk; simplify_eq/=.
  - by exists [], l.
  - destruct (IH _ Hk) as (l1 & l2 & -> & <- & Hal).
    exists (y :: l1), l2. simpl. by rewrite Hal.
Qed.

Lemma alter_out_of_range (f : A -> A) l k : l !! k = None -> alter f k l = l.
Proof.
  revert k. induction l as [|y l IH]; intros [|k] Hk; simpl in *; try done.
  f_equal. by apply IH.
Qed.

Lemma lookup_alter_Some (f : A -> A) l i j y :
  alter f j l !! i = Some y ->
  (i = j /\ exists x, l !! j = Some x /\ y = f x) \/ (i <> j /\ l !! i = Some y).
Proof.
  intros H. destruct (decide (i = j)) as [->|Hne].
  - left. split; [done|]. rewrite list_lookup_alter_eq in H.
    destruct (l !! j) as [x|]; simplify_eq/=. eauto.
  - right. by rewrite list_lookup_alter_ne in H.
Qed.

Lemma lookup_total_Some `{!Inhabited A} l i x : l !! i = Some x -> l !!! i = x.
Proof. apply list_lookup_total_correct. Qed.

Lemma sum_alter (g : A -> nat) (f : A -> A) l k x :
  l !! k = Some x ->
  sum_list_with g (alter f k l) + g x = sum_list_with g l + g (f x).
Proof.
  intros H. destruct (alter_split f _ _ _ H) as (l1 & l2 & -> & _ & ->).
  rewrite !sum_list_with_app. simpl. lia.
Qed.

Lemma concat_alter {B} (g : A -> list B) (f : A -> A) l k x :
  l !! k = Some x ->
  exists before after,
    concat (map g l) = before ++ g x ++ after
    /\ concat (map g (alter f k l)) = before ++ g (f x) ++ after.
Proof.
  intros H. destruct (alter_split f _ _ _ H) as (l1 & l2 & -> & _ & ->).
  exists (concat (map g l1)), (concat (map g l2)).
  by rewrite !map_app, !concat_app.
Qed.

Lemma concat_alter_same {B} (g : A -> list B) (f : A -> A) l k :
  (forall x, l !! k = Some x -> g (f x) = g x) ->
  concat (map g (alter f k l)) = concat (map g l).
Proof.
  intros H. destruct (l !! k) as [x|] eqn:Hk.
  - destruct (concat_alter g f _ _ _ Hk) as (b & a & -> & ->). by rewrite H.
  - by rewrite alter_out_of_range.
Qed.
End ListFacts.

(** Counting the positions of a list of indices at which a property holds,
    when the property changes at one index. *)
Section Counting.
Context (P Q : nat -> Prop) {decP : forall i, Decision (P i)}
        {decQ : forall i, Decision (Q i)}.

Lemma count_le (ls : list nat) :
  (forall i, i ∈ ls -> Q i -> P i) ->
  length (filter Q ls) <= length (filter P ls).
Proof.
  induction ls as [|i ls IH]; intros Himp; [done|].
  rewrite !filter_cons.
  assert (length (filter Q ls) <= length (filter P ls)).
  { apply IH. intros. apply Himp; [by right|done]. }
  destruct (decide (Q i)), (decide (P i)); simpl; try lia.
  exfalso. apply n, Himp; [by left|done].
Qed.

Lemma count_up_one (ls : list nat) (j : nat) :
  NoDup ls ->
  (forall i, i ∈ ls -> i <> j -> Q i -> P i) ->
  length (filter Q ls) <= S (length (filter P ls)).
Proof.
  induction ls as [|i ls IH]; intros Hnd Himp; [simpl; lia|].
  apply NoDup_cons in Hnd as [Hi Hnd].
  rewrite !filter_cons.
  destruct (decide (i = j)) as [->|Hne].
  - assert (length (filter Q ls) <= length (filter P ls)).
    { apply count_le. intros i Hin. apply Himp; [by right|]. intros ->. done. }
    destruct (decide (Q j)), (decide (P j)); simpl; lia.
  - assert (length (filter Q ls) <= S (length (filter P ls))).
    { apply IH; [done|]. intros. apply Himp; [by right|done..]. }
    destruct (decide (Q i)), (decide (P i)); simpl; try lia.
    exfalso. apply n, Himp; [by left|done..].
Qed.

Lemma count_down_one (ls : list nat) (j : nat) :
  NoDup ls -> j ∈ ls -> P j -> ~ Q j ->
  (forall i, i ∈ ls -> i <> j -> Q i -> P i) ->
  S (length (filter Q ls)) <= length (filter P ls).
Proof.
  induction ls as [|i ls IH]; intros Hnd Hj HP HQ Himp; [by apply elem_of_nil in Hj|].
  apply NoDup_cons in Hnd as [Hi Hnd].
  rewrite !filter_cons.
  destruct (decide (i = j)) as [->|Hne].
  - assert (length (filter Q ls) <= length (filter P ls)).
    { apply count_le. intros i Hin. apply Himp; [by right|]. intros ->. done. }
    destruct (decide (Q j)), (decide (P j)); simpl; try lia; done.
  - apply elem_of_cons in Hj as [->|Hj]; [done|].
    assert (S (length (filter Q ls)) <= length (filter P ls)).
    { apply IH; try done. intros. apply Himp; [by right|done..]. }
    destruct (decide (Q i)), (decide (P i)); simpl; try lia.
    exfalso. apply n, Himp; [by left|done..].
Qed.
End Counting.

(** ** The order of the entries *)

#[local] Instance earlier_transitive : Transitive earlier.
Proof. unfold earlier. intros a b c ? ?. lia. Qed.

#[local] Instance earlier_reflexive : Reflexive earlier.
Proof. unfold earlier. intros a. lia. Qed.

Lemma head_smallest (e : Entry) (l : list Entry) (x : Entry) :
  StronglySorted earlier (e :: l) -> x ∈ e :: l -> earlier e x.
Proof.
  intros [Hall _]%StronglySorted_cons [->|Hin]%elem_of_cons; [done|].
  rewrite Forall_forall in Hall. by apply Hall.
Qed.

(** ** The priority queue *)

Section QueueFacts.
Context {A : Type} (before : A -> A -> bool).

Lemma push_Permutation (x : A) (q : list A) :
  MinPriorityQueue.push before x q ≡ₚ x :: q.
Proof.
  induction q as [|y q IH]; simpl; [done|].
  destruct (before x y); [done|].
  rewrite IH. apply Permutation_swap.
Qed.

Lemma push_length (x : A) (q : list A) :
  length (MinPriorityQueue.push before x q) = S (length q).
Proof. by rewrite push_Permutation. Qed.

Lemma push_elem_of (x y : A) (q : list A) :
  y ∈ MinPriorityQueue.push before x q <-> y = x \/ y ∈ q.
Proof. rewrite push_Permutation. apply elem_of_cons. Qed.
End QueueFacts.

(** ** The synchronous merge when no source is empty from the start *)

Section SyncFacts.
Import Sync.

Ltac sfields :=
  cbn [heap pq printer log source drained last upcoming] in *.

Lemma queued_push (it : Item) (q : list Item) :
  queued (MinPriorityQueue.push before it q) ≡ₚ queued (it :: q).
Proof.
  unfold queued. induction q as [|y q IH]; simpl; [done|].
  destruct (before it y); [done|]. simpl. simpl in IH.
  destruct (log y) as [ey|], (log it) as [e|]; rewrite IH; try done.
  apply Permutation_swap.
Qed.

Lemma sync_push_sorted (it : Item) (e : Entry) (q : list Item) :
  log it = Some e ->
  Forall (fun y => is_Some (log y)) q ->
  StronglySorted earlier (queued q) ->
  StronglySorted earlier (queued (MinPriorityQueue.push before it q)).
Proof.
  intros He. induction q as [|y q IH]; intros Hsome Hs.
  - unfold queued. simpl. rewrite He. repeat constructor.
  - apply Forall_cons in Hsome as [[ey Hey] Hsome].
    unfold queued in Hs. simpl in Hs. rewrite Hey in Hs.
    apply StronglySorted_cons in Hs as [Hall Hs].
    simpl. unfold before at 1, priority. rewrite He, Hey. simpl.
    destruct (date e <? date ey)%Z eqn:Hlt.
    + apply Z.ltb_lt in Hlt. unfold queued. simpl. rewrite He, Hey.
      apply StronglySorted_cons. split; [|by apply StronglySorted_cons].
      constructor; [unfold earlier; lia|].
      eapply Forall_impl; [exact Hall|]. unfold earlier. intros; simpl in *; lia.
    + apply Z.ltb_ge in Hlt. unfold queued. simpl. rewrite Hey.
      apply StronglySorted_cons. split; [|by apply IH].
      fold (queued (MinPriorityQueue.push before it q)).
      rewrite queued_push. unfold queued. simpl. rewrite He. by constructor.
Qed.

Lemma queued_elem (it : Item) (e : Entry) (q : list Item) :
  it ∈ q -> log it = Some e -> e ∈ queued q.
Proof.
  intros Hin He. unfold queued. apply list_elem_of_omap. eauto.
Qed.

Lemma rest_advance (s : LogSource) :
  drained s = false ->
  rest s = match answer (advance s) with
           | Some e => e :: rest (advance s)
           | None => rest (advance s)
           end.
Proof.
  intros Hd. unfold rest, answer, advance. rewrite Hd.
  destruct (upcoming s); simpl; by rewrite ?Hd.
Qed.

Lemma answer_drained (s : LogSource) (e : Entry) :
  answer s = Some e -> drained s = false.
Proof. unfold answer. by destruct (drained s). Qed.

Lemma answer_None (s : LogSource) : answer s = None -> rest s = [].
Proof. unfold answer, rest. by destruct (drained s). Qed.

Lemma sync_pool_elem (st : State) (x : Entry) :
  x ∈ pool st ->
  x ∈ queued (pq st) \/ exists i s, heap st !! i = Some s /\ x ∈ rest s.
Proof.
  unfold pool. intros [Hq|Hf]%elem_of_app; [by left|right].
  apply list_elem_of_In, in_concat in Hf as (l & Hl & Hx).
  apply in_map_iff in Hl as (s & <- & Hs).
  apply list_elem_of_In, list_elem_of_lookup in Hs as [i Hi].
  exists i, s. split; [done|]. by apply list_elem_of_In.
Qed.

Lemma sync_pool_refill (h : list LogSource) (q : list Item) (i : nat) (s : LogSource) :
  h !! i = Some s -> drained s = false ->
  queued (MinPriorityQueue.push before {| log := answer (advance s); source := i |} q)
  ++ concat (map rest (<[i := advance s]> h))
  ≡ₚ queued q ++ concat (map rest h).
Proof.
  intros Hs Hd. rewrite list_insert_alter.
  destruct (concat_alter rest (fun _ => advance s) _ _ _ Hs) as (b & a & -> & ->).
  rewrite queued_push. unfold queued at 1. simpl. fold (queued q).
  rewrite (rest_advance s Hd).
  destruct (answer (advance s)) as [e|]; [|done].
  simpl. rewrite (app_assoc (queued q) b (e :: _)).
  rewrite <- Permutation_middle. by rewrite <- app_assoc.
Qed.

Lemma insert_total_same (h : list LogSource) (i : nat) (s : LogSource) :
  i < length h -> <[i := s]> h !!! i = s.
Proof. intros. by rewrite list_lookup_total_insert_eq. Qed.

Lemma insert_total_other (h : list LogSource) (i j : nat) (s : LogSource) :
  i <> j -> <[i := s]> h !!! j = h !!! j.
Proof. intros. by rewrite list_lookup_total_insert_ne. Qed.

Lemma source_not_in (q : list Item) (k : nat) :
  Forall (fun it => is_Some (log it) /\ source it < k) q -> k ∉ map source q.
Proof.
  intros H Hin. apply list_elem_of_In, in_map_iff in Hin as (it & Hs & Hit).
  rewrite Forall_forall in H. apply list_elem_of_In, H in Hit. lia.
Qed.

Lemma NoDup_push (it : Item) (q : list Item) :
  source it ∉ map source q -> NoDup (map source q) ->
  NoDup (map source (MinPriorityQueue.push before it q)).
Proof.
  intros Hni Hnd. rewrite push_Permutation. simpl. by constructor.
Qed.

Section SyncSteps.
Variable feeds : list (list Entry).

Lemma sync_Inv_fillOne (k : nat) (st : State) (e : Entry) (f : list Entry) :
  Inv feeds k st -> feeds !! k = Some (e :: f) ->
  Inv feeds (S k) (fillOne k st).
Proof.
  intros [Hh Hit Hnd Hfr Hlv Hud Hall Hpr] Hk.
  assert (Hs : heap st !! k = Some (newLogSource (e :: f))).
  { rewrite Hfr by lia. by rewrite Hk. }
  assert (Hlt : k < length (heap st)) by (by eapply lookup_lt_Some).
  pose proof (sync_pool_refill (heap st) (pq st) k _ Hs eq_refl) as Hpool.
  unfold fillOne. rewrite (lookup_total_Some _ _ _ Hs).
  change (pop (newLogSource (e :: f)))
    with (answer (advance (newLogSource (e :: f))), advance (newLogSource (e :: f))).
  cbv iota. set (src := advance (newLogSource (e :: f))) in *.
  assert (Ha : answer src = Some e) by done. rewrite Ha in *.
  set (it := {| log := Some e; source := k |}) in *.
  constructor; sfields.
  - by rewrite length_insert.
  - apply Forall_forall. intros y [->|Hy]%push_elem_of.
    + simpl. split; [by eexists|lia].
    + rewrite Forall_forall in Hit. destruct (Hit _ Hy). split; [done|lia].
  - apply NoDup_push; [|done]. by apply source_not_in.
  - intros i Hi. rewrite list_lookup_insert_ne by lia. apply Hfr. lia.
  - intros i s Hi Hsi. destruct (decide (i = k)) as [->|Hne].
    + left. exists it. split; [|done]. apply push_elem_of. by left.
    + rewrite list_lookup_insert_ne in Hsi by done.
      destruct (Hlv i s) as [(y & Hy & Hsrc)|Hr]; [lia|done| |by right].
      left. exists y. split; [|done]. apply push_elem_of. by right.
  - intros y [->|Hy]%push_elem_of.
    + simpl. by rewrite insert_total_same.
    + rewrite Forall_forall in Hit. destruct (Hit _ Hy) as [_ Hsrc].
      rewrite insert_total_other by lia. by apply Hud.
  - unfold pool, emitted in *. sfields. by rewrite Hpool.
  - done.
Qed.

Lemma sync_Ord_fillOne (k : nat) (st : State) (e : Entry) (f : list Entry) :
  Inv feeds k st -> Ord st -> feeds !! k = Some (e :: f) ->
  Ord (fillOne k st).
Proof.
  intros [Hh Hit Hnd Hfr Hlv Hud Hall Hpr] [Hq Hr Hi He Hfl] Hk.
  assert (Hs : heap st !! k = Some (newLogSource (e :: f))).
  { rewrite Hfr by lia. by rewrite Hk. }
  assert (Hlt : k < length (heap st)) by (by eapply lookup_lt_Some).
  pose proof (sync_pool_refill (heap st) (pq st) k _ Hs eq_refl) as Hpool.
  pose proof (Hr _ _ Hs) as Hsorted. change (rest (newLogSource (e :: f))) with (e :: f) in Hsorted.
  unfold fillOne. rewrite (lookup_total_Some _ _ _ Hs).
  change (pop (newLogSource (e :: f)))
    with (answer (advance (newLogSource (e :: f))), advance (newLogSource (e :: f))).
  cbv iota. set (src := advance (newLogSource (e :: f))) in *.
  assert (Ha : answer src = Some e) by done. rewrite Ha in *.
  assert (Hrest : rest src = f) by done.
  set (it := {| log := Some e; source := k |}) in *.
  constructor; sfields.
  - apply (sync_push_sorted it e); [done| |done].
    eapply Forall_impl; [exact Hit|]. by intros y [? _].
  - intros i s Hsi. destruct (decide (i = k)) as [->|Hne].
    + rewrite list_lookup_insert_eq in Hsi by done. injection Hsi as <-.
      rewrite Hrest. by apply StronglySorted_cons in Hsorted as [_ ?].
    + rewrite list_lookup_insert_ne in Hsi by done. eauto.
  - intros y ey x [->|Hy]%push_elem_of Hey.
    + simpl. rewrite insert_total_same by done. rewrite Hrest.
      simpl in Hey. injection Hey as <-. intros Hx.
      apply (head_smallest _ f); [done|by right].
    + rewrite Forall_forall in Hit. destruct (Hit _ Hy) as [_ Hsrc].
      rewrite insert_total_other by lia. by eapply Hi.
  - done.
  - intros p x Hp Hx. apply Hfl; [done|]. unfold pool in *. sfields.
    by rewrite Hpool in Hx.
Qed.

(** The body of the second loop on a queue whose head is an entry of a
    source that is not drained. *)
Lemma sync_body_refill (st : State) (item : Item) (rq : list Item) (e : Entry) (s : LogSource) :
  pq st = item :: rq -> log item = Some e ->
  heap st !! source item = Some s -> drained s = false ->
  body st =
  {| heap := <[source item := advance s]> (heap st);
     pq := match answer (advance s) with
           | Some _ =>
               MinPriorityQueue.push before
                 {| log := answer (advance s); source := source item |} rq
           | None => rq
           end;
     printer := printer st ++ [EvPrint (Some e)] |}.
Proof.
  intros Hq He Hs Hd. unfold body, MinPriorityQueue.pop. rewrite Hq.
  rewrite (lookup_total_Some _ _ _ Hs), Hd, He. done.
Qed.

Lemma sync_queued_refill (l : Log) (i : nat) (rq : list Item) :
  queued (match l with
          | Some _ => MinPriorityQueue.push before {| log := l; source := i |} rq
          | None => rq
          end)
  ≡ₚ queued (MinPriorityQueue.push before {| log := l; source := i |} rq).
Proof. destruct l; [done|]. by rewrite queued_push. Qed.

Lemma sync_pool_body (st : State) (item : Item) (rq : list Item) (e : Entry) (s : LogSource) :
  pq st = item :: rq -> log item = Some e ->
  heap st !! source item = Some s -> drained s = false ->
  pool st ≡ₚ e :: pool (body st).
Proof.
  intros Hq He Hs Hd. rewrite (sync_body_refill st item rq e s) by done.
  unfold pool. sfields. rewrite sync_queued_refill.
  rewrite (sync_pool_refill _ _ _ _ Hs Hd). rewrite Hq.
  unfold queued at 1. simpl. by rewrite He.
Qed.

Lemma sync_Inv_body (st : State) :
  Inv feeds (length feeds) st -> pq st <> [] ->
  Inv feeds (length feeds) (body st)
  /\ exists e, pool st ≡ₚ e :: pool (body st).
Proof.
  intros Hinv Hne. pose proof Hinv as [Hh Hit Hnd Hfr Hlv Hud Hall Hpr].
  destruct (pq st) as [|item rq] eqn:Hq; [done|].
  apply Forall_cons in Hit as [[[e He] Hlt] Hit].
  rewrite <- Hh in Hlt. destruct (lookup_lt_is_Some_2 _ _ Hlt) as [s Hs].
  assert (Hd : drained s = false).
  { rewrite <- (lookup_total_Some _ _ _ Hs). apply Hud. by left. }
  simpl in Hnd. apply NoDup_cons in Hnd as [Hni Hnd].
  pose proof (sync_pool_body st item rq e s Hq He Hs Hd) as Hpool.
  split; [|by exists e].
  revert Hpool. rewrite (sync_body_refill st item rq e s) by done. intros Hpool.
  assert (Hin : forall y,
            y ∈ match answer (advance s) with
                | Some _ =>
                    MinPriorityQueue.push before
                      {| log := answer (advance s); source := source item |} rq
                | None => rq
                end ->
            (y = {| log := answer (advance s); source := source item |}
             /\ is_Some (answer (advance s)))
            \/ y ∈ rq).
  { intros y. destruct (answer (advance s)) as [e'|]; [|by right].
    intros [->|Hy]%push_elem_of; [left|by right]. split; [done|by eexists]. }
  assert (Hother : forall y, y ∈ rq -> source y <> source item).
  { intros y Hy Heq. apply Hni. rewrite <- Heq.
    apply list_elem_of_In, in_map, list_elem_of_In. done. }
  constructor; sfields.
  - by rewrite length_insert.
  - apply Forall_forall. intros y [[-> Hsome]|Hy]%Hin.
    + simpl. split; [done|]. by rewrite <- Hh.
    + rewrite Forall_forall in Hit. by apply Hit.
  - destruct (answer (advance s)); [|done]. by apply NoDup_push.
  - intros i Hi. rewrite list_lookup_insert_ne by lia. by apply Hfr.
  - intros i s' Hi Hsi. destruct (decide (i = source item)) as [->|Hne'].
    + rewrite list_lookup_insert_eq in Hsi by done. injection Hsi as <-.
      destruct (answer (advance s)) as [e'|] eqn:Ha.
      * left. eexists. split; [apply push_elem_of; by left|done].
      * right. by apply answer_None.
    + rewrite list_lookup_insert_ne in Hsi by done.
      destruct (Hlv i s' Hi Hsi) as [(y & Hy & Hsrc)|Hr]; [|by right].
      left. exists y. split; [|done].
      apply elem_of_cons in Hy as [->|Hy]; [done|].
      destruct (answer (advance s)); [|done]. apply push_elem_of. by right.
  - intros y [[-> [e' Hsome]]|Hy]%Hin.
    + simpl. rewrite insert_total_same by done. by eapply answer_drained.
    + rewrite insert_total_other by (symmetry; by apply Hother).
      apply Hud. by right.
  - unfold emitted in *. sfields. rewrite omap_app. simpl.
    rewrite <- Hall. rewrite <- app_assoc. simpl.
    apply Permutation_app_head. by rewrite Hpool.
  - unfold emitted in *. sfields. rewrite omap_app, map_app. simpl.
    by rewrite <- Hpr.
Qed.

Lemma sync_Ord_body (st : State) :
  Inv feeds (length feeds) st -> Ord st -> pq st <> [] -> Ord (body st).
Proof.
  intros Hinv [Hqs Hr Hi He Hfl] Hne.
  pose proof Hinv as [Hh Hit Hnd Hfr Hlv Hud Hall Hpr].
  destruct (pq st) as [|item rq] eqn:Hq; [done|].
  pose proof Hit as Hit0.
  apply Forall_cons in Hit as [[[e Hlog] Hlt] Hit].
  rewrite <- Hh in Hlt. destruct (lookup_lt_is_Some_2 _ _ Hlt) as [s Hs].
  assert (Hd : drained s = false).
  { rewrite <- (lookup_total_Some _ _ _ Hs). apply Hud. by left. }
  simpl in Hnd. apply NoDup_cons in Hnd as [Hni Hnd].
  pose proof (sync_pool_body st item rq e s Hq Hlog Hs Hd) as Hpool.
  assert (Hother : forall y, y ∈ rq -> source y <> source item).
  { intros y Hy Heq. apply Hni. rewrite <- Heq.
    apply list_elem_of_In, in_map, list_elem_of_In. done. }
  assert (Hhead : queued (item :: rq) = e :: queued rq).
  { unfold queued. simpl. by rewrite Hlog. }
  rewrite Hhead in Hqs.
  assert (Hmin : forall x, x ∈ pool st -> earlier e x).
  { intros x [Hx|(j & sj & Hj & Hx)]%sync_pool_elem.
    - rewrite Hq, Hhead in Hx. by eapply head_smallest.
    - destruct (Hlv j sj) as [(y & Hy & Hsrc)|Hnil];
        [rewrite <- Hh; by eapply lookup_lt_Some|done| |].
      + rewrite Forall_forall in Hit0. destruct (Hit0 _ Hy) as [[ey Hey] _].
        transitivity ey.
        * apply (head_smallest _ (queued rq)); [done|].
          rewrite <- Hhead. by eapply queued_elem.
        * eapply Hi; [exact Hy|done|].
          by rewrite Hsrc, (lookup_total_Some _ _ _ Hj).
      + rewrite Hnil in Hx. by apply elem_of_nil in Hx. }
  pose proof (Hr _ _ Hs) as Hsorted. rewrite (rest_advance s Hd) in Hsorted.
  revert Hpool. rewrite (sync_body_refill st item rq e s) by done. intros Hpool.
  constructor; sfields.
  - apply StronglySorted_cons in Hqs as [_ Hqs].
    destruct (answer (advance s)) as [e'|] eqn:Ha; [|done].
    apply (sync_push_sorted _ e'); [done| |done].
    eapply Forall_impl; [exact Hit|]. by intros y [? _].
  - intros i s' Hsi. destruct (decide (i = source item)) as [->|Hne'].
    + rewrite list_lookup_insert_eq in Hsi by done. injection Hsi as <-.
      destruct (answer (advance s)); [|done].
      by apply StronglySorted_cons in Hsorted as [_ ?].
    + rewrite list_lookup_insert_ne in Hsi by done. eauto.
  - intros y ey x Hy Hey.
    assert ((y = {| log := answer (advance s); source := source item |})
            \/ y ∈ rq) as [->|Hy'].
    { destruct (answer (advance s)); [|by right].
      apply push_elem_of in Hy as [->|Hy]; [by left|by right]. }
    + simpl. rewrite insert_total_same by done. simpl in Hey. rewrite Hey in Hsorted.
      intros Hx. apply (head_smallest _ (rest (advance s))); [done|by right].
    + rewrite insert_total_other by (symmetry; by apply Hother).
      eapply Hi; [by right|done].
  - unfold emitted in *. sfields. rewrite omap_app. simpl.
    apply StronglySorted_app_2; [|done|repeat constructor].
    intros p x Hp Hx%list_elem_of_singleton. subst x. apply Hfl; [done|].
    unfold pool. rewrite Hq, Hhead. by left.
  - unfold emitted in *. intros p x Hp Hx.
    assert (x ∈ pool st) as Hx'. { rewrite Hpool. by right. }
    sfields. rewrite omap_app in Hp. simpl in Hp.
    apply elem_of_app in Hp as [Hp|Hp%list_elem_of_singleton].
    + by apply Hfl.
    + subst p. by apply Hmin.
Qed.

Lemma sync_Inv_fill (n k : nat) (st : State) :
  Forall (fun f => f <> []) feeds ->
  k + n = length feeds ->
  Inv feeds k st ->
  Inv feeds (length feeds) (fill (seq k n) st).
Proof.
  intros Hfull. revert k st. induction n as [|n IH]; intros k st Hk Hinv.
  - simpl. by replace (length feeds) with k by lia.
  - simpl. assert (k < length feeds) as Hlt by lia.
    destruct (lookup_lt_is_Some_2 _ _ Hlt) as [f Hf].
    rewrite Forall_forall in Hfull.
    pose proof (Hfull f (list_elem_of_lookup_2 _ _ _ Hf)) as Hne.
    destruct f as [|e f]; [done|].
    apply IH; [lia|]. by eapply sync_Inv_fillOne.
Qed.

Lemma sync_Ord_fill (n k : nat) (st : State) :
  Forall (fun f => f <> []) feeds ->
  k + n = length feeds ->
  Inv feeds k st -> Ord st ->
  Ord (fill (seq k n) st).
Proof.
  intros Hfull. revert k st. induction n as [|n IH]; intros k st Hk Hinv Hord.
  - done.
  - simpl. assert (k < length feeds) as Hlt by lia.
    destruct (lookup_lt_is_Some_2 _ _ Hlt) as [f Hf].
    rewrite Forall_forall in Hfull.
    pose proof (Hfull f (list_elem_of_lookup_2 _ _ _ Hf)) as Hne.
    destruct f as [|e f]; [done|].
    apply IH; [lia| |].
    + by eapply sync_Inv_fillOne.
    + by eapply sync_Ord_fillOne.
Qed.

Lemma sync_Inv_start : Inv feeds 0 (start (sourcesOf feeds)).
Proof.
  unfold start, sourcesOf. constructor; sfields.
  - by rewrite length_map.
  - constructor.
  - constructor.
  - intros i _. apply list_lookup_fmap.
  - intros i s Hi. lia.
  - intros it Hit. by apply elem_of_nil in Hit.
  - unfold pool, emitted, queued. sfields. simpl.
    rewrite map_map. by rewrite map_id.
  - done.
Qed.

Lemma sync_Ord_start : Forall chronological feeds -> Ord (start (sourcesOf feeds)).
Proof.
  intros Hs. unfold start, sourcesOf. constructor; sfields.
  - constructor.
  - intros i s Hi. change (map newLogSource feeds) with (newLogSource <$> feeds) in Hi.
    rewrite list_lookup_fmap in Hi.
    destruct (feeds !! i) as [f|] eqn:Hf; [|done]. injection Hi as <-.
    change (rest (newLogSource f)) with f.
    apply Sorted_StronglySorted; [apply _|].
    rewrite Forall_forall in Hs. apply Hs. by eapply list_elem_of_lookup_2.
  - intros it e x Hit. by apply elem_of_nil in Hit.
  - constructor.
  - intros p x Hp. by apply elem_of_nil in Hp.
Qed.

Lemma sync_loop_finishes (fuel : nat) (st : State) :
  Inv feeds (length feeds) st ->
  length (pool st) <= fuel ->
  exists st', loop fuel st = Some st'
    /\ Inv feeds (length feeds) st' /\ pq st' = []
    /\ (Ord st -> Ord st').
Proof.
  revert st. induction fuel as [|fuel IH]; intros st Hinv Hlen.
  - destruct (pq st) as [|item rq] eqn:Hq.
    + exists st. simpl. by rewrite Hq.
    + exfalso. destruct (sync_Inv_body st Hinv) as [_ [e Hp]]; [by rewrite Hq|].
      rewrite Hp in Hlen. simpl in Hlen. lia.
  - destruct (pq st) as [|item rq] eqn:Hq.
    + exists st. simpl. by rewrite Hq.
    + destruct (sync_Inv_body st Hinv) as [Hinv' [e Hp]]; [by rewrite Hq|].
      destruct (IH (body st) Hinv') as (st' & Hloop & Hst' & Hempty & Hord).
      { rewrite Hp in Hlen. simpl in Hlen. lia. }
      exists st'. simpl. rewrite Hq. simpl. split_and!; try done.
      intros Ho. apply Hord, sync_Ord_body; try done. by rewrite Hq.
Qed.

Lemma sync_pool_empty (st : State) :
  Inv feeds (length feeds) st -> pq st = [] -> pool st = [].
Proof.
  intros [Hh Hit Hnd Hfr Hlv Hud Hall Hpr] Hq. unfold pool. rewrite Hq. simpl.
  assert (Hnil : forall i s, heap st !! i = Some s -> rest s = []).
  { intros i s Hs. destruct (Hlv i s) as [(y & Hy & _)|Hr]; [|done| |done].
    - rewrite <- Hh. by eapply lookup_lt_Some.
    - rewrite Hq in Hy. by apply elem_of_nil in Hy. }
  clear -Hnil. revert Hnil. generalize (heap st). intros h.
  induction h as [|s h IH]; intros Hnil; [done|].
  simpl. rewrite (Hnil 0 s) by done. simpl.
  apply IH. intros i s' Hs'. by apply (Hnil (S i)).
Qed.

End SyncSteps.

(** *** A source that is empty from the start *)

Lemma fillOne_keeps (s : nat) (st : State) (it : Item) :
  it ∈ pq st -> it ∈ pq (fillOne s st).
Proof.
  intros Hit. unfold fillOne. destruct (pop (heap st !!! s)) as [l src]. sfields.
  apply push_elem_of. by right.
Qed.

Lemma fill_keeps (ls : list nat) (st : State) (it : Item) :
  it ∈ pq st -> it ∈ pq (fill ls st).
Proof.
  revert st. induction ls as [|s ls IH]; intros st Hit; [done|].
  simpl. by apply IH, fillOne_keeps.
Qed.

Lemma fill_pushes_false (ls : list nat) (st : State) (k : nat) :
  heap st !!! k = newLogSource [] -> k ∈ ls ->
  exists it, it ∈ pq (fill ls st) /\ log it = None.
Proof.
  revert st. induction ls as [|s ls IH]; intros st Hk Hin;
    [by apply elem_of_nil in Hin|].
  simpl. destruct (decide (s = k)) as [->|Hne].
  - exists {| log := None; source := k |}. split; [|done].
    apply fill_keeps. unfold fillOne. rewrite Hk. simpl.
    apply push_elem_of. by left.
  - apply elem_of_cons in Hin as [->|Hin]; [done|].
    apply IH; [|done]. unfold fillOne.
    destruct (pop (heap st !!! s)) as [l src]. sfields.
    by rewrite insert_total_other.
Qed.

Lemma body_keeps_false (st : State) :
  (exists it, it ∈ pq st /\ log it = None) \/ EvPrint None ∈ printer st ->
  (exists it, it ∈ pq (body st) /\ log it = None) \/ EvPrint None ∈ printer (body st).
Proof.
  unfold body, MinPriorityQueue.pop.
  destruct (pq st) as [|item rq] eqn:Hq; [by rewrite Hq|].
  intros [(it & Hit & Hnone)|Hpr].
  - apply elem_of_cons in Hit as [->|Hit].
    + right. rewrite Hnone.
      destruct (drained _); [|destruct (pop _) as [l src]]; sfields;
        apply elem_of_app; right; by left.
    + left. exists it. split; [|done].
      destruct (drained _); [done|]. destruct (pop _) as [l src]. sfields.
      destruct l; [|done]. apply push_elem_of. by right.
  - right. destruct (drained _); [|destruct (pop _) as [l src]]; sfields;
      apply elem_of_app; by left.
Qed.

Lemma loop_prints_false (fuel : nat) (st st' : State) :
  loop fuel st = Some st' ->
  (exists it, it ∈ pq st /\ log it = None) \/ EvPrint None ∈ printer st ->
  EvPrint None ∈ printer st'.
Proof.
  revert st. induction fuel as [|fuel IH]; intros st Hloop Hst; simpl in Hloop.
  - destruct (pq st) eqn:Hq; [|done]. simpl in Hloop. injection Hloop as <-.
    destruct Hst as [(it & Hit & _)|Hpr]; [|done].
    by apply elem_of_nil in Hit.
  - destruct (pq st) eqn:Hq; simpl in Hloop.
    + injection Hloop as <-. destruct Hst as [(it & Hit & _)|Hpr]; [|done].
      by apply elem_of_nil in Hit.
    + eapply IH; [done|]. apply body_keeps_false. by rewrite Hq.
Qed.

(** Whenever one of the sources is empty from the start, the synchronous
    merge passes [false] to [printer.print]. *)
Theorem sync_prints_false (feeds : list (list Entry)) (fuel : nat) (out : list Event) :
  [] ∈ feeds ->
  syncSortedMerge (sourcesOf feeds) fuel = Some out ->
  EvPrint None ∈ out.
Proof.
  intros Hempty. unfold syncSortedMerge.
  destruct (loop fuel _) as [st'|] eqn:Hloop; [|done]. intros [= <-].
  apply elem_of_app. left. eapply loop_prints_false; [done|]. left.
  apply list_elem_of_lookup in Hempty as [k Hk].
  apply (fill_pushes_false _ _ k).
  - unfold start, sourcesOf. sfields. apply lookup_total_Some.
    change (map newLogSource feeds) with (newLogSource <$> feeds).
    by rewrite list_lookup_fmap, Hk.
  - apply elem_of_seq. unfold sourcesOf. rewrite length_map.
    apply lookup_lt_Some in Hk. lia.
Qed.

Lemma sync_run_output (feeds : list (list Entry)) :
  Forall (fun f => f <> []) feeds ->
  exists es,
    syncSortedMerge (sourcesOf feeds) (length (concat feeds))
    = Some (map (fun e => EvPrint (Some e)) es ++ [EvDone])
    /\ es ≡ₚ concat feeds
    /\ (Forall chronological feeds -> chronological es).
Proof.
  intros Hfull. unfold syncSortedMerge.
  assert (Hlen : length (sourcesOf feeds) = length feeds)
    by (unfold sourcesOf; by rewrite length_map).
  rewrite Hlen.
  pose proof (sync_Inv_fill feeds (length feeds) 0 _ Hfull eq_refl
                (sync_Inv_start feeds)) as Hinv.
  set (st := fill (seq 0 (length feeds)) (start (sourcesOf feeds))) in *.
  assert (Hpool : length (pool st) <= length (concat feeds)).
  { rewrite <- (inv_all _ _ _ Hinv), length_app. lia. }
  destruct (sync_loop_finishes feeds _ st Hinv Hpool)
    as (st' & -> & Hinv' & Hq & Hord).
  exists (emitted st'). split_and!.
  - by rewrite (inv_printer _ _ _ Hinv') at 1.
  - pose proof (inv_all _ _ _ Hinv') as Hall.
    by rewrite (sync_pool_empty feeds st' Hinv' Hq), app_nil_r in Hall.
  - intros Hs. apply StronglySorted_Sorted. apply (ord_emitted st'), Hord.
    apply (sync_Ord_fill feeds (length feeds) 0); try done;
      [apply sync_Inv_start|by apply sync_Ord_start].
Qed.

(** X19.  When no source is empty from the start, [length (concat feeds)]
    iterations of the second loop are enough; the printer then has received
    every entry of every feed exactly once, then [done]; the entries are in
    chronological order when those of each source are. *)
Theorem sync_output (feeds : list (list Entry)) :
  Forall (fun f => f <> []) feeds ->
  exists es,
    syncSortedMerge (sourcesOf feeds) (length (concat feeds))
    = Some (map (fun e => EvPrint (Some e)) es ++ [EvDone])
    /\ es ≡ₚ concat feeds
    /\ (Forall chronological feeds -> chronological es).
Proof. apply sync_run_output. Qed.

End SyncFacts.

(** ** The asynchronous merge: the pieces of the loop *)

Import Async.

Lemma findNextLoop_spec (h : list Source) (ls : list nat) (m : option nat) :
  match findNextLoop h ls m with
  | Some s =>
      (s ∈ ls /\ loading (h !!! s) = false
       /\ (bufferCount (h !!! s) = 0%Z \/ forall i, i ∈ ls -> ~ starving h i))
      \/ (m = Some s /\ forall i, i ∈ ls -> ~ starving h i)
  | None => m = None /\ forall i, i ∈ ls -> loading (h !!! i) = true
  end.
Proof.
  revert m. induction ls as [|s ls IH]; intros m; simpl.
  - destruct m; [right|]; split; try done; intros i Hi; by apply elem_of_nil in Hi.
  - destruct (loading (h !!! s)) eqn:Hl.
    { specialize (IH m). destruct (findNextLoop h ls m) as [r|].
      - destruct IH as [(Hin & Hr & Hz)|[Hm Hno]].
        + left. split_and!; [by right|done|].
          destruct Hz as [Hz|Hz]; [by left|right].
          intros i [->|Hi]%elem_of_cons; [|by apply Hz].
          intros [_ Hc]. congruence.
        + right. split; [done|].
          intros i [->|Hi]%elem_of_cons; [|by apply Hno].
          intros [_ Hc]. congruence.
      - destruct IH as [Hm Hall]. split; [done|].
        intros i [->|Hi]%elem_of_cons; [done|by apply Hall]. }
    destruct (bufferCount (h !!! s) =? 0)%Z eqn:Hz.
    { left. split_and!; [by left|done|]. left. by apply Z.eqb_eq. }
    apply Z.eqb_neq in Hz.
    assert (Hnot : ~ starving h s) by (intros [Hc _]; done).
    set (m' := if match m with
                  | Some m0 => (bufferCount (h !!! s) <? bufferCount (h !!! m0))%Z
                  | None => true
                  end then Some s else m).
    assert (Hgo : (if match m with
                  | Some m0 => (bufferCount (h !!! s) <? bufferCount (h !!! m0))%Z
                  | None => true
                  end then findNextLoop h ls (Some s) else findNextLoop h ls m)
                  = findNextLoop h ls m').
    { unfold m'. by destruct (match m with Some _ => _ | None => _ end). }
    rewrite Hgo. specialize (IH m').
    assert (Hm' : m' = Some s \/ m' = m).
    { unfold m'. destruct (match m with Some _ => _ | None => _ end); auto. }
    destruct (findNextLoop h ls m') as [r|].
    + destruct IH as [(Hin & Hr & Hzr)|[Hmr Hno]].
      * left. split_and!; [by right|done|].
        destruct Hzr as [Hzr|Hzr]; [by left|right].
        intros i [->|Hi]%elem_of_cons; [done|by apply Hzr].
      * assert (Hall : forall i, i ∈ s :: ls -> ~ starving h i).
        { intros i [->|Hi]%elem_of_cons; [done|by apply Hno]. }
        destruct Hm' as [Hs|Hsame].
        -- left. rewrite Hs in Hmr. simplify_eq. split_and!; [by left|done|by right].
        -- right. split; [congruence|done].
    + destruct IH as [Hnone _]. exfalso.
      destruct Hm' as [Hs|Hsame]; [congruence|].
      unfold m' in Hnone. destruct m; [|done].
      by destruct (bufferCount (h !!! s) <? bufferCount (h !!! n))%Z.
Qed.

Lemma findNext_Some (h : list Source) (ls : list nat) (s : nat) :
  findNextLogSourceToQueue h ls = Some s ->
  s ∈ ls /\ loading (h !!! s) = false
  /\ (bufferCount (h !!! s) = 0%Z \/ forall i, i ∈ ls -> ~ starving h i).
Proof.
  unfold findNextLogSourceToQueue. intros H.
  pose proof (findNextLoop_spec h ls None) as Hs. rewrite H in Hs.
  destruct Hs as [Hs|[Hc _]]; done.
Qed.

Lemma findNext_None (h : list Source) (ls : list nat) :
  findNextLogSourceToQueue h ls = None ->
  forall i, i ∈ ls -> loading (h !!! i) = true.
Proof.
  unfold findNextLogSourceToQueue. intros H.
  pose proof (findNextLoop_spec h ls None) as Hs. rewrite H in Hs. by destruct Hs.
Qed.

Lemma soonestDue_Some (q : list Promise) (k d : nat) :
  soonestDue q = Some (k, d) -> exists p, q !! k = Some p /\ pending p = true.
Proof.
  revert k d. induction q as [|p q IH]; intros k d H; simpl in H; [done|].
  destruct (soonestDue q) as [[k' d']|] eqn:Hq.
  - destruct (pending p && (due p <=? d')) eqn:Hb; simplify_eq.
    + apply andb_true_iff in Hb as [Hp _]. by exists p.
    + by apply (IH k' d).
  - destruct (pending p) eqn:Hp; simplify_eq. by exists p.
Qed.

Lemma soonestDue_None (q : list Promise) :
  soonestDue q = None -> Forall (fun p => pending p = false) q.
Proof.
  induction q as [|p q IH]; intros H; simpl in H; [by constructor|].
  destruct (soonestDue q) as [[k' d']|] eqn:Hq.
  - by destruct (pending p && (due p <=? d')).
  - destruct (pending p) eqn:Hp; [done|]. constructor; [done|by apply IH].
Qed.

Lemma soonest_Some (q : list Promise) (k : nat) :
  soonest q = Some k -> exists p, q !! k = Some p /\ pending p = true.
Proof.
  unfold soonest. destruct (soonestDue q) as [[k' d]|] eqn:H; intros; simplify_eq/=.
  by eapply soonestDue_Some.
Qed.

Lemma soonest_None (q : list Promise) : soonest q = None -> inFlight q = [].
Proof.
  unfold soonest. destruct (soonestDue q) as [[k' d]|] eqn:H; intros; simplify_eq/=.
  apply soonestDue_None in H. unfold inFlight.
  induction H as [|p q Hp _ IH]; [done|].
  rewrite filter_cons_False; [done|]. congruence.
Qed.

Ltac fields :=
  cbn [heap logSources priorityQueue promiseQueue printer issued pc
       base bufferCount loading id log source owner due pending
       setPc clearPromiseQueue dropDrained printerDone] in *.

Lemma future_popAsync (x : Source) :
  loading x = false ->
  future {| base := popAsync (base x); bufferCount := bufferCount x;
            loading := true; id := id x |} = future x.
Proof.
  intros Hl. unfold future, popAsync, advance, answer. rewrite Hl. fields.
  destruct (base x) as [dr la up]; simpl.
  destruct up as [|e up]; simpl; [by destruct dr|]. by destruct dr.
Qed.

Lemma future_drained (x : Source) : drained (base x) = true -> future x = [].
Proof.
  intros Hd. unfold future, answer. rewrite Hd. by destruct (loading x).
Qed.

Lemma future_loading (x : Source) (e : Entry) :
  loading x = true -> answer (base x) = Some e ->
  future x = e :: upcoming (base x).
Proof.
  intros Hl Ha. unfold future. rewrite Hl, Ha.
  unfold answer in Ha. by destruct (drained (base x)).
Qed.

Lemma future_idle (x : Source) :
  loading x = false ->
  future x = if drained (base x) then [] else upcoming (base x).
Proof. intros Hl. unfold future. by rewrite Hl. Qed.

Lemma residents_push (i : nat) (it : Item) (q : list Item) :
  length (residents i (MinPriorityQueue.push before it q))
  = length (residents i q) + (if decide (source it = i) then 1 else 0).
Proof.
  unfold residents. rewrite push_Permutation, filter_cons.
  destruct (decide (source it = i)); simpl; lia.
Qed.

Lemma inFlight_le (q : list Promise) : length (inFlight q) <= length q.
Proof. apply length_filter. Qed.

Lemma inFlight_all (q : list Promise) :
  Forall (fun p => pending p = true) q -> inFlight q = q.
Proof.
  induction 1 as [|p q Hp _ IH]; [done|].
  unfold inFlight in *. by rewrite filter_cons_True, IH.
Qed.

Lemma inFlight_app (q : list Promise) (p : Promise) :
  pending p = true -> inFlight (q ++ [p]) = inFlight q ++ [p].
Proof.
  intros Hp. unfold inFlight. by rewrite filter_app, (filter_cons_True _ p).
Qed.

Lemma fetching_app (i : nat) (q : list Promise) (p : Promise) :
  pending p = true ->
  length (fetching i (q ++ [p]))
  = length (fetching i q) + (if decide (owner p = i) then 1 else 0).
Proof.
  intros Hp. unfold fetching. rewrite inFlight_app by done.
  rewrite filter_app, length_app, filter_cons, filter_nil.
  by destruct (decide (owner p = i)).
Qed.

Lemma inFlight_fulfil (q : list Promise) (k : nat) (p : Promise) :
  q !! k = Some p -> pending p = true ->
  S (length (inFlight (alter fulfil k q))) = length (inFlight q).
Proof.
  intros Hk Hp. destruct (alter_split fulfil _ _ _ Hk) as (l1 & l2 & -> & _ & ->).
  unfold inFlight. rewrite !filter_app, !length_app.
  rewrite (filter_cons_True _ p), (filter_cons_False _ (fulfil p)) by done.
  simpl. lia.
Qed.

Lemma fetching_fulfil (i : nat) (q : list Promise) (k : nat) (p : Promise) :
  q !! k = Some p -> pending p = true ->
  length (fetching i (alter fulfil k q)) + (if decide (owner p = i) then 1 else 0)
  = length (fetching i q).
Proof.
  intros Hk Hp. destruct (alter_split fulfil _ _ _ Hk) as (l1 & l2 & -> & _ & ->).
  unfold fetching, inFlight. rewrite !filter_app, !length_app.
  rewrite (filter_cons_True _ p), (filter_cons_False _ (fulfil p)) by done.
  rewrite filter_cons. destruct (decide (owner p = i)); simpl; lia.
Qed.

Lemma fetching_elem (i : nat) (q : list Promise) (p : Promise) :
  p ∈ q -> pending p = true -> owner p = i -> 0 < length (fetching i q).
Proof.
  intros Hin Hp Ho.
  assert (p ∈ fetching i q) as Hf.
  { unfold fetching, inFlight. rewrite !list_elem_of_filter. done. }
  destruct (fetching i q); [by apply elem_of_nil in Hf|simpl; lia].
Qed.

Lemma residents_elem (i : nat) (q : list Item) :
  0 < length (residents i q) -> exists it, it ∈ q /\ source it = i.
Proof.
  unfold residents. intros H.
  destruct (filter _ q) as [|it r] eqn:Hf; [simpl in H; lia|].
  assert (it ∈ filter (fun it => source it = i) q) as Hin by (rewrite Hf; by left).
  apply list_elem_of_filter in Hin as [? ?]. eauto.
Qed.

Lemma filter_filter_le (P : nat -> Prop) (Q : nat -> Prop)
    {decP : forall i, Decision (P i)} {decQ : forall i, Decision (Q i)} (ls : list nat) :
  length (filter Q (filter P ls)) <= length (filter Q ls).
Proof.
  induction ls as [|i ls IH]; [done|].
  rewrite (filter_cons P). destruct (decide (P i)).
  - rewrite !filter_cons. destruct (decide (Q i)); simpl; lia.
  - rewrite filter_cons. destruct (decide (Q i)); simpl; lia.
Qed.

Section CoreSteps.
Variable delay : nat -> nat.
Variable feeds : list (list Entry).

Lemma Core_queueLogFromSource (st : State) (s : nat) :
  Core feeds st ->
  s ∈ logSources st ->
  loading (heap st !!! s) = false ->
  (bufferCount (heap st !!! s) = 0%Z
   \/ forall i, i ∈ logSources st -> ~ starving (heap st) i) ->
  length (priorityQueue st) + length (promiseQueue st) < length feeds * 10 ->
  Core feeds (queueLogFromSource delay s st).
Proof.
  intros [Hh Hs Hnd Hit Hpr Hc Hl Hr Hroom Hall] Hin Hload Hz Hfull.
  assert (Hlt : s < length (heap st)). { rewrite Forall_forall in Hs. by apply Hs. }
  destruct (lookup_lt_is_Some_2 _ _ Hlt) as [x Hx].
  pose proof (lookup_total_Some _ _ _ Hx) as Hxt. rewrite Hxt in *.
  unfold queueLogFromSource. constructor; fields.
  - by rewrite length_alter.
  - by rewrite length_alter.
  - done.
  - by rewrite length_alter.
  - rewrite length_alter. apply Forall_app; split; [done|]. by constructor.
  - intros i y Hy.
    apply lookup_alter_Some in Hy as [[-> (x' & Hx' & ->)]|[Hne Hy]]; fields; eauto.
  - intros i y Hy. rewrite fetching_app by done. fields.
    apply lookup_alter_Some in Hy as [[-> (x' & Hx' & ->)]|[Hne Hy]]; fields.
    + rewrite decide_True by done. simplify_eq.
      specialize (Hl _ _ Hx). rewrite Hload in Hl. lia.
    + rewrite decide_False by done. rewrite Nat.add_0_r. eauto.
  - intros i y Hy Hni.
    apply lookup_alter_Some in Hy as [[-> _]|[Hne Hy]]; [done|eauto].
  - rewrite inFlight_app, length_app by done. simpl.
    pose proof (inFlight_le (promiseQueue st)) as Hle.
    set (h' := alter _ s (heap st)).
    assert (Hother : forall i, i <> s -> h' !!! i = heap st !!! i).
    { intros i Hi. unfold h'. by rewrite list_lookup_total_alter_ne. }
    assert (Hnot : ~ starving h' s).
    { unfold starving, h'. rewrite list_lookup_total_alter_eq by done.
      fields. intros [_ ?]. done. }
    assert (Hsub : forall i, i ∈ logSources st -> i <> s ->
                     starving h' i -> starving (heap st) i).
    { intros i _ Hi. unfold starving. by rewrite Hother. }
    destruct Hz as [Hz|Hz].
    + assert (S (length (filter (starving h') (logSources st)))
              <= length (filter (starving (heap st)) (logSources st))).
      { apply (count_down_one _ _ _ s); try done. split; by rewrite Hxt. }
      lia.
    + assert (length (filter (starving h') (logSources st))
              <= length (filter (starving (heap st)) (logSources st))).
      { apply count_le. intros i Hi Hst. destruct (decide (i = s)) as [->|Hne]; [done|].
        by apply Hsub. }
      assert (length (filter (starving (heap st)) (logSources st)) = 0).
      { destruct (filter _ (logSources st)) as [|i r] eqn:Hf; [done|].
        assert (i ∈ filter (starving (heap st)) (logSources st)) as Hi
          by (rewrite Hf; by left).
        apply list_elem_of_filter in Hi as [? ?]. exfalso. by eapply Hz. }
      lia.
  - unfold pool, emitted in *. fields.
    rewrite concat_alter_same; [done|].
    intros x' Hx'. assert (x' = x) as -> by congruence. by apply future_popAsync.
Qed.

Lemma Core_settle (st : State) (k : nat) (p : Promise) :
  Core feeds st ->
  promiseQueue st !! k = Some p -> pending p = true ->
  Core feeds (settle k st).
Proof.
  intros [Hh Hs Hnd Hit Hpr Hc Hl Hr Hroom Hall] Hk Hp.
  assert (Hlt : owner p < length (heap st)).
  { rewrite Forall_forall in Hpr. apply Hpr. by eapply list_elem_of_lookup_2. }
  destruct (lookup_lt_is_Some_2 _ _ Hlt) as [x Hx].
  pose proof (lookup_total_Some _ _ _ Hx) as Hxt.
  assert (Hload : loading x = true).
  { specialize (Hl _ _ Hx).
    pose proof (fetching_elem (owner p) _ p (list_elem_of_lookup_2 _ _ _ Hk) Hp eq_refl).
    destruct (loading x); [done|lia]. }
  pose proof (Hc _ _ Hx) as Hcx.
  pose proof (inFlight_fulfil _ _ _ Hk Hp) as Hif.
  unfold settle. rewrite Hk, Hxt.
  destruct (answer (base x)) as [e|] eqn:Ha; constructor; fields;
    rewrite ?length_alter; try done.
  - apply Forall_forall. intros it [->|Hin]%push_elem_of; fields; [done|].
    rewrite Forall_forall in Hit. by apply Hit.
  - apply Forall_forall. intros q Hq.
    apply list_elem_of_lookup in Hq as [j Hj].
    apply lookup_alter_Some in Hj as [[-> (q' & Hq' & ->)]|[Hne Hj]]; fields.
    + simplify_eq. done.
    + rewrite Forall_forall in Hpr. apply Hpr. by eapply list_elem_of_lookup_2.
  - intros i y Hy. rewrite residents_push. fields.
    apply lookup_alter_Some in Hy as [[-> (x' & Hx' & ->)]|[Hne Hy]]; fields.
    + simplify_eq. rewrite decide_True by done. rewrite Hcx. lia.
    + rewrite decide_False by done. rewrite Nat.add_0_r. eauto.
  - intros i y Hy. pose proof (fetching_fulfil i _ _ _ Hk Hp) as Hf.
    apply lookup_alter_Some in Hy as [[-> (x' & Hx' & ->)]|[Hne Hy]]; fields.
    + simplify_eq. rewrite decide_True in Hf by done.
      specialize (Hl _ _ Hx). rewrite Hload in Hl. lia.
    + rewrite decide_False in Hf by done. rewrite <- (Hl _ _ Hy). lia.
  - intros i y Hy Hni.
    apply lookup_alter_Some in Hy as [[-> (x' & Hx' & ->)]|[Hne Hy]]; fields; eauto.
  - rewrite push_length.
    set (h' := alter _ (owner p) (heap st)).
    assert (length (filter (starving h') (logSources st))
            <= length (filter (starving (heap st)) (logSources st))).
    { apply count_le. intros i Hi. unfold starving, h'.
      destruct (decide (i = owner p)) as [->|Hne].
      - rewrite list_lookup_total_alter_eq by done. rewrite Hxt. fields.
        intros [? _]. lia.
      - by rewrite list_lookup_total_alter_ne. }
    lia.
  - unfold pool, emitted in *. fields.
    destruct (concat_alter future
                (fun src => {| base := base src; bufferCount := bufferCount src + 1;
                               loading := false; id := id src |})
                _ _ _ Hx) as (b & a & Hb & Ha'). rewrite Ha'.
    rewrite Hb in Hall. rewrite (future_loading _ e) in Hall by done.
    rewrite <- Hall. apply Permutation_app_head.
    rewrite push_Permutation. rewrite future_idle by done. fields.
    assert (drained (base x) = false) as ->.
    { unfold answer in Ha. by destruct (drained (base x)). }
    simpl. rewrite (app_assoc (map log (priorityQueue st)) b (e :: _)).
    rewrite <- Permutation_middle. by rewrite <- app_assoc.
  - apply Forall_forall. intros q Hq.
    apply list_elem_of_lookup in Hq as [j Hj].
    apply lookup_alter_Some in Hj as [[-> (q' & Hq' & ->)]|[Hne Hj]]; fields.
    + simplify_eq. done.
    + rewrite Forall_forall in Hpr. apply Hpr. by eapply list_elem_of_lookup_2.
  - intros i y Hy.
    apply lookup_alter_Some in Hy as [[-> (x' & Hx' & ->)]|[Hne Hy]]; fields; eauto.
  - intros i y Hy. pose proof (fetching_fulfil i _ _ _ Hk Hp) as Hf.
    apply lookup_alter_Some in Hy as [[-> (x' & Hx' & ->)]|[Hne Hy]]; fields.
    + simplify_eq. rewrite decide_True in Hf by done.
      specialize (Hl _ _ Hx). rewrite Hload in Hl. lia.
    + rewrite decide_False in Hf by done. rewrite <- (Hl _ _ Hy). lia.
  - intros i y Hy Hni.
    apply lookup_alter_Some in Hy as [[-> (x' & Hx' & ->)]|[Hne Hy]]; fields; eauto.
  - set (h' := alter _ (owner p) (heap st)).
    assert (length (filter (starving h') (logSources st))
            <= S (length (filter (starving (heap st)) (logSources st)))).
    { apply (count_up_one _ _ _ (owner p)); [done|].
      intros i _ Hne. unfold starving, h'.
      by rewrite list_lookup_total_alter_ne. }
    lia.
  - unfold pool, emitted in *. fields.
    rewrite concat_alter_same; [done|].
    intros x' Hx'. assert (x' = x) as -> by congruence.
    assert (drained (base x) = true) as Hd.
    { unfold answer in Ha. by destruct (drained (base x)). }
    rewrite (future_drained x) by done. by apply future_drained.
Qed.
End CoreSteps.

Section CoreSteps2.
Variable feeds : list (list Entry).

Lemma future_count (x : Source) (n : Z) :
  future {| base := base x; bufferCount := n; loading := loading x; id := id x |}
  = future x.
Proof. done. Qed.

Lemma Core_printNext (st st' : State) :
  Core feeds st -> printNextLogFromQueue st = Ok st' -> Core feeds st'.
Proof.
  intros [Hh Hs Hnd Hit Hpr Hc Hl Hr Hroom Hall] H.
  unfold printNextLogFromQueue, MinPriorityQueue.pop in H.
  destruct (priorityQueue st) as [|item rest] eqn:Hq; [done|].
  injection H as <-. apply Forall_cons in Hit as [Hitem Hit].
  constructor; fields; rewrite ?length_alter; try done.
  - intros i y Hy.
    apply lookup_alter_Some in Hy as [[-> (x & Hx & ->)]|[Hne Hy]]; fields.
    + rewrite (Hc _ _ Hx). unfold residents. rewrite filter_cons_True by done.
      simpl. lia.
    + rewrite (Hc _ _ Hy). unfold residents. by rewrite filter_cons_False.
  - intros i y Hy.
    apply lookup_alter_Some in Hy as [[-> (x & Hx & ->)]|[Hne Hy]]; fields; eauto.
  - intros i y Hy Hni.
    apply lookup_alter_Some in Hy as [[-> (x & Hx & ->)]|[Hne Hy]]; fields; eauto.
  - set (h' := alter _ (source item) (heap st)).
    assert (length (filter (starving h') (logSources st))
            <= S (length (filter (starving (heap st)) (logSources st)))).
    { apply (count_up_one _ _ _ (source item)); [done|].
      intros i _ Hne. unfold starving, h'.
      by rewrite list_lookup_total_alter_ne. }
    simpl in Hroom. lia.
  - unfold pool, emitted in *. fields. rewrite omap_app. simpl.
    rewrite concat_alter_same by (intros; apply future_count).
    rewrite Hq in Hall. simpl in Hall. by rewrite <- app_assoc.
Qed.

Lemma Core_dropDrained (st : State) : Core feeds st -> Core feeds (dropDrained st).
Proof.
  intros [Hh Hs Hnd Hit Hpr Hc Hl Hr Hroom Hall].
  unfold dropDrained. constructor; fields; try done.
  - rewrite Forall_forall in *. intros i [_ Hi]%list_elem_of_filter. by apply Hs.
  - by apply NoDup_filter.
  - intros i s Hi Hni. destruct (decide (i ∈ logSources st)) as [Hin|Hout]; [|eauto].
    destruct (drained (base s)) eqn:Hd; [done|]. exfalso. apply Hni.
    apply list_elem_of_filter. split; [|done].
    by rewrite (lookup_total_Some _ _ _ Hi).
  - pose proof (filter_filter_le
                  (fun s => drained (base (heap st !!! s)) = false)
                  (starving (heap st)) (logSources st)).
    lia.
Qed.

Lemma Core_clearPromiseQueue (st : State) :
  Core feeds st -> inFlight (promiseQueue st) = [] -> Core feeds (clearPromiseQueue st).
Proof.
  intros [Hh Hs Hnd Hit Hpr Hc Hl Hr Hroom Hall] Hnone.
  unfold clearPromiseQueue. constructor; fields; try done.
  - intros i s Hi. specialize (Hl _ _ Hi). unfold fetching in Hl.
    rewrite Hnone in Hl. done.
  - rewrite Hnone in Hroom. done.
Qed.

Lemma Core_setPc (p : Pc) (st : State) : Core feeds st -> Core feeds (setPc p st).
Proof. intros []. by constructor. Qed.

Lemma Core_printerDone (st : State) : Core feeds st -> Core feeds (printerDone st).
Proof.
  intros [Hh Hs Hnd Hit Hpr Hc Hl Hr Hroom Hall].
  unfold printerDone. constructor; fields; try done.
  unfold pool, emitted in *. fields. rewrite omap_app. simpl.
  by rewrite app_nil_r.
Qed.
End CoreSteps2.

(** ** The asynchronous merge: every state of a run *)

Section Invariant.
Variable delay : nat -> nat.
Variable feeds : list (list Entry).

Local Abbreviation MAX := (length feeds * 10).

Lemma PrinterLog_running (st st' : State) :
  PrinterLog st -> pc st <> Finished -> pc st' <> Finished ->
  printer st' = printer st -> PrinterLog st'.
Proof.
  unfold PrinterLog, emitted. intros H Hpc Hpc' ->.
  rewrite H at 1. destruct (pc st); destruct (pc st'); try done.
Qed.

Lemma Inv_dispatch (st1 : State) (x fullPromiseQueue y : bool) :
  Core feeds st1 ->
  PrinterLog st1 -> pc st1 = LoopHead ->
  Forall (fun p => pending p = true) (promiseQueue st1) ->
  length (promiseQueue st1) <= 51 ->
  (fullPromiseQueue = false -> length (promiseQueue st1) <= 50) ->
  (logSources st1 = [] -> priorityQueue st1 <> []) ->
  Inv feeds (if (0 <? length (promiseQueue st1)) && (x || fullPromiseQueue || y)
             then setPc Awaiting st1 else setPc Gate st1).
Proof.
  intros Hcore Hpl Hpc Hpend Hlen Hfp Hne.
  destruct ((0 <? length (promiseQueue st1)) && (x || fullPromiseQueue || y)) eqn:Hc.
  - apply andb_true_iff in Hc as [Hpos _]. apply Nat.ltb_lt in Hpos.
    split; [by apply Core_setPc| |].
    + unfold AtPc. fields. split_and!; try done.
      intros Heq. rewrite Heq in Hpos. simpl in Hpos. lia.
    + apply (PrinterLog_running st1); fields; try done. by rewrite Hpc.
  - split; [by apply Core_setPc| |].
    + unfold AtPc. fields. split_and!; try done.
      apply andb_false_iff in Hc as [Hc|Hc].
      * apply Nat.ltb_ge in Hc. lia.
      * apply Hfp. destruct fullPromiseQueue; [|done].
        by rewrite orb_true_r in Hc.
    + apply (PrinterLog_running st1); fields; try done. by rewrite Hpc.
Qed.

Lemma continueLoop_true (ls : list nat) (q : list Item) :
  continueLoop ls q = true -> ls = [] -> q <> [].
Proof.
  unfold continueLoop, MinPriorityQueue.size. intros H -> ->. done.
Qed.

Lemma continueLoop_false (ls : list nat) (q : list Item) :
  continueLoop ls q = false -> ls = [] /\ q = [].
Proof.
  unfold continueLoop, MinPriorityQueue.size. intros H.
  apply orb_false_iff in H as [H1 H2].
  split; [by destruct ls|by destruct q].
Qed.

Lemma Inv_LoopHead (st : State) :
  Inv feeds st -> pc st = LoopHead -> Inv feeds (step delay MAX st).
Proof.
  intros [Hcore Hat Hpl] Hpc. unfold AtPc in Hat. rewrite Hpc in Hat.
  destruct Hat as (Hpend & Hlive & Hlen).
  unfold step. rewrite Hpc.
  destruct (continueLoop _ _) eqn:Hcont.
  2: { apply continueLoop_false in Hcont as [Hls Hq].
       split.
       - by apply Core_setPc, Core_printerDone.
       - unfold AtPc. by fields.
       - unfold PrinterLog, emitted in *. fields. rewrite omap_app. simpl.
         rewrite app_nil_r. rewrite Hpl at 1. by rewrite Hpc, app_nil_r. }
  pose proof (core_room _ _ Hcore) as Hroom.
  pose proof (inFlight_all _ Hpend) as Hall.
  unfold priorityQueueIsFull, MinPriorityQueue.size.
  destruct (MAX <? length (priorityQueue st)) eqn:Hover.
  { apply Nat.ltb_lt in Hover. lia. }
  destruct (MAX <=? length (priorityQueue st) + length (promiseQueue st)) eqn:Hfull.
  { apply Inv_dispatch;
      [done|done|done|done|lia|intros; lia|by apply continueLoop_true]. }
  apply Nat.leb_gt in Hfull.
  unfold addNextLogToQueue.
  destruct (findNextLogSourceToQueue _ _) as [s|] eqn:Hfind.
  - apply findNext_Some in Hfind as (Hin & Hload & Hz).
    apply Inv_dispatch.
    + by apply Core_queueLogFromSource.
    + apply (PrinterLog_running st); unfold queueLogFromSource; fields;
        try done; by rewrite Hpc.
    + done.
    + unfold queueLogFromSource; fields.
      apply Forall_app. split; [done|]. by constructor.
    + unfold queueLogFromSource; fields. rewrite length_app. simpl. lia.
    + unfold queueLogFromSource, promiseQueueIsFull; fields.
      intros Hfp%Nat.leb_gt. rewrite length_app. simpl. lia.
    + unfold queueLogFromSource; fields. by apply continueLoop_true.
  - apply Inv_dispatch;
      [done|done|done|done|lia|intros; lia|by apply continueLoop_true].
Qed.

Lemma Inv_Awaiting (st : State) :
  Inv feeds st -> pc st = Awaiting -> Inv feeds (step delay MAX st).
Proof.
  intros [Hcore Hat Hpl] Hpc. unfold AtPc in Hat. rewrite Hpc in Hat.
  destruct Hat as (Hne & Hlen & Hq).
  unfold step. rewrite Hpc.
  destruct (soonest (promiseQueue st)) as [k|] eqn:Hsoon.
  - apply soonest_Some in Hsoon as (p & Hk & Hp).
    split; [by eapply Core_settle| |].
    + unfold AtPc, settle. rewrite Hk.
      destruct (answer _); fields; rewrite Hpc, length_alter; split_and!; try done.
      * intros Heq. apply (f_equal length) in Heq. rewrite length_alter in Heq.
        destruct (promiseQueue st); done.
      * intros _ Heq. apply (f_equal length) in Heq.
        rewrite push_length in Heq. done.
      * intros Heq. apply (f_equal length) in Heq. rewrite length_alter in Heq.
        destruct (promiseQueue st); done.
    + apply (PrinterLog_running st); [done|by rewrite Hpc|..];
        unfold settle; rewrite Hk; destruct (answer _); fields; by rewrite ?Hpc.
  - apply soonest_None in Hsoon.
    split; [by apply Core_setPc, Core_clearPromiseQueue| |].
    + unfold AtPc. fields. split_and!; [done|simpl; lia|done].
    + apply (PrinterLog_running st); fields; try done. by rewrite Hpc.
Qed.

Lemma gate_open_nonempty (st : State) :
  Core feeds st ->
  (logSources st = [] -> priorityQueue st <> []) ->
  allSourcesHaveBeenRead (heap st) (logSources st) = true ->
  priorityQueue st <> [].
Proof.
  intros Hcore Hq Hgate. destruct (logSources st) as [|i ls] eqn:Hls; [by apply Hq|].
  simpl in Hgate. apply andb_true_iff in Hgate as [Hi _]. apply Z.ltb_lt in Hi.
  pose proof (core_sources _ _ Hcore) as Hs. rewrite Hls in Hs.
  apply Forall_cons in Hs as [Hlt _].
  destruct (lookup_lt_is_Some_2 _ _ Hlt) as [x Hx].
  rewrite (lookup_total_Some _ _ _ Hx) in Hi.
  rewrite (core_count _ _ Hcore _ _ Hx) in Hi.
  intros Heq. rewrite Heq in Hi. simpl in Hi. lia.
Qed.

Lemma Inv_Gate (st : State) :
  Inv feeds st -> pc st = Gate -> Inv feeds (step delay MAX st).
Proof.
  intros [Hcore Hat Hpl] Hpc. unfold AtPc in Hat. rewrite Hpc in Hat.
  destruct Hat as (Hpend & Hlen & Hq).
  unfold step. rewrite Hpc.
  destruct (allSourcesHaveBeenRead _ _) eqn:Hgate.
  - pose proof (gate_open_nonempty _ Hcore Hq Hgate) as Hne.
    destruct (printNextLogFromQueue st) as [st'|why] eqn:Hprint.
    2: { unfold printNextLogFromQueue, MinPriorityQueue.pop in Hprint.
         destruct (priorityQueue st) as [|[]]; done. }
    split; [by eapply Core_setPc, Core_printNext| |].
    + unfold printNextLogFromQueue, MinPriorityQueue.pop in Hprint.
      destruct (priorityQueue st) as [|item rest]; [done|].
      injection Hprint as <-. unfold AtPc. by fields.
    + unfold printNextLogFromQueue, MinPriorityQueue.pop in Hprint.
      destruct (priorityQueue st) as [|item rest]; [done|].
      injection Hprint as <-. unfold PrinterLog, emitted in *. fields.
      rewrite omap_app, map_app. simpl. rewrite app_nil_r.
      rewrite Hpl at 1. by rewrite Hpc, app_nil_r.
  - split; [by apply Core_setPc| |].
    + unfold AtPc. by fields.
    + apply (PrinterLog_running st); fields; try done. by rewrite Hpc.
Qed.

Lemma Inv_Filter (st : State) :
  Inv feeds st -> pc st = Filter -> Inv feeds (step delay MAX st).
Proof.
  intros [Hcore Hat Hpl] Hpc. unfold AtPc in Hat. rewrite Hpc in Hat.
  destruct Hat as (Hpend & Hlen).
  unfold step. rewrite Hpc.
  split; [by apply Core_setPc, Core_dropDrained| |].
  - unfold AtPc, dropDrained. fields. split_and!; try done.
    apply Forall_forall. by intros i [Hd _]%list_elem_of_filter.
  - apply (PrinterLog_running st); unfold dropDrained; fields; try done.
    by rewrite Hpc.
Qed.

Lemma Inv_step (st : State) : Inv feeds st -> Inv feeds (step delay MAX st).
Proof.
  intros Hinv. destruct (pc st) eqn:Hpc.
  - by apply Inv_LoopHead.
  - by apply Inv_Awaiting.
  - by apply Inv_Gate.
  - by apply Inv_Filter.
  - unfold step. by rewrite Hpc.
  - unfold step. by rewrite Hpc.
Qed.
End Invariant.

Section Run.
Variable delay : nat -> nat.
Variable feeds : list (list Entry).

Lemma start_lookup (i : nat) (s : Source) :
  heap (start (sourcesOf feeds)) !! i = Some s ->
  exists feed, feeds !! i = Some feed
    /\ s = {| base := newLogSource feed; bufferCount := 0; loading := false;
              id := i + 1 |}.
Proof.
  unfold start, initializeSources, sourcesOf. fields.
  rewrite list_lookup_imap, list_lookup_fmap.
  destruct (feeds !! i) as [feed|]; simpl; [|done].
  intros [= <-]. eauto.
Qed.

Lemma start_length : length (heap (start (sourcesOf feeds))) = length feeds.
Proof.
  unfold start, initializeSources, sourcesOf. fields.
  by rewrite length_imap, length_map.
Qed.

Lemma start_future : map future (heap (start (sourcesOf feeds))) = feeds.
Proof.
  apply list_eq. intros i. rewrite list_lookup_fmap.
  destruct (heap (start (sourcesOf feeds)) !! i) as [s|] eqn:Hs.
  - apply start_lookup in Hs as (feed & Hf & ->). by rewrite Hf.
  - apply lookup_ge_None in Hs. rewrite start_length in Hs.
    symmetry. by apply lookup_ge_None.
Qed.

Lemma Inv_start : Inv feeds (start (sourcesOf feeds)).
Proof.
  pose proof start_length as Hlen. pose proof start_future as Hfut.
  assert (Hseq : logSources (start (sourcesOf feeds)) = seq 0 (length feeds)).
  { unfold start, sourcesOf. fields. by rewrite length_map. }
  split; [constructor| |].
  - done.
  - rewrite Hseq, Hlen. apply Forall_seq. intros; lia.
  - rewrite Hseq. apply NoDup_seq.
  - by constructor.
  - by constructor.
  - intros i s (feed & _ & ->)%start_lookup. done.
  - intros i s (feed & _ & ->)%start_lookup. done.
  - intros i s Hs Hni. exfalso. apply Hni. rewrite Hseq. apply elem_of_seq.
    apply lookup_lt_Some in Hs. rewrite Hlen in Hs. lia.
  - rewrite Hseq.
    pose proof (length_filter (starving (heap (start (sourcesOf feeds))))
                  (seq 0 (length feeds))) as Hf.
    rewrite length_seq in Hf.
    change (length (priorityQueue (start (sourcesOf feeds)))) with 0.
    change (length (inFlight (promiseQueue (start (sourcesOf feeds))))) with 0.
    lia.
  - unfold pool. rewrite Hfut. done.
  - unfold AtPc. simpl. split_and!; [by constructor| |lia].
    apply Forall_forall. intros i Hi.
    unfold sourcesOf in Hi. rewrite length_map in Hi. apply elem_of_seq in Hi.
    assert (i < length (heap (start (sourcesOf feeds)))) as Hlt by (rewrite Hlen; lia).
    destruct (lookup_lt_is_Some_2 _ _ Hlt) as [s Hs].
    change (initializeSources (sourcesOf feeds)) with (heap (start (sourcesOf feeds))).
    rewrite (lookup_total_Some _ _ _ Hs).
    by apply start_lookup in Hs as (feed & _ & ->).
  - done.
Qed.

Lemma Inv_run (n : nat) (st : State) :
  Inv feeds st -> Inv feeds (run delay (length feeds * 10) n st).
Proof.
  revert st. induction n as [|n IH]; intros st Hinv; [done|].
  simpl. by apply IH, Inv_step.
Qed.

Lemma Inv_asyncSortedMerge (n : nat) : Inv feeds (asyncSortedMerge delay feeds n).
Proof. apply Inv_run, Inv_start. Qed.
End Run.

(** ** The asynchronous merge: progress *)

Section Progress.
Variable delay : nat -> nat.
Variable feeds : list (list Entry).

Local Abbreviation MAX := (length feeds * 10).

Lemma sum_alter_same {A} (g : A -> nat) (f : A -> A) (l : list A) (k : nat) :
  (forall x, g (f x) = g x) ->
  sum_list_with g (alter f k l) = sum_list_with g l.
Proof.
  intros Hg. destruct (l !! k) as [x|] eqn:Hk.
  - pose proof (sum_alter g f _ _ _ Hk) as H. rewrite Hg in H. lia.
  - by rewrite alter_out_of_range.
Qed.

Lemma potential_queueLogFromSource (st : State) (s : nat) (x : Source) :
  heap st !! s = Some x -> drained (base x) = false ->
  S (potential (queueLogFromSource delay s st)) = potential st.
Proof.
  intros Hx Hd. unfold potential, queueLogFromSource. fields.
  pose proof (sum_alter fetchesLeft
    (fun src => {| base := popAsync (base src); bufferCount := bufferCount src;
                   loading := true; id := id src |}) _ _ _ Hx) as Hsum.
  assert (S (fetchesLeft {| base := popAsync (base x); bufferCount := bufferCount x;
                           loading := true; id := id x |}) = fetchesLeft x) as Hf.
  { unfold fetchesLeft, popAsync, advance. fields. rewrite Hd.
    destruct (upcoming (base x)); simpl; by rewrite ?Hd. }
  unfold inFlight. rewrite filter_app, !length_app, (filter_cons_True _ _ []) by done.
  simpl. fold (inFlight (promiseQueue st)). lia.
Qed.

Lemma potential_settle (st : State) (k : nat) (p : Promise) :
  promiseQueue st !! k = Some p -> pending p = true ->
  potential (settle k st) < potential st.
Proof.
  intros Hk Hp. pose proof (inFlight_fulfil _ _ _ Hk Hp) as Hif.
  unfold potential, settle. rewrite Hk.
  destruct (answer _); fields; rewrite length_alter, ?push_length;
    rewrite sum_alter_same by done; lia.
Qed.

Lemma potential_printNext (st st' : State) :
  printNextLogFromQueue st = Ok st' -> S (potential st') = potential st.
Proof.
  unfold printNextLogFromQueue, MinPriorityQueue.pop. intros H.
  destruct (priorityQueue st) as [|item rest] eqn:Hq; [done|].
  injection H as <-. unfold potential. fields.
  rewrite sum_alter_same by done. rewrite Hq. simpl. lia.
Qed.

(** When nothing is in flight and no fetch can be issued, the gate is open. *)
Lemma gate_open_when_idle (st : State) :
  Core feeds st ->
  promiseQueue st = [] ->
  MAX <= length (priorityQueue st)
  \/ findNextLogSourceToQueue (heap st) (logSources st) = None ->
  allSourcesHaveBeenRead (heap st) (logSources st) = true.
Proof.
  intros Hcore Hnone Hcase. unfold allSourcesHaveBeenRead.
  apply forallb_forall. intros i Hi%list_elem_of_In.
  pose proof (core_sources _ _ Hcore) as Hs. rewrite Forall_forall in Hs.
  destruct (lookup_lt_is_Some_2 _ _ (Hs _ Hi)) as [x Hx].
  rewrite (lookup_total_Some _ _ _ Hx).
  pose proof (core_loading _ _ Hcore _ _ Hx) as Hl. rewrite Hnone in Hl.
  assert (loading x = false) as Hload by (destruct (loading x); done).
  destruct Hcase as [Hfull|Hfind].
  - pose proof (core_room _ _ Hcore) as Hroom. rewrite Hnone in Hroom.
    assert (~ starving (heap st) i) as Hnot.
    { intros Hst.
      assert (i ∈ filter (starving (heap st)) (logSources st)) as Hin
        by (by apply list_elem_of_filter).
      destruct (filter (starving (heap st)) (logSources st));
        [by apply elem_of_nil in Hin|]. simpl in Hroom. lia. }
    apply Z.ltb_lt. pose proof (core_count _ _ Hcore _ _ Hx) as Hc.
    assert (bufferCount x <> 0%Z).
    { intros Hz. apply Hnot. split; by rewrite (lookup_total_Some _ _ _ Hx). }
    lia.
  - pose proof (findNext_None _ _ Hfind _ Hi) as Hc.
    rewrite (lookup_total_Some _ _ _ Hx) in Hc. congruence.
Qed.

Lemma measure_step (st : State) :
  Inv feeds st -> pc st <> Finished ->
  measure (step delay MAX st) < measure st.
Proof.
  intros Hinv Hrun. pose proof (Inv_step delay _ _ Hinv) as Hnext.
  destruct Hinv as [Hcore Hat Hpl]. unfold AtPc in Hat.
  unfold measure, rank at 2.
  destruct (pc st) eqn:Hpc; [| | | |done|done].
  - (* loop head *)
    destruct Hat as (Hpend & Hlive & Hlen).
    revert Hnext. unfold step. rewrite Hpc.
    destruct (continueLoop _ _) eqn:Hcont;
      [|intros _; unfold rank, potential; fields; lia].
    unfold priorityQueueIsFull, MinPriorityQueue.size.
    destruct (MAX <? length (priorityQueue st)) eqn:Hover.
    { intros [_ Hc _]. unfold AtPc in Hc. by fields. }
    assert (Hrank : forall st1 (c : bool),
               rank (if c then setPc Awaiting st1 else setPc Gate st1) <= 5).
    { intros st1 []; unfold rank; fields; [lia|]. destruct (allSourcesHaveBeenRead _ _); lia. }
    destruct (MAX <=? length (priorityQueue st) + length (promiseQueue st)) eqn:Hfull.
    { intros _. destruct (promiseQueue st) as [|p q] eqn:Hq.
      - simpl. unfold rank. fields.
        rewrite gate_open_when_idle; [unfold potential; fields; lia|done|done|].
        left. apply Nat.leb_le in Hfull. simpl in Hfull. lia.
      - simpl. unfold rank. fields. unfold potential. fields. lia. }
    unfold addNextLogToQueue.
    destruct (findNextLogSourceToQueue _ _) as [s|] eqn:Hfind.
    + intros _. apply findNext_Some in Hfind as (Hin & Hload & Hz).
      pose proof (core_sources _ _ Hcore) as Hs. rewrite Forall_forall in Hs.
      destruct (lookup_lt_is_Some_2 _ _ (Hs _ Hin)) as [x Hx].
      rewrite Forall_forall in Hlive. pose proof (Hlive _ Hin) as Hd.
      rewrite (lookup_total_Some _ _ _ Hx) in Hd.
      pose proof (potential_queueLogFromSource st s x Hx Hd) as Hpot.
      match goal with |- context [rank (if ?c then _ else _)] =>
        pose proof (Hrank (queueLogFromSource delay s st) c) as Hr;
        destruct c end; unfold potential in *; fields; lia.
    + intros _. destruct (promiseQueue st) as [|p q] eqn:Hq.
      * simpl. unfold rank. fields.
        rewrite gate_open_when_idle; [unfold potential; fields; lia|done|done|].
        by right.
      * assert (allSourcesAreLoading (heap st) (logSources st) = true) as ->.
        { apply forallb_forall. intros i Hi%list_elem_of_In.
          by apply (findNext_None _ _ Hfind). }
        simpl. rewrite orb_true_r. unfold rank, potential. fields. lia.
  - (* awaiting *)
    destruct Hat as (Hne & Hlen & Hq). revert Hnext. unfold step. rewrite Hpc.
    destruct (soonest (promiseQueue st)) as [k|] eqn:Hsoon.
    + intros _. apply soonest_Some in Hsoon as (p & Hk & Hp).
      pose proof (potential_settle st k p Hk Hp) as Hpot.
      assert (rank (settle k st) = 2) as ->.
      { unfold rank, settle. rewrite Hk. destruct (answer _); fields; by rewrite Hpc. }
      lia.
    + intros _. apply soonest_None in Hsoon.
      assert (rank (setPc Gate (clearPromiseQueue st)) <= 5) as Hr.
      { unfold rank. fields. destruct (allSourcesHaveBeenRead _ _); lia. }
      unfold potential in *. fields. rewrite Hsoon. simpl.
      destruct (promiseQueue st); [done|]. simpl. lia.
  - (* gate *)
    destruct Hat as (Hpend & Hlen & Hq). revert Hnext. unfold step. rewrite Hpc.
    destruct (allSourcesHaveBeenRead _ _) eqn:Hgate.
    + destruct (printNextLogFromQueue st) as [st'|why] eqn:Hprint.
      * intros _. pose proof (potential_printNext _ _ Hprint) as Hpot.
        unfold rank. fields. assert (potential (setPc Filter st') = potential st') as -> by done.
        lia.
      * intros [_ Hc _]. unfold AtPc in Hc. by fields.
    + intros _. unfold rank, potential. fields. lia.
  - (* filter *)
    unfold step. rewrite Hpc. unfold rank, potential. fields. lia.
Qed.
End Progress.

(** ** The asynchronous merge: the order of the entries *)

Lemma push_sorted (it : Item) (q : list Item) :
  StronglySorted earlier (map log q) ->
  StronglySorted earlier (map log (MinPriorityQueue.push before it q)).
Proof.
  induction q as [|y q IH]; simpl; intros H.
  - repeat constructor.
  - apply StronglySorted_cons in H as [Hall Hs].
    unfold before at 1. destruct (date (log it) <? date (log y))%Z eqn:Hlt.
    + apply Z.ltb_lt in Hlt. simpl. apply StronglySorted_cons.
      split; [|by apply StronglySorted_cons].
      constructor; [unfold earlier; lia|].
      eapply Forall_impl; [exact Hall|]. unfold earlier. intros; simpl in *; lia.
    + apply Z.ltb_ge in Hlt. simpl. apply StronglySorted_cons.
      split; [|by apply IH].
      rewrite push_Permutation. simpl. by constructor.
Qed.

Section Order.
Variable delay : nat -> nat.
Variable feeds : list (list Entry).

Lemma pool_future (st : State) (x : Entry) :
  x ∈ pool st ->
  x ∈ map log (priorityQueue st)
  \/ exists i s, heap st !! i = Some s /\ x ∈ future s.
Proof.
  unfold pool. intros [Hq|Hf]%elem_of_app; [by left|right].
  apply list_elem_of_In, in_concat in Hf as (l & Hl & Hx).
  apply in_map_iff in Hl as (s & <- & Hs).
  apply list_elem_of_In, list_elem_of_lookup in Hs as [i Hi].
  exists i, s. split; [done|]. by apply list_elem_of_In.
Qed.

Lemma same_pool (st st' : State) :
  Core feeds st -> Core feeds st' -> emitted st' = emitted st ->
  pool st' ≡ₚ pool st.
Proof.
  intros H H' He. pose proof (core_all _ _ H) as Ha.
  pose proof (core_all _ _ H') as Ha'. rewrite He, <- Ha in Ha'.
  by apply Permutation_app_inv_l in Ha'.
Qed.

Lemma Ord_queueLogFromSource (st : State) (s : nat) :
  Ord st -> loading (heap st !!! s) = false ->
  Ord (queueLogFromSource delay s st).
Proof.
  intros [Hq Hf Hr He Hfl] Hload.
  assert (Hsame : forall i y, heap (queueLogFromSource delay s st) !! i = Some y ->
            exists x, heap st !! i = Some x /\ future y = future x).
  { unfold queueLogFromSource. fields. intros i y Hy.
    apply lookup_alter_Some in Hy as [[-> (x & Hx & ->)]|[Hne Hy]]; [|eauto].
    exists x. split; [done|]. apply future_popAsync.
    by rewrite (lookup_total_Some _ _ _ Hx) in Hload. }
  constructor.
  - done.
  - intros i y (x & Hx & ->)%Hsame. eauto.
  - intros i y it e (x & Hx & ->)%Hsame. eauto.
  - done.
  - intros p x Hp Hx. apply Hfl; [done|]. revert Hx.
    unfold pool, queueLogFromSource. fields.
    rewrite concat_alter_same; [done|].
    intros x' Hx'. apply future_popAsync.
    by rewrite (lookup_total_Some _ _ _ Hx') in Hload.
Qed.

Lemma Ord_settle (st : State) (k : nat) (p : Promise) :
  Core feeds st -> Ord st ->
  promiseQueue st !! k = Some p -> pending p = true ->
  Ord (settle k st).
Proof.
  intros Hcore [Hq Hf Hr He Hfl] Hk Hp.
  pose proof (Core_settle feeds st k p Hcore Hk Hp) as Hcore'.
  assert (Hem : emitted (settle k st) = emitted st).
  { unfold emitted, settle. rewrite Hk. by destruct (answer _). }
  pose proof (same_pool _ _ Hcore Hcore' Hem) as Hpool.
  assert (Hlt : owner p < length (heap st)).
  { pose proof (core_promises _ _ Hcore) as Hpr. rewrite Forall_forall in Hpr.
    apply Hpr. by eapply list_elem_of_lookup_2. }
  destruct (lookup_lt_is_Some_2 _ _ Hlt) as [x Hx].
  pose proof (lookup_total_Some _ _ _ Hx) as Hxt.
  assert (Hload : loading x = true).
  { pose proof (core_loading _ _ Hcore _ _ Hx) as Hl.
    pose proof (fetching_elem (owner p) _ p (list_elem_of_lookup_2 _ _ _ Hk) Hp eq_refl).
    destruct (loading x); [done|lia]. }
  constructor.
  - unfold settle. rewrite Hk. destruct (answer _); fields; [|done].
    by apply push_sorted.
  - unfold settle. rewrite Hk, Hxt.
    destruct (answer (base x)) as [e|] eqn:Ha; fields; intros i y Hy;
      apply lookup_alter_Some in Hy as [[-> (x' & Hx' & ->)]|[Hne Hy]]; eauto;
      assert (x' = x) as -> by congruence.
    + rewrite future_idle by done. fields.
      pose proof (Hf _ _ Hx) as Hs. rewrite (future_loading _ e) in Hs by done.
      apply StronglySorted_cons in Hs as [_ Hs].
      destruct (drained (base x)); [constructor|done].
    + rewrite future_drained; [constructor|]. fields.
      unfold answer in Ha. by destruct (drained (base x)).
  - unfold settle. rewrite Hk, Hxt.
    destruct (answer (base x)) as [e|] eqn:Ha; fields; intros i y it e' Hy;
      apply lookup_alter_Some in Hy as [[-> (x' & Hx' & ->)]|[Hne Hy]].
    + assert (x' = x) as -> by congruence.
      rewrite future_idle by done. fields. intros Hit Hsrc He'.
      assert (e' ∈ future x) as Hin.
      { rewrite (future_loading _ e) by done.
        destruct (drained (base x)); [by apply elem_of_nil in He'|by right]. }
      apply push_elem_of in Hit as [->|Hit]; [|by eapply Hr].
      fields. pose proof (Hf _ _ Hx) as Hs.
      rewrite (future_loading _ e) in Hs, Hin by done.
      by eapply head_smallest.
    + intros Hit Hsrc He'.
      apply push_elem_of in Hit as [->|Hit]; [by fields|by eapply Hr].
    + assert (x' = x) as -> by congruence.
      rewrite future_drained; [by intros _ _ ?%elem_of_nil|]. fields.
      unfold answer in Ha. by destruct (drained (base x)).
    + eauto.
  - by rewrite Hem.
  - intros q y Hq' Hy. rewrite Hem in Hq'. rewrite Hpool in Hy. by apply Hfl.
Qed.

Lemma Ord_printNext (st st' : State) :
  Core feeds st -> Ord st ->
  allSourcesHaveBeenRead (heap st) (logSources st) = true ->
  printNextLogFromQueue st = Ok st' ->
  Ord st'.
Proof.
  intros Hcore [Hq Hf Hr He Hfl] Hgate Hprint.
  unfold printNextLogFromQueue, MinPriorityQueue.pop in Hprint.
  destruct (priorityQueue st) as [|item rest] eqn:Hpq; [done|].
  injection Hprint as <-. simpl in Hq.
  assert (Hsame : forall i y,
            alter (fun src => {| base := base src; bufferCount := bufferCount src - 1;
                                 loading := loading src; id := id src |})
                  (source item) (heap st) !! i = Some y ->
            exists x, heap st !! i = Some x /\ future y = future x).
  { intros i y Hy.
    apply lookup_alter_Some in Hy as [[-> (x & Hx & ->)]|[Hne Hy]]; eauto. }
  assert (Hmin : forall x, x ∈ pool st -> earlier (log item) x).
  { intros x [Hx|(i & s & Hs & Hx)]%pool_future.
    - rewrite Hpq in Hx. simpl in Hx. by eapply head_smallest.
    - destruct (decide (i ∈ logSources st)) as [Hin|Hout].
      + unfold allSourcesHaveBeenRead in Hgate.
        rewrite forallb_forall in Hgate.
        specialize (Hgate i (proj1 (list_elem_of_In _ _) Hin)).
        apply Z.ltb_lt in Hgate. rewrite (lookup_total_Some _ _ _ Hs) in Hgate.
        rewrite (core_count _ _ Hcore _ _ Hs) in Hgate.
        destruct (residents_elem i (priorityQueue st)) as (it & Hit & Hsrc); [lia|].
        rewrite Hpq in Hit. transitivity (log it); [|by eapply Hr].
        apply (head_smallest _ (map log rest)); [done|].
        change (log item :: map log rest) with (map log (item :: rest)).
        apply list_elem_of_In, in_map, list_elem_of_In. done.
      + pose proof (core_retired _ _ Hcore _ _ Hs Hout) as Hd.
        rewrite future_drained in Hx by done. by apply elem_of_nil in Hx. }
  assert (Hsub : forall x,
            x ∈ map log rest
                ++ concat (map future
                     (alter (fun src => {| base := base src;
                                           bufferCount := bufferCount src - 1;
                                           loading := loading src; id := id src |})
                            (source item) (heap st))) ->
            x ∈ pool st).
  { intros x Hx. rewrite concat_alter_same in Hx by (intros; apply future_count).
    unfold pool. rewrite Hpq. simpl. by right. }
  constructor; fields.
  - by apply StronglySorted_cons in Hq as [_ Hq].
  - intros i y (x & Hx & ->)%Hsame. eauto.
  - intros i y it e (x & Hx & ->)%Hsame Hit. eapply Hr; [done|]. by right.
  - unfold emitted in *. fields. rewrite omap_app. simpl.
    apply StronglySorted_app_2; [|done|repeat constructor].
    intros p x Hp Hx%list_elem_of_singleton. subst x. apply Hfl; [done|].
    unfold pool. rewrite Hpq. simpl. by left.
  - unfold emitted, pool in *. fields. rewrite omap_app. simpl.
    intros p x [Hp|Hp%list_elem_of_singleton]%elem_of_app Hx.
    + apply Hfl; [done|]. by apply Hsub.
    + subst p. by apply Hmin, Hsub.
Qed.

Lemma Ord_unchanged (st st' : State) :
  Ord st -> heap st' = heap st -> priorityQueue st' = priorityQueue st ->
  emitted st' = emitted st -> Ord st'.
Proof.
  intros [Hq Hf Hr He Hfl] Hh Hpq Hem.
  constructor; unfold pool in *; rewrite ?Hh, ?Hpq, ?Hem; done.
Qed.

Lemma Ord_step (st : State) :
  Inv feeds st -> Ord st -> Ord (step delay (length feeds * 10) st).
Proof.
  intros [Hcore Hat Hpl] Hord. unfold step.
  destruct (pc st) eqn:Hpc; [| | | |done|done].
  - destruct (continueLoop _ _).
    2: { eapply Ord_unchanged; [done..|].
         unfold emitted. fields. rewrite omap_app. simpl. by rewrite app_nil_r. }
    destruct (priorityQueueIsFull _ _ _) as [full|why];
      [|by eapply Ord_unchanged].
    assert (Ord (if full then st else addNextLogToQueue delay st)) as Hst1.
    { destruct full; [done|]. unfold addNextLogToQueue.
      destruct (findNextLogSourceToQueue _ _) as [s|] eqn:Hfind; [|done].
      apply findNext_Some in Hfind as (_ & Hload & _).
      by apply Ord_queueLogFromSource. }
    destruct (_ && _); by eapply Ord_unchanged.
  - destruct (soonest (promiseQueue st)) as [k|] eqn:Hsoon.
    + apply soonest_Some in Hsoon as (p & Hk & Hp). by eapply Ord_settle.
    + by eapply Ord_unchanged.
  - destruct (allSourcesHaveBeenRead _ _) eqn:Hgate; [|by eapply Ord_unchanged].
    destruct (printNextLogFromQueue st) as [st'|why] eqn:Hprint;
      [|by eapply Ord_unchanged].
    eapply Ord_unchanged; [by eapply Ord_printNext|done..].
  - by eapply Ord_unchanged.
Qed.
End Order.

(** ** The asynchronous merge: results on whole runs *)

Section Results.
Variable delay : nat -> nat.
Variable feeds : list (list Entry).

Lemma Ord_start :
  Forall chronological feeds -> Ord (start (sourcesOf feeds)).
Proof.
  intros Hsorted. constructor.
  - constructor.
  - intros i s (feed & Hfeed & ->)%start_lookup.
    rewrite future_idle by done. simpl.
    rewrite Forall_forall in Hsorted.
    apply Sorted_StronglySorted; [apply _|].
    apply Hsorted. by eapply list_elem_of_lookup_2.
  - intros i s it e _ Hit. by apply elem_of_nil in Hit.
  - constructor.
  - intros p x Hp. by apply elem_of_nil in Hp.
Qed.

Lemma Ord_run (n : nat) (st : State) :
  Inv feeds st -> Ord st -> Ord (run delay (length feeds * 10) n st).
Proof.
  revert st. induction n as [|n IH]; intros st Hinv Hord; [done|].
  simpl. apply IH; [by apply Inv_step|by apply Ord_step].
Qed.

Lemma run_Finished (n : nat) (st : State) (k : nat) :
  pc st = Finished -> run delay k n st = st.
Proof.
  intros Hpc. induction n as [|n IH]; [done|].
  simpl. unfold step. by rewrite Hpc.
Qed.

Lemma run_add (k n m : nat) (st : State) :
  run delay k (n + m) st = run delay k m (run delay k n st).
Proof.
  revert st. induction n as [|n IH]; intros st; [done|]. simpl. apply IH.
Qed.

Lemma Finished_or_running (st : State) : pc st = Finished \/ pc st <> Finished.
Proof. destruct (pc st); auto. Qed.

Lemma run_finishes (n : nat) (st : State) :
  Inv feeds st -> measure st <= n ->
  pc (run delay (length feeds * 10) n st) = Finished.
Proof.
  revert st. induction n as [|n IH]; intros st Hinv Hm.
  - destruct (Finished_or_running st) as [|Hrun]; [done|].
    pose proof (measure_step delay feeds st Hinv Hrun). lia.
  - simpl. destruct (Finished_or_running st) as [Hfin|Hrun].
    + unfold step at 1. rewrite Hfin. by rewrite run_Finished.
    + apply IH; [by apply Inv_step|].
      pose proof (measure_step delay feeds st Hinv Hrun). lia.
Qed.

(** Once the loop is left nothing is waiting to be printed. *)
Lemma pool_Finished (st : State) :
  Inv feeds st -> pc st = Finished -> pool st = [].
Proof.
  intros [Hcore Hat _] Hpc. unfold AtPc in Hat. rewrite Hpc in Hat.
  destruct Hat as (Hls & Hq & _). unfold pool. rewrite Hq. simpl.
  assert (Hall : forall i s, heap st !! i = Some s -> future s = []).
  { intros i s Hs. apply future_drained.
    apply (core_retired _ _ Hcore _ _ Hs). rewrite Hls. apply not_elem_of_nil. }
  clear -Hall. revert Hall. generalize (heap st). intros h.
  induction h as [|s h IH]; intros Hall; [done|].
  simpl. rewrite (Hall 0 s) by done. simpl.
  apply IH. intros i s' Hs'. by apply (Hall (S i)).
Qed.

Lemma emitted_sorted (n : nat) :
  Forall chronological feeds ->
  chronological (emitted (asyncSortedMerge delay feeds n)).
Proof.
  intros Hsorted. apply StronglySorted_Sorted.
  apply (ord_emitted (asyncSortedMerge delay feeds n)).
  apply Ord_run; [apply Inv_start|by apply Ord_start].
Qed.

Lemma printed_emitted (st : State) :
  PrinterLog st -> printed (printer st) = map Some (emitted st).
Proof.
  unfold PrinterLog, printed. intros ->. rewrite omap_app.
  assert (omap (fun ev => match ev with EvPrint l => Some l | EvDone => None end)
               (map (fun e => EvPrint (Some e)) (emitted st))
          = map Some (emitted st)) as ->.
  { induction (emitted st) as [|e es IH]; [done|]. simpl. by rewrite <- IH. }
  destruct (pc st); simpl; by rewrite app_nil_r.
Qed.
End Results.

(** ** The asynchronous merge: the output of a whole run *)

Lemma async_run_output (delay : nat -> nat) (feeds : list (list Entry)) :
  let st := asyncSortedMerge delay feeds (enough feeds) in
  pc st = Finished
  /\ exists es,
       printer st = map (fun e => EvPrint (Some e)) es ++ [EvDone]
       /\ es ≡ₚ concat feeds
       /\ (Forall chronological feeds -> chronological es).
Proof.
  intros st.
  assert (Hfin : pc st = Finished).
  { apply run_finishes; [apply Inv_start|]. unfold enough. lia. }
  pose proof (Inv_asyncSortedMerge delay feeds (enough feeds)) as Hinv.
  fold st in Hinv. split; [done|]. exists (emitted st). split_and!.
  - pose proof (inv_printer _ _ Hinv) as Hpl. unfold PrinterLog in Hpl.
    by rewrite Hfin in Hpl.
  - pose proof (core_all _ _ (inv_core _ _ Hinv)) as Hall.
    rewrite (pool_Finished feeds st Hinv Hfin), app_nil_r in Hall. done.
  - intros Hs. by apply emitted_sorted.
Qed.

(** X15.  Whatever the order in which the fetches complete, the run is over
    within [enough feeds] steps; the printer has then received every entry
    of every feed exactly once, then [done]; the entries are in
    chronological order when those of each source are. *)
Theorem async_output (delay : nat -> nat) (feeds : list (list Entry)) :
  let st := asyncSortedMerge delay feeds (enough feeds) in
  pc st = Finished
  /\ exists es,
       printer st = map (fun e => EvPrint (Some e)) es ++ [EvDone]
       /\ es ≡ₚ concat feeds
       /\ (Forall chronological feeds -> chronological es).
Proof. apply async_run_output. Qed.

(** The scenario of a source that is empty from the start: the output is
    that of the remaining sources. *)
Corollary async_output_without_empty_source
    (delay : nat -> nat) (before after : list (list Entry)) :
  let feeds := before ++ [] :: after in
  exists es,
    printer (asyncSortedMerge delay feeds (enough feeds))
    = map (fun e => EvPrint (Some e)) es ++ [EvDone]
    /\ es ≡ₚ concat (before ++ after)
    /\ (Forall chronological (before ++ after) -> chronological es).
Proof.
  intros feeds.
  destruct (async_run_output delay feeds) as (_ & es & Hpr & Hperm & Hs).
  exists es. split_and!; [done| |].
  - rewrite Hperm. unfold feeds. by rewrite !concat_app.
  - intros Hrem. apply Hs. unfold feeds.
    apply Forall_app in Hrem as [Hb Ha]. apply Forall_app. split; [done|].
    constructor; [constructor|done].
Qed.

(** The number of steps that is enough grows with the number of entries
    and of sources. *)
Lemma sum_imap {A B} (f : nat -> A -> B) (g : B -> nat) (h : A -> nat) (l : list A) :
  (forall i x, g (f i x) = h x) ->
  sum_list_with g (imap f l) = sum_list_with h l.
Proof.
  revert f. induction l as [|x l IH]; intros f Hf; [done|].
  rewrite imap_cons. simpl. rewrite Hf. f_equal. apply IH. intros i y. apply Hf.
Qed.

Lemma enough_value (feeds : list (list Entry)) :
  enough feeds = 40 * (length (concat feeds) + length feeds) + 3.
Proof.
  unfold enough, measure, potential, rank. simpl.
  assert (sum_list_with fetchesLeft (initializeSources (sourcesOf feeds))
          = length (concat feeds) + length feeds) as ->; [|lia].
  unfold initializeSources.
  rewrite (sum_imap _ _ (fun s => if drained s then 0 else S (length (upcoming s))))
    by done.
  unfold sourcesOf. induction feeds as [|f feeds IH]; [done|].
  simpl. rewrite length_app, IH. lia.
Qed.

(** The scenario of the specification with three sources. *)
Example async_three_sources :
  printer (asyncSortedMerge atOnce threeSources (enough threeSources))
  = map (fun d => EvPrint (Some (mk d))) [1; 2; 3; 4; 5; 6; 7; 9; 10]%Z ++ [EvDone].
Proof. by vm_compute. Qed.

Example sync_three_sources :
  Sync.syncSortedMerge (sourcesOf threeSources) 9
  = Some (map (fun d => EvPrint (Some (mk d))) [1; 2; 3; 4; 5; 6; 7; 9; 10]%Z
          ++ [EvDone]).
Proof. by vm_compute. Qed.

(** What has been printed at any point of a run is in chronological order. *)
Theorem async_output_chronological
    (delay : nat -> nat) (feeds : list (list Entry)) (n : nat) :
  Forall chronological feeds ->
  exists es,
    printed (printer (asyncSortedMerge delay feeds n)) = map Some es
    /\ chronological es.
Proof.
  intros Hs. exists (emitted (asyncSortedMerge delay feeds n)). split.
  - apply printed_emitted. apply (inv_printer feeds), Inv_asyncSortedMerge.
  - by apply emitted_sorted.
Qed.

(** The promise queue never holds more than 51 promises. *)
Theorem async_promiseQueue_bound
    (delay : nat -> nat) (feeds : list (list Entry)) (n : nat) :
  length (promiseQueue (asyncSortedMerge delay feeds n)) <= 51.
Proof.
  pose proof (inv_pc _ _ (Inv_asyncSortedMerge delay feeds n)) as Hat.
  unfold AtPc in Hat.
  destruct (pc (asyncSortedMerge delay feeds n)) eqn:Hpc.
  - destruct Hat as (_ & _ & ?). lia.
  - destruct Hat as (_ & ? & _). lia.
  - destruct Hat as (_ & ? & _). lia.
  - destruct Hat as (_ & ?). lia.
  - destruct Hat as (_ & _ & ?). lia.
  - done.
Qed.

(** * The properties of the specification *)

(** ** The synchronous merge on a source that is empty from the start *)

(** C5, at the input [emptyAndOne] of the synchronous merge: the printer
    receives [false] besides the entry of the remaining source, so what is
    printed is not the merge of the remaining sources; [done] is still the
    last call.  (For the asynchronous merge the scenario is proved in
    [async_output_without_empty_source].) *)
Theorem C5_sync_prints_false_for_the_empty_source :
  exists out,
    Sync.syncSortedMerge (sourcesOf emptyAndOne) 2 = Some out
    /\ EvPrint None ∈ out
    /\ printed out <> [Some (mk 5)]
    /\ list.last out = Some EvDone.
Proof.
  eexists. split; [vm_compute; reflexivity|]. split_and!.
  - vm_compute. apply list_elem_of_In. simpl. auto.
  - by vm_compute.
  - by vm_compute.
Qed.

(** ** The asynchronous merge *)

(** C3, as stated, fails: after 16 steps on [oneAndTwo] the priority queue
    holds two entries of the second source. *)
Lemma C3_two_residents_of_one_source :
  length (residents 1 (priorityQueue (asyncSortedMerge atOnce oneAndTwo 16))) = 2.
Proof. by vm_compute. Qed.

(** C3, amended.  At every point of every run the entries of one source
    that are resident in the priority queue number at most
    [MAX_PRIORITY_QUEUE_SIZE], ten times the number of sources. *)
Theorem C3_residents_of_a_source_within_ceiling
    (delay : nat -> nat) (feeds : list (list Entry)) (n i : nat) :
  length (residents i (priorityQueue (asyncSortedMerge delay feeds n)))
  <= length feeds * 10.
Proof.
  pose proof (core_room _ _ (inv_core _ _ (Inv_asyncSortedMerge delay feeds n))) as H.
  pose proof (length_filter (fun it => source it = i)
                (priorityQueue (asyncSortedMerge delay feeds n))) as Hle.
  unfold residents. lia.
Qed.

(** C4, at the input [fiftyOne]: after 151 steps the promise queue holds
    51 promises, all of them pending; the fetch of the 51st source was
    admitted although the queue had reached 50. *)
Theorem C4_fifty_one_promises_in_flight :
  let st := asyncSortedMerge atOnce fiftyOne 151 in
  length (promiseQueue st) = 51
  /\ length (inFlight (promiseQueue st)) = 51
  /\ promiseQueueIsFull (promiseQueue (asyncSortedMerge atOnce fiftyOne 150)) 50 = true.
Proof. by vm_compute. Qed.

(** C6, as stated, fails: after 10 steps on [oneAndTwo] the loop is at the
    gate, every source that is not drained has [bufferCount >= 1], and the
    step prints nothing.  The first source was found exhausted by the fetch
    of this tick; it is drained, has [bufferCount = 0] and is still in
    [logSources]. *)
Lemma C6_live_sources_buffered_but_no_emission :
  let st := asyncSortedMerge atOnce oneAndTwo 10 in
  pc st = Gate
  /\ Forall (fun s => drained (base s) = false -> (1 <= bufferCount s)%Z) (heap st)
  /\ printer (step atOnce (length oneAndTwo * 10) st) = printer st.
Proof.
  vm_compute. split_and!; [done| |done].
  repeat constructor; intros; done.
Qed.

(** C6, amended.  At the gate an entry is printed if and only if every
    source that is still in [logSources] has [bufferCount >= 1]; these
    sources include every source that is not drained.  The printed entry
    is the head of the priority queue; when the gate is closed the step
    prints nothing and leaves the queue as it is. *)
Theorem C6_gate_over_listed_sources
    (delay : nat -> nat) (feeds : list (list Entry)) (n : nat) :
  let st := asyncSortedMerge delay feeds n in
  let st' := step delay (length feeds * 10) st in
  pc st = Gate ->
  (allSourcesHaveBeenRead (heap st) (logSources st) = true
   <-> forall i, i ∈ logSources st -> (1 <= bufferCount (heap st !!! i))%Z)
  /\ (forall i s, heap st !! i = Some s -> drained (base s) = false ->
        i ∈ logSources st)
  /\ (if allSourcesHaveBeenRead (heap st) (logSources st)
      then exists item rest,
             priorityQueue st = item :: rest
             /\ printer st' = printer st ++ [EvPrint (Some (log item))]
             /\ priorityQueue st' = rest
      else printer st' = printer st /\ priorityQueue st' = priorityQueue st)
  /\ pc st' = Filter.
Proof.
  intros st st' Hpc.
  pose proof (Inv_asyncSortedMerge delay feeds n) as [Hcore Hat _]. fold st in Hcore, Hat.
  unfold AtPc in Hat. rewrite Hpc in Hat. destruct Hat as (_ & _ & Hq).
  split_and!.
  - unfold allSourcesHaveBeenRead. rewrite forallb_forall. split.
    + intros H i Hi%list_elem_of_In. apply H, Z.ltb_lt in Hi. lia.
    + intros H i Hi%list_elem_of_In. apply Z.ltb_lt. apply H in Hi. lia.
  - intros i s Hs Hd. destruct (decide (i ∈ logSources st)) as [|Hout]; [done|].
    pose proof (core_retired _ _ Hcore _ _ Hs Hout). congruence.
  - unfold st', step. rewrite Hpc.
    destruct (allSourcesHaveBeenRead _ _) eqn:Hgate; [|done].
    pose proof (gate_open_nonempty feeds _ Hcore Hq Hgate) as Hne.
    unfold printNextLogFromQueue, MinPriorityQueue.pop.
    destruct (priorityQueue st) as [|item rest]; [done|]. by exists item, rest.
  - unfold st', step. rewrite Hpc.
    destruct (allSourcesHaveBeenRead _ _) eqn:Hgate; [|done].
    pose proof (gate_open_nonempty feeds _ Hcore Hq Hgate) as Hne.
    unfold printNextLogFromQueue, MinPriorityQueue.pop.
    by destruct (priorityQueue st) as [|item rest].
Qed.

(** The gate after 7 steps on [oneAndTwo]. *)
Lemma C6_gate_witness :
  let st := asyncSortedMerge atOnce oneAndTwo 7 in
  pc st = Gate /\ pc (step atOnce (length oneAndTwo * 10) st) = Filter.
Proof.
  split; [vm_compute; reflexivity|].
  apply (C6_gate_over_listed_sources atOnce oneAndTwo 7).
  vm_compute. reflexivity.
Defined.

(** C7.  When the priority queue is larger than the ceiling at the head of
    the loop, the run aborts with the error of [priorityQueueIsFull]; and on
    every run the entries in the queue and the fetches in flight together
    never exceed [MAX_PRIORITY_QUEUE_SIZE], so no run aborts. *)
Theorem C7_priority_queue_within_ceiling
    (delay : nat -> nat) (feeds : list (list Entry)) :
  (forall st MAX, pc st = LoopHead -> MAX < MinPriorityQueue.size (priorityQueue st) ->
     pc (step delay MAX st) = Crashed "PriorityQueue exceeded MaxSize")
  /\ forall n,
       let st := asyncSortedMerge delay feeds n in
       MinPriorityQueue.size (priorityQueue st) + length (inFlight (promiseQueue st))
       <= length feeds * 10
       /\ forall why, pc st <> Crashed why.
Proof.
  split.
  - intros st MAX Hpc Hover. unfold step. rewrite Hpc.
    assert (continueLoop (logSources st) (priorityQueue st) = true) as ->.
    { unfold continueLoop. apply orb_true_iff. right.
      apply negb_true_iff, Nat.eqb_neq. lia. }
    unfold priorityQueueIsFull. apply Nat.ltb_lt in Hover. by rewrite Hover.
  - intros n st. pose proof (Inv_asyncSortedMerge delay feeds n) as [Hcore Hat _].
    fold st in Hcore, Hat. split.
    + pose proof (core_room _ _ Hcore). unfold MinPriorityQueue.size. lia.
    + intros why Hpc. unfold AtPc in Hat. by rewrite Hpc in Hat.
Qed.

(** A queue above its ceiling at the head of the loop. *)
Lemma C7_abort_witness :
  pc overfull = LoopHead
  /\ 0 < MinPriorityQueue.size (priorityQueue overfull)
  /\ pc (step atOnce 0 overfull) = Crashed "PriorityQueue exceeded MaxSize".
Proof.
  split; [reflexivity|]. split; [vm_compute; lia|].
  apply (C7_priority_queue_within_ceiling atOnce []); [reflexivity|].
  vm_compute. lia.
Defined.

(** C8.  At every point of every run a source has at most one pending
    promise, and it has one exactly when its [loading] flag is set.  The
    scheduler selects only a source whose flag is clear, which therefore
    has no pending promise; [queueLogFromSource] sets the flag when it
    calls [popAsync]; and whenever a step of a run adds a promise to the
    promise queue, the source of that promise had no pending promise and
    a clear flag before the step. *)
Theorem C8_one_fetch_in_flight_per_source
    (delay : nat -> nat) (feeds : list (list Entry)) (n : nat) :
  let st := asyncSortedMerge delay feeds n in
  (forall i, length (fetching i (promiseQueue st)) <= 1)
  /\ (forall i s, heap st !! i = Some s ->
        (loading s = true <-> length (fetching i (promiseQueue st)) = 1))
  /\ (forall s, findNextLogSourceToQueue (heap st) (logSources st) = Some s ->
        loading (heap st !!! s) = false /\ fetching s (promiseQueue st) = [])
  /\ (forall s, s < length (heap st) ->
        loading (heap (queueLogFromSource delay s st) !!! s) = true)
  /\ (forall p,
        promiseQueue (step delay (length feeds * 10) st) = promiseQueue st ++ [p] ->
        pending p = true
        /\ loading (heap st !!! owner p) = false
        /\ fetching (owner p) (promiseQueue st) = []).
Proof.
  intros st. pose proof (Inv_asyncSortedMerge delay feeds n) as [Hcore _ _].
  fold st in Hcore.
  assert (Hone : forall i s, heap st !! i = Some s ->
            (loading s = true <-> length (fetching i (promiseQueue st)) = 1)).
  { intros i s Hs. rewrite (core_loading _ _ Hcore _ _ Hs).
    destruct (loading s); split; done. }
  assert (Hsel : forall s,
            findNextLogSourceToQueue (heap st) (logSources st) = Some s ->
            loading (heap st !!! s) = false /\ fetching s (promiseQueue st) = []).
  { intros s (Hin & Hload & _)%findNext_Some. split; [done|].
    pose proof (core_sources _ _ Hcore) as Hs. rewrite Forall_forall in Hs.
    destruct (lookup_lt_is_Some_2 _ _ (Hs _ Hin)) as [x Hx].
    pose proof (core_loading _ _ Hcore _ _ Hx) as Hl.
    rewrite (lookup_total_Some _ _ _ Hx) in Hload. rewrite Hload in Hl.
    by destruct (fetching s (promiseQueue st)). }
  split_and!; [|done|done| |].
  - intros i. destruct (heap st !! i) as [s|] eqn:Hs.
    + rewrite (core_loading _ _ Hcore _ _ Hs). destruct (loading s); lia.
    + assert (fetching i (promiseQueue st) = []) as ->; [|simpl; lia].
      apply lookup_ge_None in Hs.
      pose proof (core_promises _ _ Hcore) as Hpr. rewrite Forall_forall in Hpr.
      destruct (fetching i (promiseQueue st)) as [|p r] eqn:Hf; [done|].
      assert (p ∈ fetching i (promiseQueue st)) as Hp by (rewrite Hf; by left).
      unfold fetching, inFlight in Hp. rewrite !list_elem_of_filter in Hp.
      destruct Hp as (Ho & _ & Hin). apply Hpr in Hin. lia.
  - intros s Hs. unfold queueLogFromSource. fields.
    by rewrite list_lookup_total_alter_eq.
  - intros p.
    assert (Hsame : forall q : list Promise, length q = length (promiseQueue st) ->
              q = promiseQueue st ++ [p] -> False).
    { intros q Hlen Hq. apply (f_equal length) in Hq.
      rewrite length_app in Hq. simpl in Hq. lia. }
    unfold step. destruct (pc st) eqn:Hpc.
    + destruct (continueLoop _ _); [|intros Hq; exfalso; by eapply Hsame].
      destruct (priorityQueueIsFull _ _ _) as [full|why];
        [|intros Hq; exfalso; by eapply Hsame].
      assert (Hadd : promiseQueue (if full then st else addNextLogToQueue delay st)
                     = promiseQueue st ++ [p] ->
                     pending p = true /\ loading (heap st !!! owner p) = false
                     /\ fetching (owner p) (promiseQueue st) = []).
      { destruct full; [intros Hq; exfalso; by eapply Hsame|].
        unfold addNextLogToQueue.
        destruct (findNextLogSourceToQueue _ _) as [s|] eqn:Hfind;
          [|intros Hq; exfalso; by eapply Hsame].
        unfold queueLogFromSource. fields.
        intros Hq%app_inv_head. injection Hq as <-. fields.
        split; [done|]. by apply Hsel. }
      by destruct (_ && _).
    + destruct (soonest _) as [k|].
      * unfold settle. destruct (promiseQueue st !! k);
          [|intros Hq; exfalso; by eapply Hsame].
        destruct (answer _); fields; intros Hq; exfalso;
          (eapply Hsame; [|exact Hq]); apply length_alter.
      * fields. intros Hq. by destruct (promiseQueue st).
    + destruct (allSourcesHaveBeenRead _ _);
        [|intros Hq; exfalso; by eapply Hsame].
      unfold printNextLogFromQueue, MinPriorityQueue.pop.
      destruct (priorityQueue st); intros Hq; exfalso; by eapply Hsame.
    + intros Hq; exfalso; by eapply Hsame.
    + intros Hq; exfalso; by eapply Hsame.
    + intros Hq; exfalso; by eapply Hsame.
Qed.

(** C9.  Whatever the order in which the fetches complete, the run reaches
    the end of the exported function within [enough feeds] steps: the loop
    is left with no source and no queued entry remaining, [printer.done] is
    the last call the printer receives and the only one of its kind, and
    nothing happens afterwards.  Before that point [done] has not been
    called. *)
Theorem C9_async_terminates_and_calls_done_once
    (delay : nat -> nat) (feeds : list (list Entry)) :
  let st := asyncSortedMerge delay feeds (enough feeds) in
  pc st = Finished
  /\ logSources st = [] /\ priorityQueue st = []
  /\ (exists es, printer st = map (fun e => EvPrint (Some e)) es ++ [EvDone])
  /\ (forall m, enough feeds <= m -> asyncSortedMerge delay feeds m = st)
  /\ (forall m, EvDone ∈ printer (asyncSortedMerge delay feeds m) ->
        pc (asyncSortedMerge delay feeds m) = Finished).
Proof.
  intros st.
  assert (Hfin : pc st = Finished).
  { apply run_finishes; [apply Inv_start|]. unfold enough. lia. }
  pose proof (Inv_asyncSortedMerge delay feeds (enough feeds)) as [Hcore Hat Hpl].
  fold st in Hcore, Hat, Hpl. unfold AtPc in Hat. rewrite Hfin in Hat.
  destruct Hat as (Hls & Hq & _). split_and!; try done.
  - exists (emitted st). unfold PrinterLog in Hpl. by rewrite Hfin in Hpl.
  - intros m Hm. unfold asyncSortedMerge.
    replace m with (enough feeds + (m - enough feeds)) by lia.
    rewrite run_add. by apply run_Finished.
  - intros m Hdone.
    pose proof (Inv_asyncSortedMerge delay feeds m) as [_ _ Hlog].
    unfold PrinterLog in Hlog. rewrite Hlog in Hdone.
    destruct (pc (asyncSortedMerge delay feeds m)); try done;
      rewrite app_nil_r in Hdone;
      apply list_elem_of_In, in_map_iff in Hdone as (e & He & _); done.
Qed.

(** C10.  At every point of every run the [bufferCount] of a source is the
    number of its entries that are resident in the priority queue; it is
    never negative. *)
Theorem C10_bufferCount_counts_residents
    (delay : nat -> nat) (feeds : list (list Entry)) (n i : nat) (s : Source) :
  let st := asyncSortedMerge delay feeds n in
  heap st !! i = Some s ->
  bufferCount s = Z.of_nat (length (residents i (priorityQueue st)))
  /\ (0 <= bufferCount s)%Z.
Proof.
  intros st Hs.
  pose proof (core_count _ _ (inv_core _ _ (Inv_asyncSortedMerge delay feeds n)) _ _ Hs)
    as Hc.
  fold st in Hc. split; [done|lia].
Qed.

(** The second source after 16 steps on [oneAndTwo]. *)
Lemma C10_bufferCount_witness :
  let s :=
    {| base := {| drained := false; last := mk 3; upcoming := [] |};
       bufferCount := 2; loading := false; id := 2 |} in
  heap (asyncSortedMerge atOnce oneAndTwo 16) !! 1 = Some s
  /\ bufferCount s
     = Z.of_nat (length (residents 1 (priorityQueue (asyncSortedMerge atOnce oneAndTwo 16))))
  /\ (0 <= bufferCount s)%Z.
Proof.
  split; [vm_compute; reflexivity|].
  apply (C10_bufferCount_counts_residents atOnce oneAndTwo 16 1).
  vm_compute. reflexivity.
Defined.

(** * Further properties of the code *)

(** ** lib/log-source.js *)

Section RandomSourceFacts.

Lemma pops_cons (d : RandomSource.Draw) (ds : list RandomSource.Draw) (this : RandomSource.LogSource) :
  RandomSource.pops (d :: ds) this
  = RandomSource.answer (RandomSource.advance d this)
    :: RandomSource.pops ds (RandomSource.advance d this).
Proof. done. Qed.

Lemma pops_drained (ds : list RandomSource.Draw) (this : RandomSource.LogSource) :
  RandomSource.drained this = true -> RandomSource.pops ds this = replicate (length ds) None.
Proof.
  revert this. induction ds as [|d ds IH]; intros this Hd; [done|].
  rewrite pops_cons. simpl.
  assert (Hd' : RandomSource.drained (RandomSource.advance d this) = true).
  { unfold RandomSource.advance. simpl. rewrite Hd. by destruct (_ <? _)%Z. }
  rewrite (IH _ Hd'). unfold RandomSource.answer. by rewrite Hd'.
Qed.

Lemma pops_feedOf (ds : list RandomSource.Draw) (this : RandomSource.LogSource) :
  RandomSource.drained this = false ->
  RandomSource.pops ds this
  = map Some (RandomSource.feedOf (RandomSource.last this) ds)
    ++ replicate (length ds - length (RandomSource.feedOf (RandomSource.last this) ds)) None.
Proof.
  revert this. induction ds as [|d ds IH]; intros this Hd; [done|].
  rewrite pops_cons. simpl.
  unfold RandomSource.answer, RandomSource.advance, RandomSource.getNextPseudoRandomEntry.
  simpl. rewrite Hd.
  destruct (RandomSource.now d <? _)%Z eqn:Hfut; simpl.
  - by rewrite pops_drained.
  - by rewrite IH.
Qed.

Lemma feedOf_not_in_the_future (prev : Entry) (ds : list RandomSource.Draw) (k : nat)
    (e : Entry) (d : RandomSource.Draw) :
  RandomSource.feedOf prev ds !! k = Some e -> ds !! k = Some d -> (date e <= RandomSource.now d)%Z.
Proof.
  revert prev k. induction ds as [|d0 ds IH]; intros prev k He Hd; [done|].
  simpl in He. destruct (RandomSource.now d0 <? _)%Z eqn:Hfut; [done|].
  apply Z.ltb_ge in Hfut. destruct k as [|k]; simpl in *.
  - injection He as <-. injection Hd as <-. done.
  - by eapply IH.
Qed.

Lemma feedOf_paced (prev : Entry) (ds : list RandomSource.Draw) :
  Forall RandomSource.inRange ds -> RandomSource.paced (date prev) (map date (RandomSource.feedOf prev ds)).
Proof.
  revert prev. induction ds as [|d ds IH]; intros prev Hr; [done|].
  apply Forall_cons in Hr as [[Hh Hm] Hr]. simpl.
  destruct (RandomSource.now d <? _)%Z; [done|].
  set (next := {| date := _; msg := _ |}).
  change (map date (next :: RandomSource.feedOf next ds))
    with (date next :: map date (RandomSource.feedOf next ds)).
  split; [|by apply IH].
  unfold RandomSource.maxGap, next. simpl. lia.
Qed.

Lemma paced_chronological (prev : Z) (es : list Entry) :
  RandomSource.paced prev (map date es) ->
  chronological es /\ Forall (fun e => (prev <= date e)%Z) es.
Proof.
  revert prev. induction es as [|e es IH]; intros prev Hp.
  - split; constructor.
  - destruct Hp as [Hpe Hp]. destruct (IH _ Hp) as [Hs Hall]. split.
    + constructor; [done|]. destruct es as [|e' es]; constructor.
      apply Forall_cons in Hall as [He' _]. done.
    + constructor; [lia|]. eapply Forall_impl; [exact Hall|].
      intros x Hx. simpl in Hx. lia.
Qed.

Lemma standsFor_advance (s : LogSource) (this : RandomSource.LogSource)
    (d : RandomSource.Draw) (ds : list RandomSource.Draw) :
  standsFor s this (d :: ds) ->
  standsFor (advance s) (RandomSource.advance d this) ds
  /\ answer (advance s) = RandomSource.answer (RandomSource.advance d this).
Proof.
  intros [Hd Hup]. unfold standsFor, answer, RandomSource.answer.
  destruct (RandomSource.drained this) eqn:Hdr.
  - assert (Hd' : RandomSource.drained (RandomSource.advance d this) = true).
    { unfold RandomSource.advance. simpl. rewrite Hdr. by destruct (_ <? _)%Z. }
    assert (Hs' : drained (advance s) = true).
    { unfold advance. destruct (upcoming s); simpl; by rewrite ?Hd. }
    rewrite Hd', Hs'. done.
  - specialize (Hup eq_refl). unfold advance. rewrite Hup. simpl.
    unfold RandomSource.advance, RandomSource.getNextPseudoRandomEntry.
    simpl. rewrite Hdr.
    destruct (RandomSource.now d <? _)%Z eqn:Hfut; simpl; [done|].
    by rewrite Hd.
Qed.

Lemma standsFor_pops (ds : list RandomSource.Draw) (s : LogSource)
    (this : RandomSource.LogSource) :
  standsFor s this ds -> RandomSource.pops ds this = popMany (length ds) s.
Proof.
  revert s this. induction ds as [|d ds IH]; intros s this Hst; [done|].
  destruct (standsFor_advance _ _ _ _ Hst) as [Hnext Hans].
  rewrite pops_cons. simpl. unfold pop. rewrite Hans. f_equal. by apply IH.
Qed.

Lemma standsFor_popAsyncs (ds : list RandomSource.Draw) (s : LogSource)
    (this : RandomSource.LogSource) :
  standsFor s this ds ->
  standsFor (Nat.iter (length ds) popAsync s) (RandomSource.popAsyncs ds this) [].
Proof.
  revert s this. induction ds as [|d ds IH]; intros s this Hst; [done|].
  destruct (standsFor_advance _ _ _ _ Hst) as [Hnext _].
  change (length (d :: ds)) with (S (length ds)). rewrite Nat.iter_succ_r.
  apply (IH _ _ Hnext).
Qed.

Lemma standsFor_answer (d : RandomSource.Draw) (ds : list RandomSource.Draw)
    (s : LogSource) (this : RandomSource.LogSource) :
  standsFor s this (d :: ds) ->
  answer (Nat.iter (S (length ds)) popAsync s)
  = RandomSource.answer (RandomSource.popAsyncs (d :: ds) this).
Proof.
  revert d s this. induction ds as [|d' ds IH]; intros d s this Hst;
    destruct (standsFor_advance _ _ _ _ Hst) as [Hnext Hans]; [done|].
  change (length (d' :: ds)) with (S (length ds)). rewrite Nat.iter_succ_r.
  apply (IH _ _ _ Hnext).
Qed.

Lemma standsFor_fresh (now0 days : Z) (text : string) (ds : list RandomSource.Draw) :
  standsFor
    (newLogSource
       (RandomSource.feedOf (RandomSource.last (RandomSource.constructor now0 days text)) ds))
    (RandomSource.constructor now0 days text) ds.
Proof. by split. Qed.

Lemma popAsyncs_drained (ds : list RandomSource.Draw) (this : RandomSource.LogSource) :
  RandomSource.drained this = true ->
  RandomSource.drained (RandomSource.popAsyncs ds this) = true.
Proof.
  revert this. induction ds as [|d ds IH]; intros this Hd; [done|].
  simpl. apply IH. unfold RandomSource.popAsync, RandomSource.advance. simpl.
  rewrite Hd. by destruct (_ <? _)%Z.
Qed.

Lemma last_pops (d : RandomSource.Draw) (ds : list RandomSource.Draw) (this : RandomSource.LogSource) :
  list.last (RandomSource.pops (d :: ds) this)
  = Some (RandomSource.answer (RandomSource.popAsyncs (d :: ds) this)).
Proof.
  revert d this. induction ds as [|d' ds IH]; intros d this; [done|].
  rewrite pops_cons. change (RandomSource.popAsyncs (d :: d' :: ds) this)
    with (RandomSource.popAsyncs (d' :: ds) (RandomSource.advance d this)).
  rewrite <- IH. rewrite pops_cons. done.
Qed.

(** X1.  Exhaustion is final.  Successive calls of [pop] return the entries that
    the draws generate, one after the other, up to the first one that lies
    in the future at its call; from that call on every call returns
    [false], also when a later entry would no longer lie in the future.  A
    call on a source that is drained returns [false].  No call returns an
    entry that lies in the future at the time of the call. *)
Theorem pop_returns_entries_then_false
    (ds : list RandomSource.Draw) (this : RandomSource.LogSource) :
  let feed := RandomSource.feedOf (RandomSource.last this) ds in
  RandomSource.pops ds this
  = (if RandomSource.drained this then replicate (length ds) None
     else map Some feed ++ replicate (length ds - length feed) None)
  /\ (forall k e d, RandomSource.pops ds this !! k = Some (Some e) -> ds !! k = Some d ->
        (date e <= RandomSource.now d)%Z).
Proof.
  intros feed. destruct (RandomSource.drained this) eqn:Hd.
  - rewrite (pops_drained _ _ Hd). split; [done|].
    intros k e d Hk _. apply lookup_replicate in Hk as [Hk _]. done.
  - rewrite (pops_feedOf _ _ Hd). fold feed. split; [done|].
    intros k e d Hk Hdk. apply lookup_app_Some in Hk as [Hk|[_ Hk]].
    + rewrite list_lookup_fmap in Hk.
      destruct (feed !! k) as [e'|] eqn:He; simplify_eq/=.
      by eapply feedOf_not_in_the_future.
    + apply lookup_replicate in Hk as [Hk _]. done.
Qed.

(** X2.  The entries of a source are in chronological order: when the random
    numbers are in their ranges, each entry that [pop] returns is dated at
    least as late as the one before (and as the entry of the constructor),
    and at most ten hours and one minute later. *)
Theorem pop_entries_chronological
    (ds : list RandomSource.Draw) (this : RandomSource.LogSource) :
  Forall RandomSource.inRange ds ->
  RandomSource.drained this = false ->
  exists es,
    RandomSource.pops ds this = map Some es ++ replicate (length ds - length es) None
    /\ RandomSource.paced (date (RandomSource.last this)) (map date es)
    /\ chronological es.
Proof.
  intros Hr Hd. exists (RandomSource.feedOf (RandomSource.last this) ds).
  pose proof (feedOf_paced (RandomSource.last this) ds Hr) as Hp.
  split_and!; [by apply pops_feedOf|done|].
  by apply (paced_chronological _ _ Hp).
Qed.

(** Three calls on a source whose last entry is dated 0: the first two
    entries are returned, the third lies in the future. *)
Lemma pop_entries_chronological_witness :
  let ds := [ {| RandomSource.hours := 1; RandomSource.millis := 5; RandomSource.phrase := "a"; RandomSource.now := 100000000 |};
              {| RandomSource.hours := 0; RandomSource.millis := 0; RandomSource.phrase := "b"; RandomSource.now := 100000000 |};
              {| RandomSource.hours := 10; RandomSource.millis := 60000; RandomSource.phrase := "c"; RandomSource.now := 0 |} ] in
  let this := {| RandomSource.drained := false; RandomSource.last := mk 0 |} in
  Forall RandomSource.inRange ds
  /\ RandomSource.drained this = false
  /\ exists es,
       RandomSource.pops ds this = map Some es ++ replicate (length ds - length es) None
       /\ RandomSource.paced (date (RandomSource.last this)) (map date es)
       /\ chronological es.
Proof.
  intros ds this.
  assert (Hr : Forall RandomSource.inRange ds).
  { unfold ds, RandomSource.inRange. repeat constructor; simpl; lia. }
  split; [exact Hr|]. split; [reflexivity|].
  exact (pop_entries_chronological ds this Hr eq_refl).
Defined.

(** X4.  A source given by its feed behaves as the class does.  For an object
    fresh from the constructor and any draws, the calls of [pop] return
    what they return on the source whose feed holds the entries that the
    draws generate before the first one in the future; and after calls of
    [popAsync] the two are drained together and their promises resolve
    with the same value. *)
Theorem feed_source_behaves_as_the_class
    (now0 days : Z) (text : string) (ds : list RandomSource.Draw) :
  let this := RandomSource.constructor now0 days text in
  let s := newLogSource (RandomSource.feedOf (RandomSource.last this) ds) in
  RandomSource.pops ds this = popMany (length ds) s
  /\ drained (Nat.iter (length ds) popAsync s)
     = RandomSource.drained (RandomSource.popAsyncs ds this)
  /\ (ds <> [] ->
      answer (Nat.iter (length ds) popAsync s)
      = RandomSource.answer (RandomSource.popAsyncs ds this)).
Proof.
  intros this s. pose proof (standsFor_fresh now0 days text ds) as Hst.
  fold this in Hst. fold s in Hst. split_and!.
  - by apply standsFor_pops.
  - by destruct (standsFor_popAsyncs _ _ _ Hst).
  - intros Hne. destruct ds as [|d ds]; [done|]. by apply standsFor_answer.
Qed.

(** X5.  Calls of [popAsync] that are made before any of their timers fires
    lose entries: every one of their promises resolves with the value of
    the last call, which is what the last of as many calls of [pop] would
    have returned.  The entries of the earlier calls are delivered to no
    promise. *)
Theorem popAsync_promises_resolve_with_the_last_entry
    (d : RandomSource.Draw) (ds : list RandomSource.Draw) (this : RandomSource.LogSource) :
  let late := RandomSource.popAsyncs (d :: ds) this in
  list.last (RandomSource.pops (d :: ds) this) = Some (RandomSource.answer late)
  /\ (RandomSource.drained late = false ->
      RandomSource.answer late = list.last (RandomSource.feedOf (RandomSource.last this) (d :: ds)))
  /\ (RandomSource.drained late = true -> RandomSource.answer late = None).
Proof.
  intros late. split_and!.
  - apply last_pops.
  - intros Hl.
    assert (Hd : RandomSource.drained this = false).
    { destruct (RandomSource.drained this) eqn:Hd; [|done].
      pose proof (popAsyncs_drained (d :: ds) this Hd) as Hc.
      fold late in Hc. congruence. }
    pose proof (last_pops d ds this) as Hlast. fold late in Hlast.
    rewrite (pops_feedOf _ _ Hd) in Hlast.
    unfold RandomSource.answer in *. rewrite Hl in *.
    destruct (length (d :: ds)
              - length (RandomSource.feedOf (RandomSource.last this) (d :: ds)))
      as [|m].
    + simpl replicate in Hlast. rewrite app_nil_r in Hlast.
      change (map Some ?l) with (Some <$> l) in Hlast.
      rewrite fmap_last in Hlast.
      destruct (list.last (RandomSource.feedOf _ _)) as [x|]; by simplify_eq/=.
    + exfalso. rewrite replicate_S_end in Hlast.
      rewrite app_assoc, last_snoc in Hlast. done.
  - intros Hl. unfold RandomSource.answer. by rewrite Hl.
Qed.

End RandomSourceFacts.

Lemma feedOf_full (now0 : Z) (ds : list RandomSource.Draw) (prev : Entry) :
  Forall RandomSource.inRange ds ->
  Forall (fun d => (now0 <= RandomSource.now d)%Z) ds ->
  (date prev + Z.of_nat (length ds) * RandomSource.maxGap <= now0)%Z ->
  length (RandomSource.feedOf prev ds) = length ds.
Proof.
  revert prev. induction ds as [|d ds IH]; intros prev Hr Hc Hroom; [done|].
  apply Forall_cons in Hr as [[Hh Hm] Hr]. apply Forall_cons in Hc as [Hd Hc].
  change (length (d :: ds)) with (S (length ds)) in *.
  rewrite Nat2Z.inj_succ in Hroom. unfold RandomSource.maxGap in *. simpl.
  destruct (RandomSource.now d <? _)%Z eqn:Hfut.
  - apply Z.ltb_lt in Hfut. lia.
  - simpl. f_equal. apply IH; [done|done|]. simpl. lia.
Qed.

(** X3.  A source that comes from the constructor is not empty.  Its first
    entry is dated 40 to 60 days before the time of its construction and
    each later one at most ten hours and one minute after the one before,
    so none of the first 95 entries lies in the future: the first 95 calls
    of [pop] all return an entry. *)
Theorem fresh_source_returns_its_first_entries
    (now0 days : Z) (text : string) (ds : list RandomSource.Draw) :
  (40 <= days <= 60)%Z ->
  Forall RandomSource.inRange ds ->
  Forall (fun d => (now0 <= RandomSource.now d)%Z) ds ->
  length ds <= 95 ->
  exists es,
    RandomSource.pops ds (RandomSource.constructor now0 days text) = map Some es
    /\ length es = length ds.
Proof.
  intros Hdays Hr Hc Hlen.
  set (this := RandomSource.constructor now0 days text).
  exists (RandomSource.feedOf (RandomSource.last this) ds).
  assert (Hfull : length (RandomSource.feedOf (RandomSource.last this) ds)
                  = length ds).
  { apply (feedOf_full now0); [done|done|].
    unfold this, RandomSource.constructor, RandomSource.maxGap. simpl. lia. }
  split; [|done]. rewrite pops_feedOf by done.
  rewrite Hfull, Nat.sub_diag. simpl. by rewrite app_nil_r.
Qed.

(** Two calls on a source constructed at time 5000000000, 40 days back. *)
Lemma fresh_source_returns_its_first_entries_witness :
  let ds :=
    [ {| RandomSource.hours := 10; RandomSource.millis := 60000;
         RandomSource.phrase := "a"; RandomSource.now := 5000000000 |};
      {| RandomSource.hours := 0; RandomSource.millis := 0;
         RandomSource.phrase := "b"; RandomSource.now := 5000000001 |} ] in
  (40 <= 40 <= 60)%Z
  /\ Forall RandomSource.inRange ds
  /\ Forall (fun d => (5000000000 <= RandomSource.now d)%Z) ds
  /\ length ds <= 95
  /\ exists es,
       RandomSource.pops ds (RandomSource.constructor 5000000000 40 "s")
       = map Some es
       /\ length es = length ds.
Proof.
  intros ds.
  assert (H1 : (40 <= 40 <= 60)%Z) by lia.
  assert (H2 : Forall RandomSource.inRange ds).
  { unfold ds, RandomSource.inRange. repeat constructor; simpl; lia. }
  assert (H3 : Forall (fun d => (5000000000 <= RandomSource.now d)%Z) ds).
  { unfold ds. repeat constructor; simpl; lia. }
  assert (H4 : length ds <= 95) by (simpl; lia).
  split; [exact H1|]. split; [exact H2|]. split; [exact H3|]. split; [exact H4|].
  exact (fresh_source_returns_its_first_entries 5000000000 40 "s" ds H1 H2 H3 H4).
Defined.

(** ** solution/sync-sorted-merge.js on every input *)

Section SyncRunFacts.
Import Sync SyncRun.

Ltac sfields :=
  cbn [heap pq printer log source drained last upcoming] in *.

Lemma falses_app (l1 l2 : list Log) : falses (l1 ++ l2) = falses l1 + falses l2.
Proof. unfold falses. by rewrite filter_app, length_app. Qed.

Lemma falses_Some (e : Entry) (l : list Log) : falses (Some e :: l) = falses l.
Proof. unfold falses. by rewrite filter_cons_False. Qed.

Lemma falses_None (l : list Log) : falses (None :: l) = S (falses l).
Proof. unfold falses. by rewrite filter_cons_True. Qed.

Lemma falses_push (it : Item) (q : list Item) :
  falses (map log (MinPriorityQueue.push before it q))
  = falses (log it :: map log q).
Proof. unfold falses. by rewrite push_Permutation. Qed.

Lemma length_logs (l : list Log) : length l = length (entries l) + falses l.
Proof.
  induction l as [|[e|] l IH]; [done| |].
  - rewrite falses_Some. simpl. lia.
  - rewrite falses_None. simpl. lia.
Qed.

Lemma entries_logs (l : list Log) :
  l ≡ₚ map Some (entries l) ++ replicate (falses l) None.
Proof.
  induction l as [|[e|] l IH]; [done| |].
  - rewrite falses_Some. simpl. by rewrite <- IH.
  - rewrite falses_None. simpl. rewrite <- Permutation_middle. by rewrite <- IH.
Qed.

Lemma queued_entries (q : list Item) : queued q = entries (map log q).
Proof.
  unfold queued, entries. induction q as [|it q IH]; [done|].
  simpl. destruct (log it); simpl; [f_equal|]; exact IH.
Qed.

Lemma emitted_entries (out : list Event) :
  omap (fun ev => match ev with EvPrint (Some e) => Some e | _ => None end) out
  = entries (printed out).
Proof.
  unfold entries, printed.
  induction out as [|[[e|]|] out IH]; simpl; [done|f_equal| |]; exact IH.
Qed.

Lemma emptyFeeds_snoc (fs : list (list Entry)) (f : list Entry) :
  emptyFeeds (fs ++ [f]) = emptyFeeds fs + match f with [] => 1 | _ => 0 end.
Proof.
  unfold emptyFeeds. rewrite filter_app, length_app. f_equal.
  destruct f; [by rewrite filter_cons_True|by rewrite filter_cons_False].
Qed.

Lemma NoDup_bounded (l : list nat) (n : nat) :
  NoDup l -> Forall (fun i => i < n) l -> length l <= n.
Proof.
  intros Hnd Hall.
  transitivity (length (seq 0 n)); [|by rewrite length_seq].
  apply submseteq_length.
  apply NoDup_submseteq; [done|]. intros x Hx.
  rewrite Forall_forall in Hall. apply elem_of_seq. apply Hall in Hx. lia.
Qed.

Lemma fill_length (ls : list nat) (st : State) :
  length (pq (fill ls st)) = length (pq st) + length ls.
Proof.
  revert st. induction ls as [|s ls IH]; intros st; simpl; [lia|].
  rewrite IH. unfold fillOne. destruct (pop _) as [l src]. sfields.
  rewrite push_length. lia.
Qed.

Lemma fill_printer (ls : list nat) (st : State) :
  printer (fill ls st) = printer st.
Proof.
  revert st. induction ls as [|s ls IH]; intros st; simpl; [done|].
  rewrite IH. unfold fillOne. by destruct (pop _).
Qed.

Section Steps.
Variable feeds : list (list Entry).

Lemma SyncInv_start : SyncInv feeds 0 (start (sourcesOf feeds)).
Proof.
  unfold start, sourcesOf. constructor; sfields.
  - by rewrite length_map.
  - constructor.
  - constructor.
  - intros i _. apply list_lookup_fmap.
  - intros it Hit. by apply elem_of_nil in Hit.
  - intros i s Hi. lia.
  - unfold pool, emitted, queued. sfields. simpl.
    rewrite map_map. by rewrite map_id.
  - done.
  - done.
Qed.

Lemma SyncInv_fillOne (k : nat) (st : State) :
  SyncInv feeds k st -> k < length feeds -> SyncInv feeds (S k) (fillOne k st).
Proof.
  intros [Hh Hit Hnd Hfr Hdr Hlv Hall Hfa Hpr] Hlt.
  destruct (lookup_lt_is_Some_2 _ _ Hlt) as [f Hf].
  assert (Hs : heap st !! k = Some (newLogSource f)).
  { rewrite Hfr by lia. by rewrite Hf. }
  assert (Hni : k ∉ map source (pq st)).
  { intros Hin. apply list_elem_of_In, in_map_iff in Hin as (it & Hsrc & Hin).
    rewrite Forall_forall in Hit. apply list_elem_of_In, Hit in Hin. lia. }
  unfold fillOne, pop. rewrite (lookup_total_Some _ _ _ Hs).
  set (s := newLogSource f) in *.
  assert (Hans : answer (advance s) = match f with [] => None | e :: _ => Some e end).
  { unfold s. by destruct f. }
  assert (Hdrained : drained (advance s) = match f with [] => true | _ => false end).
  { unfold s. by destruct f. }
  constructor; sfields.
  - by rewrite length_insert.
  - apply Forall_forall. intros it [->|Hin]%push_elem_of; [simpl; lia|].
    rewrite Forall_forall in Hit. apply Hit in Hin. lia.
  - rewrite push_Permutation. simpl. by constructor.
  - intros i Hi. rewrite list_lookup_insert_ne by lia. apply Hfr. lia.
  - intros it [->|Hin]%push_elem_of.
    + simpl. rewrite list_lookup_total_insert_eq by (by rewrite Hh).
      rewrite Hdrained, Hans. by destruct f.
    + rewrite list_lookup_total_insert_ne; [by apply Hdr|].
      rewrite Forall_forall in Hit. apply Hit in Hin. lia.
  - intros i s' Hi Hsi. destruct (decide (i = k)) as [->|Hne].
    + rewrite list_lookup_insert_eq in Hsi by (by rewrite Hh).
      injection Hsi as <-. destruct f as [|e f].
      * right. unfold rest. by rewrite Hdrained.
      * left. eexists. split; [apply push_elem_of; by left|done].
    + rewrite list_lookup_insert_ne in Hsi by done.
      destruct (Hlv i s' ltac:(lia) Hsi) as [(it & Hin & Hsrc)|Hr]; [|by right].
      left. exists it. split; [|done]. apply push_elem_of. by right.
  - unfold emitted, pool in *. sfields.
    rewrite (sync_pool_refill _ _ _ _ Hs) by done. done.
  - rewrite falses_push. simpl. rewrite (take_S_r _ _ _ Hf), emptyFeeds_snoc.
    rewrite Hans. destruct f; [rewrite falses_None|rewrite falses_Some]; lia.
  - done.
Qed.

Lemma SyncInv_fill (n k : nat) (st : State) :
  SyncInv feeds k st -> k + n <= length feeds ->
  SyncInv feeds (k + n) (fill (seq k n) st).
Proof.
  revert k st. induction n as [|n IH]; intros k st Hinv Hk.
  - simpl. by rewrite Nat.add_0_r.
  - simpl. replace (k + S n) with (S k + n) by lia.
    apply IH; [|lia]. apply SyncInv_fillOne; [done|lia].
Qed.

Lemma SyncInv_filled : SyncInv feeds (length feeds) (syncFilled feeds).
Proof.
  unfold syncFilled.
  apply (SyncInv_fill (length feeds) 0); [apply SyncInv_start|lia].
Qed.

Lemma syncTodo_value (k : nat) (st : State) :
  SyncInv feeds k st ->
  length (printed (printer st)) + syncTodo st
  = length (concat feeds) + emptyFeeds (take k feeds).
Proof.
  intros [Hh Hit Hnd Hfr Hdr Hlv Hall Hfa Hpr].
  apply Permutation_length in Hall. rewrite length_app in Hall.
  unfold pool in Hall. rewrite length_app in Hall.
  unfold emitted in Hall. rewrite emitted_entries in Hall.
  rewrite queued_entries in Hall.
  pose proof (length_logs (printed (printer st))) as H1.
  pose proof (length_logs (map log (pq st))) as H2.
  rewrite length_map in H2. unfold syncTodo. lia.
Qed.

Lemma SyncInv_body (st : State) :
  SyncInv feeds (length feeds) st ->
  SyncInv feeds (length feeds) (body st)
  /\ (pq st <> [] -> S (syncTodo (body st)) = syncTodo st).
Proof.
  intros Hinv. pose proof Hinv as [Hh Hit Hnd Hfr Hdr Hlv Hall Hfa Hpr].
  destruct (pq st) as [|item rq] eqn:Hq.
  { unfold body, MinPriorityQueue.pop. rewrite Hq. by split. }
  apply Forall_cons in Hit as [Hlt Hit].
  rewrite <- Hh in Hlt. destruct (lookup_lt_is_Some_2 _ _ Hlt) as [s Hs].
  pose proof (Hdr item ltac:(by left)) as Hd.
  rewrite (lookup_total_Some _ _ _ Hs) in Hd.
  simpl in Hnd. apply NoDup_cons in Hnd as [Hni Hnd].
  assert (Hother : forall y, y ∈ rq -> source y <> source item).
  { intros y Hy Heq. apply Hni. rewrite <- Heq.
    apply list_elem_of_In, in_map, list_elem_of_In. done. }
  destruct (log item) as [e|] eqn:He.
  - (* an entry: the source is asked for the next one *)
    pose proof (sync_pool_body st item rq e s Hq He Hs Hd) as Hpool.
    assert (Htodo : S (syncTodo (body st)) = syncTodo st).
    { unfold syncTodo. rewrite (sync_body_refill st item rq e s) by done.
      rewrite Hq. sfields. rewrite list_insert_alter.
      destruct (concat_alter rest (fun _ => advance s) _ _ _ Hs)
        as (b & a & -> & ->).
      rewrite (rest_advance s Hd).
      destruct (answer (advance s)) as [e'|];
        rewrite !length_app, ?push_length; simpl; lia. }
    split; [|done].
    revert Hpool. rewrite (sync_body_refill st item rq e s) by done. intros Hpool.
    assert (Hin : forall y,
              y ∈ match answer (advance s) with
                  | Some _ =>
                      MinPriorityQueue.push before
                        {| log := answer (advance s); source := source item |} rq
                  | None => rq
                  end ->
              (y = {| log := answer (advance s); source := source item |}
               /\ is_Some (answer (advance s)))
              \/ y ∈ rq).
    { intros y. destruct (answer (advance s)) as [e'|]; [|by right].
      intros [->|Hy]%push_elem_of; [left|by right]. split; [done|by eexists]. }
    constructor; sfields.
    + by rewrite length_insert.
    + apply Forall_forall. intros y [[-> Hsome]|Hy]%Hin.
      * simpl. by rewrite <- Hh.
      * rewrite Forall_forall in Hit. by apply Hit.
    + destruct (answer (advance s)); [|done].
      rewrite push_Permutation. simpl. by constructor.
    + intros i Hi. rewrite list_lookup_insert_ne by lia. by apply Hfr.
    + intros y [[-> [e' Hsome]]|Hy]%Hin.
      * simpl. rewrite list_lookup_total_insert_eq by done.
        rewrite Hsome. by eapply answer_drained.
      * rewrite list_lookup_total_insert_ne by (symmetry; by apply Hother).
        apply Hdr. by right.
    + intros i s' Hi Hsi. destruct (decide (i = source item)) as [->|Hne'].
      * rewrite list_lookup_insert_eq in Hsi by done. injection Hsi as <-.
        destruct (answer (advance s)) as [e'|] eqn:Ha.
        -- left. eexists. split; [apply push_elem_of; by left|done].
        -- right. by apply answer_None.
      * rewrite list_lookup_insert_ne in Hsi by done.
        destruct (Hlv i s' Hi Hsi) as [(y & Hy & Hsrc)|Hr]; [|by right].
        left. exists y. split; [|done].
        apply elem_of_cons in Hy as [->|Hy]; [done|].
        destruct (answer (advance s)); [|done]. apply push_elem_of. by right.
    + unfold emitted in *. sfields. rewrite omap_app. simpl.
      rewrite <- Hall. rewrite <- app_assoc. simpl.
      apply Permutation_app_head. by rewrite Hpool.
    + unfold printed in *. rewrite omap_app. simpl. rewrite falses_app.
      rewrite falses_Some. simpl in Hfa. rewrite He, falses_Some in Hfa.
      rewrite <- Hfa. change (falses []) with 0.
      destruct (answer (advance s)) as [e'|] eqn:Ha; [|lia].
      rewrite falses_push. simpl. rewrite falses_Some. lia.
    + unfold printed in *. rewrite omap_app, map_app. simpl. by rewrite <- Hpr.
  - (* [false]: the source is drained and is not asked again *)
    unfold body, MinPriorityQueue.pop. rewrite Hq.
    rewrite (lookup_total_Some _ _ _ Hs), Hd, He.
    split; [|intros _; unfold syncTodo; rewrite Hq; simpl; lia].
    constructor; sfields.
    + done.
    + done.
    + done.
    + done.
    + intros y Hy. apply Hdr. by right.
    + intros i s' Hi Hsi.
      destruct (Hlv i s' Hi Hsi) as [(y & Hy & Hsrc)|Hr]; [|by right].
      apply elem_of_cons in Hy as [->|Hy]; [|left; by exists y].
      right. rewrite Hsrc in Hs. simplify_eq. unfold rest. by rewrite Hd.
    + unfold emitted, pool, queued in *. sfields. rewrite omap_app. simpl.
      rewrite app_nil_r. rewrite Hq in Hall. simpl in Hall.
      by rewrite He in Hall.
    + unfold printed in *. rewrite omap_app. simpl. rewrite falses_app.
      rewrite falses_None. simpl in Hfa. rewrite He, falses_None in Hfa.
      change (falses []) with 0. lia.
    + unfold printed in *. rewrite omap_app, map_app. simpl. by rewrite <- Hpr.
Qed.

Lemma SyncInv_iter (n : nat) (st : State) :
  SyncInv feeds (length feeds) st ->
  SyncInv feeds (length feeds) (Nat.iter n body st).
Proof.
  intros Hinv. induction n as [|n IH]; [done|].
  simpl. by apply SyncInv_body.
Qed.

Lemma sync_loop_total (fuel : nat) (st : State) :
  SyncInv feeds (length feeds) st ->
  syncTodo st <= fuel ->
  exists st', loop fuel st = Some st'
    /\ SyncInv feeds (length feeds) st' /\ pq st' = [].
Proof.
  revert st. induction fuel as [|fuel IH]; intros st Hinv Hlen.
  - destruct (pq st) as [|item rq] eqn:Hq.
    + exists st. simpl. by rewrite Hq.
    + exfalso. unfold syncTodo in Hlen. rewrite Hq in Hlen. simpl in Hlen. lia.
  - destruct (pq st) as [|item rq] eqn:Hq.
    + exists st. simpl. by rewrite Hq.
    + destruct (SyncInv_body st Hinv) as [Hinv' Htodo].
      specialize (Htodo ltac:(by rewrite Hq)).
      destruct (IH (body st) Hinv' ltac:(lia)) as (st' & Hloop & Hst' & Hempty).
      exists st'. simpl. rewrite Hq. simpl. done.
Qed.

Lemma sync_rests_empty (st : State) :
  SyncInv feeds (length feeds) st -> pq st = [] ->
  concat (map rest (heap st)) = [].
Proof.
  intros Hinv Hq.
  assert (Hnil : forall i s, heap st !! i = Some s -> rest s = []).
  { intros i s Hs. destruct (sinv_live _ _ _ Hinv i s) as [(y & Hy & _)|Hr];
      [|done| |done].
    - rewrite <- (sinv_heap _ _ _ Hinv). by eapply lookup_lt_Some.
    - rewrite Hq in Hy. by apply elem_of_nil in Hy. }
  clear -Hnil. revert Hnil. generalize (heap st). intros h.
  induction h as [|s h IH]; intros Hnil; [done|].
  simpl. rewrite (Hnil 0 s) by done. simpl.
  apply IH. intros i s' Hs'. by apply (Hnil (S i)).
Qed.

Lemma sync_loop_short (fuel : nat) (st : State) :
  SyncInv feeds (length feeds) st ->
  fuel < syncTodo st -> loop fuel st = None.
Proof.
  revert st. induction fuel as [|fuel IH]; intros st Hinv Hlen.
  - destruct (pq st) as [|item rq] eqn:Hq; simpl; rewrite Hq; [|done].
    exfalso. unfold syncTodo in Hlen.
    rewrite (sync_rests_empty st Hinv Hq), Hq in Hlen. simpl in Hlen. lia.
  - destruct (pq st) as [|item rq] eqn:Hq.
    + exfalso. unfold syncTodo in Hlen.
      rewrite (sync_rests_empty st Hinv Hq), Hq in Hlen. simpl in Hlen. lia.
    + destruct (SyncInv_body st Hinv) as [Hinv' Htodo].
      specialize (Htodo ltac:(by rewrite Hq)).
      simpl. rewrite Hq. simpl. apply IH; [done|lia].
Qed.

End Steps.

Lemma sync_run_on_every_input (feeds : list (list Entry)) (fuel : nat) :
  let needed := length (concat feeds) + emptyFeeds feeds in
  (fuel < needed -> syncSortedMerge (sourcesOf feeds) fuel = None)
  /\ (needed <= fuel ->
      exists logs,
        syncSortedMerge (sourcesOf feeds) fuel
        = Some (map EvPrint logs ++ [EvDone])
        /\ entries logs ≡ₚ concat feeds
        /\ falses logs = emptyFeeds feeds).
Proof.
  intros needed.
  assert (Hlen : length (sourcesOf feeds) = length feeds)
    by (unfold sourcesOf; by rewrite length_map).
  pose proof (SyncInv_filled feeds) as Hinv.
  pose proof (syncTodo_value feeds _ _ Hinv) as Htodo.
  rewrite firstn_all in Htodo.
  assert (Hnone : printed (printer (syncFilled feeds)) = []).
  { unfold syncFilled. by rewrite fill_printer. }
  rewrite Hnone in Htodo. simpl in Htodo.
  unfold syncSortedMerge. rewrite Hlen. fold (syncFilled feeds). split.
  - intros Hshort. rewrite (sync_loop_short feeds); [done|done|]. fold needed in Htodo. lia.
  - intros Hfuel.
    destruct (sync_loop_total feeds fuel _ Hinv) as (st' & -> & Hinv' & Hq).
    { fold needed in Htodo. lia. }
    exists (printed (printer st')). split_and!.
    + by rewrite (sinv_printer _ _ _ Hinv') at 1.
    + pose proof (sinv_all _ _ _ Hinv') as Hall.
      assert (Hpool : pool st' = []).
      { unfold pool. by rewrite (sync_rests_empty feeds st' Hinv' Hq), Hq. }
      rewrite Hpool, app_nil_r in Hall. unfold emitted in Hall.
      by rewrite emitted_entries in Hall.
    + pose proof (sinv_false _ _ _ Hinv') as Hf.
      rewrite Hq in Hf. change (falses (map log [])) with 0 in Hf.
      rewrite firstn_all in Hf. lia.
Qed.

(** X17.  The synchronous merge returns on every input, sources that are empty
    from the start included.  Its second loop makes one iteration for each
    entry and one for each source that is empty from the start, no fewer.
    The printer then has received every entry of every feed exactly once,
    [false] exactly once for each source that is empty from the start, and
    [done] once, as the last call. *)
Theorem sync_output_on_every_input (feeds : list (list Entry)) (fuel : nat) :
  let needed := length (concat feeds) + emptyFeeds feeds in
  (fuel < needed -> syncSortedMerge (sourcesOf feeds) fuel = None)
  /\ (needed <= fuel ->
      exists logs,
        syncSortedMerge (sourcesOf feeds) fuel
        = Some (map EvPrint logs ++ [EvDone])
        /\ entries logs ≡ₚ concat feeds
        /\ falses logs = emptyFeeds feeds).
Proof. apply sync_run_on_every_input. Qed.

(** The input [emptyAndOne] with two units of fuel. *)
Lemma sync_output_on_every_input_witness :
  length (concat emptyAndOne) + emptyFeeds emptyAndOne <= 2
  /\ exists logs,
       syncSortedMerge (sourcesOf emptyAndOne) 2
       = Some (map EvPrint logs ++ [EvDone])
       /\ entries logs ≡ₚ concat emptyAndOne
       /\ falses logs = emptyFeeds emptyAndOne.
Proof.
  assert (H : length (concat emptyAndOne) + emptyFeeds emptyAndOne <= 2)
    by (vm_compute; lia).
  split; [exact H|].
  exact (proj2 (sync_output_on_every_input emptyAndOne 2) H).
Defined.

(** X18.  The queue of the synchronous merge holds at most one item of each
    source.  After the first loop it holds exactly one item for each
    source; at every iteration of the second loop the items of the queue
    belong to different sources, so the queue never holds more items than
    there are sources. *)
Theorem sync_queue_holds_one_item_per_source
    (feeds : list (list Entry)) (n : nat) :
  let st := Nat.iter n body (syncFilled feeds) in
  NoDup (map source (pq st))
  /\ length (pq st) <= length feeds
  /\ length (pq (syncFilled feeds)) = length feeds.
Proof.
  intros st.
  pose proof (SyncInv_iter feeds n _ (SyncInv_filled feeds)) as Hinv.
  fold st in Hinv. split_and!.
  - apply (sinv_nodup _ _ _ Hinv).
  - rewrite <- (length_map source). apply NoDup_bounded.
    + apply (sinv_nodup _ _ _ Hinv).
    + apply Forall_forall. intros i Hi.
      apply list_elem_of_In, in_map_iff in Hi as (it & <- & Hit).
      pose proof (sinv_items _ _ _ Hinv) as Hall. rewrite Forall_forall in Hall.
      by apply Hall, list_elem_of_In.
  - unfold syncFilled. rewrite fill_length, length_seq. done.
Qed.

End SyncRunFacts.

(** ** solution/async-sorted-merge.js: the choice of the next source *)

Lemma findNextLoop_result (h : list Source) (ls : list nat) (m : option nat) :
  match findNextLoop h ls m with
  | None => m = None /\ forall i, i ∈ ls -> loading (h !!! i) = true
  | Some s =>
      (exists l1 l2,
          ls = l1 ++ s :: l2
          /\ loading (h !!! s) = false
          /\ (forall i, i ∈ l1 -> loading (h !!! i) = false ->
                bufferCount (h !!! i) <> 0%Z)
          /\ (bufferCount (h !!! s) = 0%Z
              \/ ((forall i, i ∈ l1 -> loading (h !!! i) = false ->
                     (bufferCount (h !!! s) < bufferCount (h !!! i))%Z)
                  /\ (forall i, i ∈ l2 -> loading (h !!! i) = false ->
                        (bufferCount (h !!! s) <= bufferCount (h !!! i))%Z
                        /\ bufferCount (h !!! i) <> 0%Z)
                  /\ (forall m0, m = Some m0 ->
                        (bufferCount (h !!! s) < bufferCount (h !!! m0))%Z))))
      \/ (m = Some s
          /\ forall i, i ∈ ls -> loading (h !!! i) = false ->
               (bufferCount (h !!! s) <= bufferCount (h !!! i))%Z
               /\ bufferCount (h !!! i) <> 0%Z)
  end.
Proof.
  revert m. induction ls as [|s ls IH]; intros m; simpl.
  - destruct m as [m0|]; [right|]; (split; [done|]);
      intros i Hi; by apply elem_of_nil in Hi.
  - destruct (loading (h !!! s)) eqn:Hl.
    { specialize (IH m). destruct (findNextLoop h ls m) as [r|].
      - destruct IH as [(l1 & l2 & -> & Hr & Hnz & Hmin)|[Hm Hall]].
        + left. exists (s :: l1), l2. split_and!; [done|done| |].
          * intros i [->|Hi]%elem_of_cons Hidle; [congruence|by apply Hnz].
          * destruct Hmin as [Hz|(H1 & H2 & H3)]; [by left|right].
            split_and!; [|done|done].
            intros i [->|Hi]%elem_of_cons Hidle; [congruence|by apply H1].
        + right. split; [done|].
          intros i [->|Hi]%elem_of_cons Hidle; [congruence|by apply Hall].
      - destruct IH as [Hm Hall]. split; [done|].
        intros i [->|Hi]%elem_of_cons; [done|by apply Hall]. }
    destruct (bufferCount (h !!! s) =? 0)%Z eqn:Hz.
    { apply Z.eqb_eq in Hz. left. exists [], ls.
      split_and!; [done|done| |by left].
      intros i Hi. by apply elem_of_nil in Hi. }
    apply Z.eqb_neq in Hz.
    destruct (match m with
              | Some m0 => (bufferCount (h !!! s) <? bufferCount (h !!! m0))%Z
              | None => true
              end) eqn:Hbelow.
    + specialize (IH (Some s)). destruct (findNextLoop h ls (Some s)) as [r|].
      * destruct IH as [(l1 & l2 & -> & Hr & Hnz & Hmin)|[Hm Hall]].
        -- left. exists (s :: l1), l2. split_and!; [done|done| |].
           ++ intros i [->|Hi]%elem_of_cons Hidle; [done|by apply Hnz].
           ++ destruct Hmin as [Hz'|(H1 & H2 & H3)]; [by left|right].
              specialize (H3 s eq_refl). split_and!; [|done|].
              ** intros i [->|Hi]%elem_of_cons Hidle; [done|by apply H1].
              ** intros m0 ->. apply Z.ltb_lt in Hbelow. lia.
        -- injection Hm as <-. left. exists [], ls. split_and!; [done|done| |].
           ++ intros i Hi. by apply elem_of_nil in Hi.
           ++ right. split_and!; [intros i Hi; by apply elem_of_nil in Hi|done|].
              intros m0 ->. by apply Z.ltb_lt in Hbelow.
      * destruct IH as [Hc _]. done.
    + destruct m as [m0|]; [|done]. apply Z.ltb_ge in Hbelow.
      specialize (IH (Some m0)). destruct (findNextLoop h ls (Some m0)) as [r|].
      * destruct IH as [(l1 & l2 & -> & Hr & Hnz & Hmin)|[Hm Hall]].
        -- left. exists (s :: l1), l2. split_and!; [done|done| |].
           ++ intros i [->|Hi]%elem_of_cons Hidle; [done|by apply Hnz].
           ++ destruct Hmin as [Hz'|(H1 & H2 & H3)]; [by left|right].
              specialize (H3 m0 eq_refl). split_and!; [|done|].
              ** intros i [->|Hi]%elem_of_cons Hidle; [lia|by apply H1].
              ** intros m1 [= <-]. done.
        -- injection Hm as <-. right. split; [done|].
           intros i [->|Hi]%elem_of_cons Hidle; [split; [lia|done]|by apply Hall].
      * destruct IH as [Hc _]. done.
Qed.

(** X6.  What [findNextLogSourceToQueue] returns.  It returns no source exactly
    when every listed source is loading.  Otherwise it returns a listed
    source that is not loading: the first one in the list whose
    [bufferCount] is 0 if there is one, and else the first one among those
    with the least [bufferCount]. *)
Theorem findNextLogSourceToQueue_selects (h : list Source) (ls : list nat) :
  match findNextLogSourceToQueue h ls with
  | None => forall i, i ∈ ls -> loading (h !!! i) = true
  | Some s =>
      exists l1 l2,
        ls = l1 ++ s :: l2
        /\ loading (h !!! s) = false
        /\ (forall i, i ∈ l1 -> loading (h !!! i) = false ->
              bufferCount (h !!! i) <> 0%Z)
        /\ (bufferCount (h !!! s) = 0%Z
            \/ ((forall i, i ∈ l1 -> loading (h !!! i) = false ->
                   (bufferCount (h !!! s) < bufferCount (h !!! i))%Z)
                /\ (forall i, i ∈ l2 -> loading (h !!! i) = false ->
                      (bufferCount (h !!! s) <= bufferCount (h !!! i))%Z
                      /\ bufferCount (h !!! i) <> 0%Z)))
  end.
Proof.
  unfold findNextLogSourceToQueue.
  pose proof (findNextLoop_result h ls None) as H.
  destruct (findNextLoop h ls None) as [s|]; [|by destruct H].
  destruct H as [(l1 & l2 & Hls & Hidle & Hnz & Hmin)|[Hc _]]; [|done].
  exists l1, l2. split_and!; [done|done|done|].
  destruct Hmin as [Hz|(H1 & H2 & _)]; [by left|by right].
Qed.

(** ** solution/async-sorted-merge.js: the steps of the loop, one by one *)

Section AsyncSteps.
Import AsyncRun.
Variable delay : nat -> nat.
Variable feeds : list (list Entry).

Local Abbreviation MAX := (length feeds * 10).

Lemma map_id_alter (f : Source -> Source) (h : list Source) (k : nat) :
  (forall x, id (f x) = id x) -> map id (alter f k h) = map id h.
Proof.
  intros Hf. destruct (h !! k) as [x|] eqn:Hk.
  - destruct (alter_split f _ _ _ Hk) as (l1 & l2 & -> & _ & ->).
    rewrite !map_app. simpl. by rewrite Hf.
  - by rewrite alter_out_of_range.
Qed.

Lemma base_alter (f : Source -> Source) (h : list Source) (k i : nat) :
  (forall x, base (f x) = base x) -> base (alter f k h !!! i) = base (h !!! i).
Proof.
  intros Hf. destruct (h !! k) as [x|] eqn:Hk.
  - destruct (decide (k = i)) as [->|Hne].
    + rewrite list_lookup_total_alter_eq by (by eapply lookup_lt_Some). apply Hf.
    + by rewrite list_lookup_total_alter_ne.
  - by rewrite alter_out_of_range.
Qed.

Lemma LoopHead_step (st : State) :
  Inv feeds st -> pc st = LoopHead ->
  (step delay MAX st = setPc Finished (printerDone st)
   /\ logSources st = [] /\ priorityQueue st = [])
  \/ exists st1 pc',
       step delay MAX st = setPc pc' st1
       /\ (st1 = st
           \/ exists s x,
                st1 = queueLogFromSource delay s st
                /\ findNextLogSourceToQueue (heap st) (logSources st) = Some s
                /\ s ∈ logSources st /\ heap st !! s = Some x
                /\ drained (base x) = false /\ loading x = false)
       /\ ((pc' = Awaiting /\ promiseQueue st1 <> [])
           \/ (pc' = Gate
               /\ (promiseQueue st1 = []
                   \/ allSourcesAreLoading (heap st1) (logSources st1) = false))).
Proof.
  intros [Hcore Hat Hpl] Hpc. unfold AtPc in Hat. rewrite Hpc in Hat.
  destruct Hat as (Hpend & Hlive & Hlen).
  unfold step. rewrite Hpc.
  destruct (continueLoop _ _) eqn:Hcont.
  2: { left. by apply continueLoop_false in Hcont as [Hls Hq]. }
  right.
  pose proof (core_room _ _ Hcore) as Hroom.
  pose proof (inFlight_all _ Hpend) as Hall.
  unfold priorityQueueIsFull, MinPriorityQueue.size.
  destruct (MAX <? length (priorityQueue st)) eqn:Hover.
  { apply Nat.ltb_lt in Hover. lia. }
  assert (Hdispatch : forall (st1 : State) (x y : bool),
    exists pc',
      (if (0 <? length (promiseQueue st1))
          && (x || y || allSourcesAreLoading (heap st1) (logSources st1))
       then setPc Awaiting st1 else setPc Gate st1) = setPc pc' st1
      /\ ((pc' = Awaiting /\ promiseQueue st1 <> [])
          \/ (pc' = Gate
              /\ (promiseQueue st1 = []
                  \/ allSourcesAreLoading (heap st1) (logSources st1) = false)))).
  { intros st1 x y.
    destruct ((0 <? length (promiseQueue st1))
              && (x || y || allSourcesAreLoading (heap st1) (logSources st1)))
      eqn:Hc.
    - exists Awaiting. split; [done|]. left. split; [done|].
      apply andb_true_iff in Hc as [Hpos _]. apply Nat.ltb_lt in Hpos.
      intros Heq. rewrite Heq in Hpos. simpl in Hpos. lia.
    - exists Gate. split; [done|]. right. split; [done|].
      apply andb_false_iff in Hc as [Hc|Hc].
      + left. apply Nat.ltb_ge in Hc. destruct (promiseQueue st1); [done|].
        simpl in Hc. lia.
      + right. apply orb_false_iff in Hc as [_ Hc]. done. }
  destruct (MAX <=? length (priorityQueue st) + length (promiseQueue st)) eqn:Hfull.
  { destruct (Hdispatch st true (promiseQueueIsFull (promiseQueue st) 50))
      as (pc' & Heq & Hpc').
    exists st, pc'. split_and!; [done|by left|done]. }
  unfold addNextLogToQueue.
  destruct (findNextLogSourceToQueue _ _) as [s|] eqn:Hfind.
  - destruct (Hdispatch (queueLogFromSource delay s st) false
                (promiseQueueIsFull (promiseQueue st) 50)) as (pc' & Heq & Hpc').
    exists (queueLogFromSource delay s st), pc'. split_and!; [done| |done].
    right. pose proof Hfind as (Hin & Hload & _)%findNext_Some.
    pose proof (core_sources _ _ Hcore) as Hs. rewrite Forall_forall in Hs.
    destruct (lookup_lt_is_Some_2 _ _ (Hs _ Hin)) as [x Hx].
    rewrite (lookup_total_Some _ _ _ Hx) in Hload.
    exists s, x. split_and!; try done.
    rewrite Forall_forall in Hlive. specialize (Hlive _ Hin).
    by rewrite (lookup_total_Some _ _ _ Hx) in Hlive.
  - destruct (Hdispatch st false (promiseQueueIsFull (promiseQueue st) 50))
      as (pc' & Heq & Hpc').
    exists st, pc'. split_and!; [done|by left|done].
Qed.

Lemma settle_fields (st : State) (k : nat) (p : Promise) :
  promiseQueue st !! k = Some p ->
  exists f,
    (forall x, base (f x) = base x /\ id (f x) = id x)
    /\ heap (settle k st) = alter f (owner p) (heap st)
    /\ logSources (settle k st) = logSources st
    /\ length (promiseQueue (settle k st)) = length (promiseQueue st)
    /\ issued (settle k st) = issued st
    /\ printer (settle k st) = printer st
    /\ pc (settle k st) = pc st.
Proof.
  intros Hk. unfold settle. rewrite Hk.
  destruct (answer _); eexists; fields;
    (split; [|split_and!; [reflexivity|done|by rewrite length_alter|done..]]);
    intros x; done.
Qed.

Lemma printNext_fields (st st' : State) :
  printNextLogFromQueue st = Ok st' ->
  exists f k,
    (forall x, base (f x) = base x /\ id (f x) = id x)
    /\ heap st' = alter f k (heap st)
    /\ logSources st' = logSources st
    /\ promiseQueue st' = promiseQueue st
    /\ issued st' = issued st
    /\ pc st' = pc st.
Proof.
  unfold printNextLogFromQueue, MinPriorityQueue.pop.
  destruct (priorityQueue st) as [|item rest]; [done|]. intros [= <-].
  eexists _, _. fields. split; [|split_and!; [reflexivity|done..]].
  intros x; done.
Qed.

Lemma Awaiting_step (st : State) :
  Inv feeds st -> pc st = Awaiting ->
  (exists k p, promiseQueue st !! k = Some p /\ pending p = true
     /\ step delay MAX st = settle k st /\ resolves st = false)
  \/ (step delay MAX st = setPc Gate (clearPromiseQueue st)
      /\ resolves st = true
      /\ 1 <= length (promiseQueue st) <= 51).
Proof.
  intros [Hcore Hat Hpl] Hpc. unfold AtPc in Hat. rewrite Hpc in Hat.
  destruct Hat as (Hne & Hlen & Hq).
  unfold step, resolves. rewrite Hpc.
  destruct (soonest (promiseQueue st)) as [k|] eqn:Hsoon.
  - left. apply soonest_Some in Hsoon as (p & Hk & Hp). by exists k, p.
  - right. split_and!; [done|done| |done].
    destruct (promiseQueue st); [done|simpl; lia].
Qed.

Lemma Gate_step (st : State) :
  Inv feeds st -> pc st = Gate ->
  (exists st', printNextLogFromQueue st = Ok st'
     /\ step delay MAX st = setPc Filter st')
  \/ step delay MAX st = setPc Filter st.
Proof.
  intros [Hcore Hat Hpl] Hpc. unfold AtPc in Hat. rewrite Hpc in Hat.
  destruct Hat as (Hpend & Hlen & Hq).
  unfold step. rewrite Hpc.
  destruct (allSourcesHaveBeenRead _ _) eqn:Hgate; [|by right].
  pose proof (gate_open_nonempty _ _ Hcore Hq Hgate) as Hne.
  destruct (printNextLogFromQueue st) as [st'|why] eqn:Hprint.
  - left. by exists st'.
  - unfold printNextLogFromQueue, MinPriorityQueue.pop in Hprint.
    destruct (priorityQueue st) as [|[]]; done.
Qed.

(** *** The calls of [popAsync] *)

Lemma fetchesLeft_queue (st : State) (s : nat) (x : Source) :
  heap st !! s = Some x -> drained (base x) = false ->
  S (sum_list_with fetchesLeft (heap (queueLogFromSource delay s st)))
  = sum_list_with fetchesLeft (heap st).
Proof.
  intros Hx Hd. unfold queueLogFromSource. fields.
  pose proof (sum_alter fetchesLeft
    (fun src => {| base := popAsync (base src); bufferCount := bufferCount src;
                   loading := true; id := id src |}) _ _ _ Hx) as Hsum.
  assert (S (fetchesLeft {| base := popAsync (base x); bufferCount := bufferCount x;
                           loading := true; id := id x |}) = fetchesLeft x) as Hf.
  { unfold fetchesLeft, popAsync, advance. fields. rewrite Hd.
    destruct (upcoming (base x)); simpl; by rewrite ?Hd. }
  lia.
Qed.

Lemma fetchesLeft_alter (f : Source -> Source) (h : list Source) (k : nat) :
  (forall x, base (f x) = base x) ->
  sum_list_with fetchesLeft (alter f k h) = sum_list_with fetchesLeft h.
Proof.
  intros Hf. apply sum_alter_same. intros x. unfold fetchesLeft. by rewrite Hf.
Qed.

Lemma ids_initializeSources (sources : list LogSource) :
  map id (initializeSources sources) = seq 1 (length sources).
Proof.
  unfold initializeSources. generalize 1 as c.
  assert (H : forall (c : nat) (l : list LogSource),
    map id (imap (fun index s =>
              {| base := s; bufferCount := 0; loading := false; id := index + c |}) l)
    = seq c (length l)).
  { intros c l. revert c. induction l as [|s l IH]; intros c; [done|].
    rewrite imap_cons. simpl. f_equal. rewrite <- IH. f_equal.
    apply imap_ext. intros i x _. simpl. f_equal. lia. }
  intros c. apply H.
Qed.

Lemma Fetches_start : Fetches feeds (start (sourcesOf feeds)).
Proof.
  assert (Hlen : length (sourcesOf feeds) = length feeds)
    by (unfold sourcesOf; by rewrite length_map).
  constructor; simpl.
  - unfold initializeSources.
    rewrite (sum_imap _ _ (fun s => if drained s then 0 else S (length (upcoming s))))
      by done.
    unfold sourcesOf. clear Hlen. induction feeds as [|f fs IH]; [done|].
    simpl. rewrite length_app, IH. lia.
  - by rewrite ids_initializeSources, Hlen.
  - done.
Qed.

Lemma Fetches_step (st : State) :
  Inv feeds st -> Fetches feeds st -> Fetches feeds (step delay MAX st).
Proof.
  intros Hinv [Hiss Hids Hnone]. pose proof Hinv as [Hcore Hat Hpl].
  destruct (pc st) eqn:Hpc.
  - (* the head of the loop *)
    unfold AtPc in Hat. rewrite Hpc in Hat. destruct Hat as (Hpend & Hlive & Hlen).
    destruct (LoopHead_step st Hinv Hpc)
      as [(-> & Hls & Hq)|(st1 & pc' & -> & Hst1 & Hpc')].
    { constructor; fields; [done|done|by apply Hnone]. }
    destruct Hst1 as [->|(s & x & -> & Hfind & Hin & Hx & Hd & Hl)].
    + constructor; fields; [done|done|].
      destruct Hpc' as [[-> _]|[-> Hgate]]; [done|].
      intros Hall. destruct (logSources st) as [|i ls] eqn:Hls; [by apply Hnone|].
      apply Forall_cons in Hall as [Hi _]. apply Forall_cons in Hlive as [Hi' _].
      congruence.
    + constructor.
      * pose proof (fetchesLeft_queue st s x Hx Hd) as Hsum.
        fields. unfold queueLogFromSource in *. fields. lia.
      * unfold queueLogFromSource. fields. by rewrite map_id_alter.
      * fields. destruct Hpc' as [[-> _]|[-> Hgate]]; [done|].
        intros Hall. exfalso. destruct Hgate as [Hq|Hnot].
        { unfold queueLogFromSource in Hq. fields. by destruct (promiseQueue st). }
        unfold queueLogFromSource in Hall, Hnot. fields.
        assert (Hs : s < length (heap st)) by (by eapply lookup_lt_Some).
        assert (Hall' : forall i, i ∈ logSources st -> i = s).
        { intros i Hi. destruct (decide (i = s)) as [|Hne]; [done|].
          rewrite Forall_forall in Hall, Hlive.
          specialize (Hall i Hi). specialize (Hlive i Hi).
          rewrite list_lookup_total_alter_ne in Hall by done. congruence. }
        unfold allSourcesAreLoading in Hnot.
        assert (forallb
                  (fun i => loading (alter
                     (fun src => {| base := popAsync (base src);
                                    bufferCount := bufferCount src;
                                    loading := true; id := id src |}) s (heap st) !!! i))
                  (logSources st) = true) as Hyes; [|congruence].
        apply forallb_forall. intros i Hi%list_elem_of_In.
        rewrite (Hall' i Hi). by rewrite list_lookup_total_alter_eq.
  - (* inside the await *)
    destruct (Awaiting_step st Hinv Hpc)
      as [(k & p & Hk & Hp & -> & _)|(-> & _ & _)].
    + destruct (settle_fields st k p Hk)
        as (f & Hf & Hh & Hls & Hlen & His & _ & Hpc').
      constructor.
      * rewrite His, Hh. rewrite fetchesLeft_alter; [done|]. intros x. apply Hf.
      * rewrite Hh. rewrite map_id_alter; [done|]. intros x. apply Hf.
      * by rewrite Hpc', Hpc.
    + constructor; by fields.
  - (* the gate *)
    destruct (Gate_step st Hinv Hpc) as [(st' & Hprint & ->)| ->].
    + destruct (printNext_fields st st' Hprint)
        as (f & k & Hf & Hh & Hls & Hq & His & Hpc').
      constructor; fields.
      * rewrite His, Hh. rewrite fetchesLeft_alter; [done|]. intros x. apply Hf.
      * rewrite Hh. rewrite map_id_alter; [done|]. intros x. apply Hf.
      * rewrite Hq, Hls, Hh. intros Hall. apply Hnone.
        eapply Forall_impl; [exact Hall|]. intros i Hi. simpl in Hi.
        rewrite base_alter in Hi; [done|]. intros x. apply Hf.
    + constructor; by fields.
  - (* the filter *)
    unfold step. rewrite Hpc. constructor; fields; [done|done|].
    intros Hnil. apply Hnone. apply Forall_forall. intros i Hi.
    destruct (drained (base (heap st !!! i))) eqn:Hd; [done|].
    exfalso. eapply (filter_nil_not_elem_of _ _ i Hnil); done.
  - unfold step. rewrite Hpc. constructor; [done|done|by rewrite Hpc].
  - unfold step. rewrite Hpc. constructor; [done|done|by rewrite Hpc].
Qed.

Lemma Fetches_run (n : nat) (st : State) :
  Inv feeds st -> Fetches feeds st -> Fetches feeds (run delay MAX n st).
Proof.
  revert st. induction n as [|n IH]; intros st Hinv Hf; [done|].
  simpl. apply IH; [by apply Inv_step|by apply Fetches_step].
Qed.

Lemma Fetches_asyncSortedMerge (n : nat) :
  Fetches feeds (asyncSortedMerge delay feeds n).
Proof. apply Fetches_run; [apply Inv_start|apply Fetches_start]. Qed.

(** *** The batches that are awaited *)

Lemma run_S (n : nat) (st : State) :
  run delay MAX (S n) st = step delay MAX (run delay MAX n st).
Proof.
  replace (S n) with (n + 1) by lia. by rewrite run_add.
Qed.

Lemma awaitCounter_S (n : nat) (st : State) :
  awaitCounter delay MAX (S n) st
  = awaitCounter delay MAX n st
    + (if resolves (run delay MAX n st) then 1 else 0).
Proof.
  revert st. induction n as [|n IH]; intros st; [simpl; lia|].
  change (awaitCounter delay MAX (S (S n)) st)
    with ((if resolves st then 1 else 0)
          + awaitCounter delay MAX (S n) (step delay MAX st)).
  rewrite IH. simpl. lia.
Qed.

Lemma step_promises (st : State) :
  Inv feeds st ->
  (resolves st = true /\ promiseQueue (step delay MAX st) = []
   /\ issued (step delay MAX st) = issued st
   /\ 1 <= length (promiseQueue st) <= 51)
  \/ (resolves st = false
      /\ length (promiseQueue (step delay MAX st)) = length (promiseQueue st)
      /\ issued (step delay MAX st) = issued st)
  \/ (resolves st = false
      /\ length (promiseQueue (step delay MAX st)) = S (length (promiseQueue st))
      /\ issued (step delay MAX st) = S (issued st)).
Proof.
  intros Hinv. destruct (pc st) eqn:Hpc.
  - destruct (LoopHead_step st Hinv Hpc)
      as [(-> & Hls & Hq)|(st1 & pc' & -> & Hst1 & Hpc')].
    { right. left. unfold resolves. rewrite Hpc. by fields. }
    destruct Hst1 as [->|(s & x & -> & _)].
    + right. left. unfold resolves. rewrite Hpc. by fields.
    + right. right. unfold resolves, queueLogFromSource. rewrite Hpc. fields.
      rewrite length_app. simpl. split_and!; [done|lia|done].
  - destruct (Awaiting_step st Hinv Hpc)
      as [(k & p & Hk & Hp & -> & Hres)|(-> & Hres & Hlen)].
    + right. left.
      destruct (settle_fields st k p Hk) as (f & _ & _ & _ & Hlen & His & _).
      done.
    + left. by fields.
  - right. left. unfold resolves. rewrite Hpc.
    destruct (Gate_step st Hinv Hpc) as [(st' & Hprint & ->)| ->]; [|by fields].
    destruct (printNext_fields st st' Hprint)
      as (f & k & _ & _ & _ & Hq & His & _).
    fields. by rewrite Hq, His.
  - right. left. unfold step, resolves. rewrite Hpc. by fields.
  - right. left. unfold step, resolves. by rewrite Hpc.
  - right. left. unfold step, resolves. by rewrite Hpc.
Qed.

Lemma awaitCounter_bounds (n : nat) :
  let st := asyncSortedMerge delay feeds n in
  let c := awaitCounter delay MAX n (start (sourcesOf feeds)) in
  c + length (promiseQueue st) <= issued st
  /\ issued st <= 51 * c + length (promiseQueue st).
Proof.
  induction n as [|n IH]; [simpl; lia|].
  simpl in IH. unfold asyncSortedMerge in *. rewrite run_S, awaitCounter_S.
  pose proof (Inv_run delay feeds n _ (Inv_start feeds)) as Hinv.
  destruct (step_promises _ Hinv)
    as [(-> & -> & -> & Hlen)|[(-> & -> & ->)|(-> & -> & ->)]]; simpl; lia.
Qed.

End AsyncSteps.

(** ** solution/async-sorted-merge.js: whole runs *)

Section AsyncRunResults.
Import AsyncRun.
Variable delay : nat -> nat.
Variable feeds : list (list Entry).

Lemma fetchesLeft_Finished (st : State) :
  Inv feeds st -> pc st = Finished ->
  Forall (fun s => drained (base s) = true) (heap st).
Proof.
  intros [Hcore Hat _] Hpc. unfold AtPc in Hat. rewrite Hpc in Hat.
  destruct Hat as (Hls & _). apply Forall_forall. intros s Hs.
  apply list_elem_of_lookup in Hs as [i Hi].
  apply (core_retired _ _ Hcore _ _ Hi). rewrite Hls. apply not_elem_of_nil.
Qed.

Lemma sum_fetchesLeft_drained (h : list Source) :
  Forall (fun s => drained (base s) = true) h -> sum_list_with fetchesLeft h = 0.
Proof.
  induction 1 as [|s h Hs _ IH]; [done|].
  simpl. rewrite IH. unfold fetchesLeft. by rewrite Hs.
Qed.

Lemma async_Finished (m : nat) :
  pc (asyncSortedMerge delay feeds (enough feeds + m)) = Finished.
Proof.
  apply run_finishes; [apply Inv_start|]. unfold enough. lia.
Qed.

Lemma issued_Finished (st : State) :
  Inv feeds st -> Fetches feeds st -> pc st = Finished ->
  issued st = length (concat feeds) + length feeds.
Proof.
  intros Hinv Hf Hpc. pose proof (fetches_issued _ _ Hf) as His.
  rewrite (sum_fetchesLeft_drained _ (fetchesLeft_Finished st Hinv Hpc)) in His.
  lia.
Qed.

End AsyncRunResults.

Lemma timestamps_prints (es : list Entry) :
  timestamps (map (fun e => EvPrint (Some e)) es ++ [EvDone]) = map date es.
Proof.
  unfold timestamps, entries, printed. induction es as [|e es IH]; [done|].
  simpl. f_equal. exact IH.
Qed.

Lemma chronological_dates (es : list Entry) :
  chronological es -> Sorted Z.le (map date es).
Proof.
  induction 1 as [|e es Hs IH Hhd]; [constructor|].
  simpl. constructor; [done|]. destruct Hhd; constructor. done.
Qed.

Lemma sorted_dates (es l : list Entry) :
  chronological es -> es ≡ₚ l ->
  map date es = merge_sort Z.le (map date l).
Proof.
  intros Hs Hp. apply (Sorted_unique Z.le).
  - by apply chronological_dates.
  - apply Sorted_merge_sort. apply _.
  - rewrite merge_sort_Permutation. by rewrite Hp.
Qed.

Lemma threeSources_chronological : Forall chronological threeSources.
Proof.
  unfold threeSources, chronological.
  repeat constructor; unfold earlier; simpl; lia.
Defined.

Lemma threeSources_not_empty : Forall (fun f => f <> []) threeSources.
Proof. unfold threeSources. repeat constructor; discriminate. Defined.

(** X8.  The calls of [popAsync].  At every point of every run the number
    of calls made so far is at most the number of entries plus the number
    of sources, and when the function is over it is exactly that: as many
    calls as it takes to fetch every entry and to find every source
    drained.  A step that makes a call makes it on a source that is
    neither drained nor loading, and no other step changes the count. *)
Theorem async_calls_popAsync_until_drained
    (delay : nat -> nat) (feeds : list (list Entry)) (n m : nat) :
  let st := asyncSortedMerge delay feeds n in
  let st' := step delay (length feeds * 10) st in
  issued st <= length (concat feeds) + length feeds
  /\ issued (asyncSortedMerge delay feeds (enough feeds + m))
     = length (concat feeds) + length feeds
  /\ (issued st' = issued st
      \/ exists s x,
           heap st !! s = Some x
           /\ drained (base x) = false /\ loading x = false
           /\ issued st' = S (issued st)
           /\ heap st' = heap (queueLogFromSource delay s st)).
Proof.
  intros st st'.
  pose proof (Inv_asyncSortedMerge delay feeds n) as Hinv. fold st in Hinv.
  split_and!.
  - pose proof (AsyncRun.fetches_issued _ _
                  (Fetches_asyncSortedMerge delay feeds n)) as His.
    fold st in His. lia.
  - apply issued_Finished;
      [apply Inv_asyncSortedMerge|apply Fetches_asyncSortedMerge
      |apply async_Finished].
  - unfold st'. destruct (pc st) eqn:Hpc.
    + destruct (LoopHead_step delay feeds st Hinv Hpc)
        as [(-> & _)|(st1 & pc' & -> & Hst1 & _)]; [by left|].
      destruct Hst1 as [->|(s & x & -> & _ & _ & Hx & Hd & Hl)]; [by left|].
      right. by exists s, x.
    + left. destruct (Awaiting_step delay feeds st Hinv Hpc)
        as [(k & p & Hk & _ & -> & _)|(-> & _)]; [|done].
      by destruct (settle_fields st k p Hk) as (f & _ & _ & _ & _ & His & _).
    + left. destruct (Gate_step delay feeds st Hinv Hpc)
        as [(st1 & Hprint & ->)| ->]; [|done].
      by destruct (printNext_fields st st1 Hprint)
        as (f & k & _ & _ & _ & _ & His & _).
    + left. unfold step. by rewrite Hpc.
    + left. unfold step. by rewrite Hpc.
    + left. unfold step. by rewrite Hpc.
Qed.

(** X12.  No entry is lost or duplicated on the way.  At every point of every
    run each entry of each feed is in exactly one place: it has been
    printed, or it is in the priority queue, or it is the entry that a
    pending promise will deliver, or its source has still to produce it. *)
Theorem async_holds_every_entry_once
    (delay : nat -> nat) (feeds : list (list Entry)) (n : nat) :
  let st := asyncSortedMerge delay feeds n in
  emitted st ++ map log (priorityQueue st) ++ concat (map future (heap st))
  ≡ₚ concat feeds.
Proof.
  intros st.
  apply (core_all _ _ (inv_core _ _ (Inv_asyncSortedMerge delay feeds n))).
Qed.

(** X14.  When the exported function is over nothing is left behind: the promise
    queue and the priority queue are empty, no source is listed, and every
    source is drained, is not loading and has [bufferCount] 0. *)
Theorem async_leaves_nothing_behind
    (delay : nat -> nat) (feeds : list (list Entry)) (m : nat) :
  let st := asyncSortedMerge delay feeds (enough feeds + m) in
  pc st = Finished
  /\ promiseQueue st = [] /\ priorityQueue st = [] /\ logSources st = []
  /\ length (heap st) = length feeds
  /\ Forall (fun s => drained (base s) = true /\ loading s = false
                      /\ bufferCount s = 0%Z) (heap st).
Proof.
  intros st.
  pose proof (Inv_asyncSortedMerge delay feeds (enough feeds + m)) as Hinv.
  pose proof (Fetches_asyncSortedMerge delay feeds (enough feeds + m)) as Hf.
  pose proof (async_Finished delay feeds m) as Hpc.
  fold st in Hinv, Hf, Hpc.
  pose proof (AsyncRun.fetches_none_left _ _ Hf) as Hnone. rewrite Hpc in Hnone.
  pose proof Hinv as [Hcore Hat _]. unfold AtPc in Hat. rewrite Hpc in Hat.
  destruct Hat as (Hls & Hq & _).
  split_and!; [done|done|done|done|apply (core_heap _ _ Hcore)|].
  apply Forall_forall. intros s Hs.
  apply list_elem_of_lookup in Hs as [i Hi]. split_and!.
  - apply (core_retired _ _ Hcore _ _ Hi). rewrite Hls. apply not_elem_of_nil.
  - pose proof (core_loading _ _ Hcore _ _ Hi) as Hl. rewrite Hnone in Hl.
    by destruct (loading s).
  - rewrite (core_count _ _ Hcore _ _ Hi), Hq. done.
Qed.

(** X7.  [initializeSources] numbers the sources from 1 in the order of the
    input, and nothing changes these numbers afterwards: at every point of
    every run the source at position [i] has [id] equal to [i + 1]. *)
Theorem async_ids_number_the_sources
    (delay : nat -> nat) (feeds : list (list Entry)) (n : nat) :
  map id (initializeSources (sourcesOf feeds)) = seq 1 (length feeds)
  /\ map id (heap (asyncSortedMerge delay feeds n)) = seq 1 (length feeds).
Proof.
  split.
  - rewrite ids_initializeSources. unfold sourcesOf. by rewrite length_map.
  - apply (AsyncRun.fetches_ids _ _ (Fetches_asyncSortedMerge delay feeds n)).
Qed.

(** X10.  [awaitCounter] at the end of a run.  A batch that the loop awaits
    holds at least one promise and at most 51, and every promise is
    awaited, so the number of batches lies between the number of calls of
    [popAsync] divided by 51 and that number.  It is 0 exactly when there
    is no source at all, the case in which the average
    [totalTimes.awaiting / awaitCounter] of the final report is 0/0. *)
Theorem async_awaitCounter_at_the_end
    (delay : nat -> nat) (feeds : list (list Entry)) (m : nat) :
  let c := AsyncRun.awaitCounter delay (length feeds * 10) (enough feeds + m)
             (start (sourcesOf feeds)) in
  c <= length (concat feeds) + length feeds <= 51 * c
  /\ (c = 0 <-> feeds = []).
Proof.
  intros c.
  pose proof (awaitCounter_bounds delay feeds (enough feeds + m)) as Hb.
  simpl in Hb. fold c in Hb.
  pose proof (Inv_asyncSortedMerge delay feeds (enough feeds + m)) as Hinv.
  pose proof (Fetches_asyncSortedMerge delay feeds (enough feeds + m)) as Hf.
  pose proof (async_Finished delay feeds m) as Hpc.
  pose proof (issued_Finished feeds _ Hinv Hf Hpc) as His.
  pose proof (AsyncRun.fetches_none_left _ _ Hf) as Hnone. rewrite Hpc in Hnone.
  rewrite Hnone, His in Hb. simpl in Hb.
  split; [lia|]. split.
  - intros Hc. destruct feeds; [done|]. simpl in Hb. lia.
  - intros Hnil. rewrite Hnil in Hb. simpl in Hb. lia.
Qed.

(** X13.  An entry is printed only when no earlier entry remains.  When the
    entries of each source are in chronological order, at every point of
    every run the entries printed so far are in chronological order, and
    each of them is dated no later than every entry that is still in the
    priority queue, in flight or to be produced by a source. *)
Theorem async_prints_the_earliest_entry_first
    (delay : nat -> nat) (feeds : list (list Entry)) (n : nat) :
  Forall chronological feeds ->
  let st := asyncSortedMerge delay feeds n in
  chronological (emitted st)
  /\ printed (printer st) = map Some (emitted st)
  /\ forall p x, p ∈ emitted st -> x ∈ pool st -> earlier p x.
Proof.
  intros Hs st.
  assert (Hord : Ord st).
  { apply Ord_run; [apply Inv_start|by apply Ord_start]. }
  split_and!.
  - by apply emitted_sorted.
  - apply printed_emitted. apply (inv_printer feeds), Inv_asyncSortedMerge.
  - apply (ord_floor _ Hord).
Qed.

(** The scenario with three sources, after 40 steps. *)
Lemma async_prints_the_earliest_entry_first_witness :
  Forall chronological threeSources
  /\ chronological (emitted (asyncSortedMerge atOnce threeSources 40)).
Proof.
  split; [exact threeSources_chronological|].
  exact (proj1 (async_prints_the_earliest_entry_first atOnce threeSources 40
                  threeSources_chronological)).
Defined.

(** X16.  The order of completion of the fetches does not show in the output.
    When the entries of each source are in chronological order, the
    timestamps that the asynchronous merge prints are the timestamps of all
    the entries, sorted: the same sequence for every order of completion. *)
Theorem async_prints_the_sorted_timestamps
    (delay : nat -> nat) (feeds : list (list Entry)) :
  Forall chronological feeds ->
  timestamps (printer (asyncSortedMerge delay feeds (enough feeds)))
  = merge_sort Z.le (map date (concat feeds)).
Proof.
  intros Hs.
  destruct (async_run_output delay feeds) as (_ & es & -> & Hperm & Hsorted).
  rewrite timestamps_prints. apply sorted_dates; [by apply Hsorted|done].
Qed.

(** The scenario with three sources. *)
Lemma async_prints_the_sorted_timestamps_witness :
  Forall chronological threeSources
  /\ timestamps (printer (asyncSortedMerge atOnce threeSources (enough threeSources)))
     = merge_sort Z.le (map date (concat threeSources)).
Proof.
  split; [exact threeSources_chronological|].
  exact (async_prints_the_sorted_timestamps atOnce threeSources
           threeSources_chronological).
Defined.

(** X20.  The two solutions agree.  When no source is empty from the start and
    the entries of each source are in chronological order, the synchronous
    merge and the asynchronous merge print the same sequence of
    timestamps, whatever the order of completion of the fetches. *)
Theorem sync_and_async_print_the_same_timestamps
    (delay : nat -> nat) (feeds : list (list Entry)) :
  Forall (fun f => f <> []) feeds ->
  Forall chronological feeds ->
  exists out,
    Sync.syncSortedMerge (sourcesOf feeds) (length (concat feeds)) = Some out
    /\ timestamps out
       = timestamps (printer (asyncSortedMerge delay feeds (enough feeds))).
Proof.
  intros Hfull Hs.
  destruct (sync_run_output feeds Hfull) as (es & -> & Hperm & Hsorted).
  eexists. split; [done|].
  destruct (async_run_output delay feeds) as (_ & es' & -> & Hperm' & Hsorted').
  rewrite !timestamps_prints.
  rewrite (sorted_dates es (concat feeds)) by auto.
  by rewrite (sorted_dates es' (concat feeds)) by auto.
Qed.

(** The scenario with three sources. *)
Lemma sync_and_async_print_the_same_timestamps_witness :
  Forall (fun f => f <> []) threeSources
  /\ Forall chronological threeSources
  /\ exists out,
       Sync.syncSortedMerge (sourcesOf threeSources) (length (concat threeSources))
       = Some out
       /\ timestamps out
          = timestamps (printer (asyncSortedMerge atOnce threeSources
                                   (enough threeSources))).
Proof.
  split; [exact threeSources_not_empty|].
  split; [exact threeSources_chronological|].
  exact (sync_and_async_print_the_same_timestamps atOnce threeSources
           threeSources_not_empty threeSources_chronological).
Defined.

(** The scenario with three sources, for [sync_output]. *)
Lemma sync_output_witness :
  Forall (fun f => f <> []) threeSources
  /\ exists es,
       Sync.syncSortedMerge (sourcesOf threeSources) (length (concat threeSources))
       = Some (map (fun e => EvPrint (Some e)) es ++ [EvDone])
       /\ es ≡ₚ concat threeSources
       /\ (Forall chronological threeSources -> chronological es).
Proof.
  split; [exact threeSources_not_empty|].
  exact (sync_output threeSources threeSources_not_empty).
Defined.

(** ** solution/async-sorted-merge.js: the size of a batch *)

Lemma owners_NoDup (l : list Promise) :
  (forall i, length (filter (fun p => owner p = i) l) <= 1) ->
  NoDup (map owner l).
Proof.
  induction l as [|p l IH]; intros Hone; [constructor|].
  simpl. constructor.
  - intros Hin. apply list_elem_of_In, in_map_iff in Hin as (q & Hq & Hin).
    specialize (Hone (owner p)). rewrite filter_cons_True in Hone by done.
    simpl in Hone.
    assert (q ∈ filter (fun p0 => owner p0 = owner p) l) as Hq'.
    { apply list_elem_of_filter. split; [done|by apply list_elem_of_In]. }
    destruct (filter (fun p0 => owner p0 = owner p) l); [|simpl in Hone; lia].
    by apply elem_of_nil in Hq'.
  - apply IH. intros i. specialize (Hone i).
    destruct (decide (owner p = i)) as [Heq|Hne].
    + rewrite filter_cons_True in Hone by done. simpl in Hone. lia.
    + by rewrite filter_cons_False in Hone.
Qed.

Lemma pending_within_sources (feeds : list (list Entry)) (st : State) :
  Core feeds st ->
  Forall (fun p => pending p = true) (promiseQueue st) ->
  length (promiseQueue st) <= length feeds.
Proof.
  intros Hcore Hpend. rewrite <- (length_map owner).
  apply NoDup_bounded.
  - apply owners_NoDup. intros i.
    pose proof (inFlight_all _ Hpend) as Hall.
    destruct (heap st !! i) as [s|] eqn:Hs.
    + pose proof (core_loading _ _ Hcore _ _ Hs) as Hl.
      unfold fetching in Hl. rewrite Hall in Hl. destruct (loading s); lia.
    + destruct (filter (fun p => owner p = i) (promiseQueue st)) as [|p r] eqn:Hf;
        [simpl; lia|]. exfalso.
      assert (p ∈ filter (fun p => owner p = i) (promiseQueue st)) as Hp
        by (rewrite Hf; by left).
      apply list_elem_of_filter in Hp as [Ho Hin].
      pose proof (core_promises _ _ Hcore) as Hpr. rewrite Forall_forall in Hpr.
      apply Hpr in Hin. apply lookup_ge_None in Hs. lia.
  - rewrite <- (core_heap _ _ Hcore). apply Forall_forall. intros i Hi.
    apply list_elem_of_In, in_map_iff in Hi as (p & <- & Hp).
    pose proof (core_promises _ _ Hcore) as Hpr. rewrite Forall_forall in Hpr.
    by apply Hpr, list_elem_of_In.
Qed.

(** X9.  A batch never holds more promises than there are sources.  At every
    point of every run the promise queue holds at most one promise for each
    source, so its length is at most the number of sources (and at most
    51); with few sources the loop awaits few fetches at a time. *)
Theorem async_promiseQueue_within_the_sources
    (delay : nat -> nat) (feeds : list (list Entry)) (n : nat) :
  let st := asyncSortedMerge delay feeds n in
  length (promiseQueue st) <= length feeds
  /\ length (promiseQueue st) <= 51
  /\ NoDup (map owner (inFlight (promiseQueue st))).
Proof.
  intros st. split_and!.
  - unfold st. clear st. induction n as [|n IH]; [simpl; lia|].
    unfold asyncSortedMerge in *. rewrite run_S.
    pose proof (Inv_run delay feeds n _ (Inv_start feeds)) as Hinv.
    set (st := run delay (length feeds * 10) n (start (sourcesOf feeds))) in *.
    pose proof (Inv_step delay feeds st Hinv) as [Hcore' Hat' _].
    destruct (pc st) eqn:Hpc.
    + destruct (LoopHead_step delay feeds st Hinv Hpc)
        as [(-> & _)|(st1 & pc' & Hstep & Hst1 & _)]; [by fields|].
      rewrite Hstep in *. fields.
      destruct Hst1 as [->|(s & x & -> & _)]; [done|].
      apply (pending_within_sources feeds (setPc pc' (queueLogFromSource delay s st)));
        [done|].
      pose proof (inv_pc _ _ Hinv) as Hat. unfold AtPc in Hat. rewrite Hpc in Hat.
      destruct Hat as (Hpend & _). unfold queueLogFromSource. fields.
      apply Forall_app. split; [done|]. by constructor.
    + destruct (Awaiting_step delay feeds st Hinv Hpc)
        as [(k & p & Hk & _ & -> & _)|(-> & _)]; [|fields; simpl; lia].
      destruct (settle_fields st k p Hk) as (f & _ & _ & _ & Hlen & _).
      by rewrite Hlen.
    + destruct (Gate_step delay feeds st Hinv Hpc)
        as [(st1 & Hprint & ->)| ->]; [|by fields].
      destruct (printNext_fields st st1 Hprint)
        as (f & k & _ & _ & _ & Hq & _).
      fields. by rewrite Hq.
    + unfold step. rewrite Hpc. by fields.
    + unfold step. by rewrite Hpc.
    + unfold step. by rewrite Hpc.
  - pose proof (inv_pc _ _ (Inv_asyncSortedMerge delay feeds n)) as Hat.
    fold st in Hat. unfold AtPc in Hat. destruct (pc st).
    + destruct Hat as (_ & _ & ?). lia.
    + destruct Hat as (_ & ? & _). lia.
    + destruct Hat as (_ & ? & _). lia.
    + destruct Hat as (_ & ?). lia.
    + destruct Hat as (_ & _ & ?). lia.
    + done.
  - pose proof (inv_core _ _ (Inv_asyncSortedMerge delay feeds n)) as Hcore.
    fold st in Hcore. apply owners_NoDup. intros i.
    destruct (heap st !! i) as [s|] eqn:Hs.
    + pose proof (core_loading _ _ Hcore _ _ Hs) as Hl.
      unfold fetching in Hl. destruct (loading s); lia.
    + destruct (filter (fun p => owner p = i) (inFlight (promiseQueue st)))
        as [|p r] eqn:Hf; [simpl; lia|]. exfalso.
      assert (p ∈ filter (fun p => owner p = i) (inFlight (promiseQueue st))) as Hp
        by (rewrite Hf; by left).
      apply list_elem_of_filter in Hp as [Ho Hin].
      unfold inFlight in Hin. apply list_elem_of_filter in Hin as [_ Hin].
      pose proof (core_promises _ _ Hcore) as Hpr. rewrite Forall_forall in Hpr.
      apply Hpr in Hin. apply lookup_ge_None in Hs. lia.
Qed.

(** ** solution/async-sorted-merge.js: the number of iterations *)

Section AsyncLoopFacts.
Import AsyncLoop.
Variable delay : nat -> nat.
Variable feeds : list (list Entry).

Local Abbreviation MAX := (length feeds * 10).

Lemma iterations_S (n : nat) (st : State) :
  iterations delay MAX (S n) st
  = iterations delay MAX n st
    + (if endsIteration (run delay MAX n st) then 1 else 0).
Proof.
  revert st. induction n as [|n IH]; intros st; [simpl; lia|].
  change (iterations delay MAX (S (S n)) st)
    with ((if endsIteration st then 1 else 0)
          + iterations delay MAX (S n) (step delay MAX st)).
  rewrite IH. simpl. lia.
Qed.

Lemma iterations_upper (n : nat) :
  iterations delay MAX n (start (sourcesOf feeds))
  + (measure (asyncSortedMerge delay feeds n) + 4) / 8
  <= 5 * (length (concat feeds) + length feeds).
Proof.
  induction n as [|n IH].
  - pose proof (enough_value feeds) as He. unfold enough in He.
    unfold asyncSortedMerge. simpl run. rewrite He. simpl iterations.
    assert ((40 * (length (concat feeds) + length feeds) + 3 + 4) / 8
            = 5 * (length (concat feeds) + length feeds)) as ->; [|lia].
    symmetry. apply Nat.div_unique with 7; lia.
  - unfold asyncSortedMerge in *. rewrite run_S, iterations_S.
    pose proof (Inv_run delay feeds n _ (Inv_start feeds)) as Hinv.
    set (st := run delay MAX n (start (sourcesOf feeds))) in *.
    unfold endsIteration. destruct (pc st) eqn:Hpc.
    + pose proof (measure_step delay feeds st Hinv ltac:(by rewrite Hpc)) as Hm.
      pose proof (Nat.Div0.div_le_mono (measure (step delay MAX st) + 4)
                    (measure st + 4) 8 ltac:(lia)). lia.
    + pose proof (measure_step delay feeds st Hinv ltac:(by rewrite Hpc)) as Hm.
      pose proof (Nat.Div0.div_le_mono (measure (step delay MAX st) + 4)
                    (measure st + 4) 8 ltac:(lia)). lia.
    + pose proof (measure_step delay feeds st Hinv ltac:(by rewrite Hpc)) as Hm.
      pose proof (Nat.Div0.div_le_mono (measure (step delay MAX st) + 4)
                    (measure st + 4) 8 ltac:(lia)). lia.
    + assert (Hbefore : measure st = 8 * potential st + 4).
      { unfold measure, rank. by rewrite Hpc. }
      assert (Hafter : measure (step delay MAX st) = 8 * potential st + 3).
      { unfold step. rewrite Hpc. unfold measure, rank, potential. by fields. }
      rewrite Hbefore in IH. rewrite Hafter.
      assert ((8 * potential st + 4 + 4) / 8 = S (potential st)) as Hb.
      { symmetry. apply Nat.div_unique with 0; lia. }
      assert ((8 * potential st + 3 + 4) / 8 = potential st) as Ha.
      { symmetry. apply Nat.div_unique with 7; lia. }
      rewrite Hb in IH. rewrite Ha. lia.
    + unfold step. rewrite Hpc. lia.
    + unfold step. rewrite Hpc. lia.
Qed.

Lemma iterations_lower (n : nat) :
  let st := asyncSortedMerge delay feeds n in
  issued st
  <= iterations delay MAX n (start (sourcesOf feeds))
     + match pc st with Awaiting | Gate | Filter => 1 | _ => 0 end.
Proof.
  induction n as [|n IH]; [simpl; lia|].
  simpl in IH. unfold asyncSortedMerge in *. rewrite run_S, iterations_S.
  pose proof (Inv_run delay feeds n _ (Inv_start feeds)) as Hinv.
  set (st := run delay MAX n (start (sourcesOf feeds))) in *.
  unfold endsIteration. destruct (pc st) eqn:Hpc.
  + destruct (LoopHead_step delay feeds st Hinv Hpc)
      as [(-> & _)|(st1 & pc' & -> & Hst1 & Hpc')]; [fields; lia|].
    assert (issued st1 <= S (issued st)) as Hle.
    { destruct Hst1 as [->|(s & x & -> & _)]; [lia|].
      unfold queueLogFromSource. fields. lia. }
    fields. destruct Hpc' as [[-> _]|[-> _]]; lia.
  + destruct (Awaiting_step delay feeds st Hinv Hpc)
      as [(k & p & Hk & _ & -> & _)|(-> & _)]; [|fields; lia].
    destruct (settle_fields st k p Hk) as (f & _ & _ & _ & _ & His & _ & Hpc').
    rewrite His, Hpc', Hpc. lia.
  + destruct (Gate_step delay feeds st Hinv Hpc)
      as [(st1 & Hprint & ->)| ->]; [|fields; lia].
    destruct (printNext_fields st st1 Hprint)
      as (f & k & _ & _ & _ & _ & His & _).
    fields. rewrite His. lia.
  + unfold step. rewrite Hpc. fields. lia.
  + unfold step. rewrite Hpc. rewrite Hpc. lia.
  + unfold step. rewrite Hpc. rewrite Hpc. lia.
Qed.

End AsyncLoopFacts.

(** X11.  The loop is linear in the number of entries and sources.  Each
    iteration calls [popAsync] at most once, so the loop makes at least as
    many iterations as there are entries and sources together; and it makes
    at most five times as many, whatever the order in which the fetches
    complete. *)
Theorem async_loop_iterations
    (delay : nat -> nat) (feeds : list (list Entry)) (m : nat) :
  let k := AsyncLoop.iterations delay (length feeds * 10) (enough feeds + m)
             (start (sourcesOf feeds)) in
  length (concat feeds) + length feeds <= k
  /\ k <= 5 * (length (concat feeds) + length feeds).
Proof.
  intros k. split.
  - pose proof (iterations_lower delay feeds (enough feeds + m)) as Hl.
    simpl in Hl. fold k in Hl.
    pose proof (async_Finished delay feeds m) as Hpc. rewrite Hpc in Hl.
    rewrite (issued_Finished feeds _ (Inv_asyncSortedMerge delay feeds _)
               (Fetches_asyncSortedMerge delay feeds _) Hpc) in Hl. lia.
  - pose proof (iterations_upper delay feeds (enough feeds + m)) as Hu.
    fold k in Hu. lia.
Qed.

(** ** solution/sync-sorted-merge.js: what the queue gives back *)

Section SyncOrderFacts.
Import Sync SyncRun.

Lemma sync_Inv_Ord_iter (feeds : list (list Entry)) (n : nat) (st : State) :
  Inv feeds (length feeds) st -> Ord st ->
  Inv feeds (length feeds) (Nat.iter n body st) /\ Ord (Nat.iter n body st).
Proof.
  intros Hinv Hord. induction n as [|n [IHi IHo]]; [done|].
  simpl. destruct (pq (Nat.iter n body st)) as [|item rq] eqn:Hq.
  - assert (Hstay : forall x : State, pq x = [] -> body x = x).
    { intros x Hx. unfold body, MinPriorityQueue.pop. by rewrite Hx. }
    by rewrite (Hstay _ Hq).
  - split.
    + apply sync_Inv_body; [done|by rewrite Hq].
    + apply (sync_Ord_body feeds); [done|done|by rewrite Hq].
Qed.

Lemma sync_head_earliest (feeds : list (list Entry)) (st : State)
    (item : Item) (rq : list Item) :
  Inv feeds (length feeds) st -> Ord st -> pq st = item :: rq ->
  exists e,
    log item = Some e
    /\ printer (body st) = printer st ++ [EvPrint (Some e)]
    /\ forall x, x ∈ pool st -> earlier e x.
Proof.
  intros Hinv [Hqs Hr Hi He Hfl] Hq.
  pose proof Hinv as [Hh Hit Hnd Hfr Hlv Hud Hall Hpr].
  rewrite Hq in Hit. pose proof Hit as Hit0.
  apply Forall_cons in Hit as [[[e Hlog] Hlt] Hit].
  rewrite <- Hh in Hlt. destruct (lookup_lt_is_Some_2 _ _ Hlt) as [s Hs].
  assert (Hd : drained s = false).
  { rewrite <- (lookup_total_Some _ _ _ Hs). apply Hud. rewrite Hq. by left. }
  assert (Hhead : queued (item :: rq) = e :: queued rq).
  { unfold queued. simpl. by rewrite Hlog. }
  rewrite Hq, Hhead in Hqs.
  exists e. split_and!; [done| |].
  - by rewrite (sync_body_refill st item rq e s).
  - intros x [Hx|(j & sj & Hj & Hx)]%sync_pool_elem.
    + rewrite Hq, Hhead in Hx. by eapply head_smallest.
    + destruct (Hlv j sj) as [(y & Hy & Hsrc)|Hnil];
        [rewrite <- Hh; by eapply lookup_lt_Some|done| |].
      * rewrite Hq in Hy. rewrite Forall_forall in Hit0.
        destruct (Hit0 _ Hy) as [[ey Hey] _].
        transitivity ey.
        -- apply (head_smallest _ (queued rq)); [done|].
           rewrite <- Hhead. by eapply queued_elem.
        -- eapply Hi; [rewrite Hq; exact Hy|done|].
           by rewrite Hsrc, (lookup_total_Some _ _ _ Hj).
      * rewrite Hnil in Hx. by apply elem_of_nil in Hx.
Qed.

(** X21.  The queue gives back the earliest entry of all.  When no source
    is empty from the start and the entries of each source are in
    chronological order, at every iteration of the second loop the item
    that [pq.pop()] returns holds an entry, it is the entry that is
    printed, and it is dated no later than any entry that is still in the
    queue or that a source has still to produce; the entries printed so
    far are in chronological order. *)
Theorem sync_pops_the_earliest_entry (feeds : list (list Entry)) (n : nat) :
  Forall (fun f => f <> []) feeds ->
  Forall chronological feeds ->
  let st := Nat.iter n body (syncFilled feeds) in
  chronological (emitted st)
  /\ (forall p x, p ∈ emitted st -> x ∈ pool st -> earlier p x)
  /\ (forall item rq, pq st = item :: rq ->
        exists e,
          log item = Some e
          /\ printer (body st) = printer st ++ [EvPrint (Some e)]
          /\ forall x, x ∈ pool st -> earlier e x).
Proof.
  intros Hfull Hs st.
  pose proof (sync_Inv_fill feeds (length feeds) 0 _ Hfull eq_refl
                (sync_Inv_start feeds)) as Hinv.
  pose proof (sync_Ord_fill feeds (length feeds) 0 _ Hfull eq_refl
                (sync_Inv_start feeds) (sync_Ord_start feeds Hs)) as Hord.
  destruct (sync_Inv_Ord_iter feeds n _ Hinv Hord) as [Hinv' Hord'].
  fold (syncFilled feeds) in Hinv', Hord'. fold st in Hinv', Hord'.
  split_and!.
  - apply StronglySorted_Sorted, (ord_emitted st Hord').
  - apply (ord_floor st Hord').
  - intros item rq Hq. by apply (sync_head_earliest feeds st item rq).
Qed.

End SyncOrderFacts.

(** The scenario with three sources, after four iterations. *)
Lemma sync_pops_the_earliest_entry_witness :
  Forall (fun f => f <> []) threeSources
  /\ Forall chronological threeSources
  /\ chronological
       (Sync.emitted (Nat.iter 4 Sync.body (SyncRun.syncFilled threeSources))).
Proof.
  split; [exact threeSources_not_empty|].
  split; [exact threeSources_chronological|].
  exact (proj1 (sync_pops_the_earliest_entry threeSources 4
                  threeSources_not_empty threeSources_chronological)).
Defined.

(** ** The heap of the package *)

Section HeapFacts.
Context {A : Type} `{!Inhabited A}.
Variable compare : A -> A -> Z.

Lemma shouldSwap_range (nodes : list A) (p c : Z) :
  Heap.shouldSwap compare nodes p c = true ->
  (0 <= p < Z.of_nat (length nodes))%Z /\ (0 <= c < Z.of_nat (length nodes))%Z
  /\ (0 < compare (Heap.node nodes p) (Heap.node nodes c))%Z.
Proof.
  unfold Heap.shouldSwap, Heap.size.
  destruct ((p <? 0)%Z || (Z.of_nat (length nodes) <=? p)%Z) eqn:Hp; [done|].
  destruct ((c <? 0)%Z || (Z.of_nat (length nodes) <=? c)%Z) eqn:Hc; [done|].
  apply orb_false_iff in Hp as [Hp1 Hp2]. apply orb_false_iff in Hc as [Hc1 Hc2].
  intros H%Z.ltb_lt. lia.
Qed.

Lemma swap_length (nodes : list A) (i j : Z) :
  length (Heap.swap nodes i j) = length nodes.
Proof. unfold Heap.swap. by rewrite !length_insert. Qed.

Lemma insert_head_Permutation (l : list A) (j : nat) (x a : A) :
  l !! j = Some x -> x :: <[j := a]> l ≡ₚ a :: l.
Proof.
  revert j. induction l as [|y l IH]; intros [|j] Hj; simplify_eq/=.
  - apply Permutation_swap.
  - rewrite (Permutation_swap y x (<[j:=a]> l)). rewrite (IH _ Hj).
    apply Permutation_swap.
Qed.

Lemma swap_nat_Permutation (l : list A) (i j : nat) :
  i < length l -> j < length l ->
  <[j := l !!! i]> (<[i := l !!! j]> l) ≡ₚ l.
Proof.
  revert i j. induction l as [|a l IH]; intros i j Hi Hj; simpl in *; [lia|].
  destruct i as [|i], j as [|j]; simpl.
  - done.
  - destruct (lookup_lt_is_Some_2 l j ltac:(lia)) as [x Hx].
    rewrite (list_lookup_total_correct _ _ _ Hx).
    by apply insert_head_Permutation.
  - destruct (lookup_lt_is_Some_2 l i ltac:(lia)) as [x Hx].
    rewrite (list_lookup_total_correct _ _ _ Hx).
    by apply insert_head_Permutation.
  - constructor. apply IH; lia.
Qed.

Lemma swap_Permutation (nodes : list A) (i j : Z) :
  (0 <= i < Z.of_nat (length nodes))%Z -> (0 <= j < Z.of_nat (length nodes))%Z ->
  Heap.swap nodes i j ≡ₚ nodes.
Proof.
  intros Hi Hj. unfold Heap.swap, Heap.node. apply swap_nat_Permutation; lia.
Qed.

Lemma heapifyUpLoop_Permutation (turns : nat) (nodes : list A) (c : Z) :
  Heap.heapifyUpLoop compare turns nodes c ≡ₚ nodes.
Proof.
  revert nodes c. induction turns as [|turns IH]; intros nodes c; [done|].
  simpl. destruct (Heap.shouldSwap _ _ _ _) eqn:Hs; [|done].
  apply shouldSwap_range in Hs as (Hp & Hc & _).
  rewrite IH. by apply swap_Permutation.
Qed.

Lemma heapifyDownLoop_Permutation (turns : nat) (nodes : list A) (p : Z) :
  Heap.heapifyDownLoop compare turns nodes p ≡ₚ nodes.
Proof.
  revert nodes p. induction turns as [|turns IH]; intros nodes p; [done|].
  simpl. destruct (Heap.shouldSwap _ _ _ _) eqn:Hs; [|done].
  apply shouldSwap_range in Hs as (Hp & Hc & _).
  rewrite IH. by apply swap_Permutation.
Qed.

Lemma heap_insert_Permutation (x : A) (nodes : list A) :
  Heap.insert compare x nodes ≡ₚ x :: nodes.
Proof.
  unfold Heap.insert, Heap.heapifyUp. rewrite heapifyUpLoop_Permutation.
  by rewrite Permutation_app_comm.
Qed.

Lemma heap_extractRoot_None (nodes : list A) :
  Heap.extractRoot compare nodes = None <-> nodes = [].
Proof. unfold Heap.extractRoot. by destruct nodes. Qed.

Lemma heap_extractRoot_Permutation (nodes : list A) (root : A) (rest : list A) :
  Heap.extractRoot compare nodes = Some (root, rest) ->
  nodes !! 0 = Some root /\ root :: rest ≡ₚ nodes.
Proof.
  unfold Heap.extractRoot. destruct nodes as [|r tl]; [done|].
  intros [= <- <-]. split; [done|]. constructor.
  unfold Heap.heapifyDown. rewrite heapifyDownLoop_Permutation.
  destruct tl as [|b tl] using rev_ind; [done|]. clear IHtl.
  unfold Heap.node, Heap.size.
  assert (Hlast : (r :: tl ++ [b]) !!! Z.to_nat (Z.of_nat (length (r :: tl ++ [b])) - 1)
                  = b).
  { simpl. rewrite length_app. simpl.
    replace (Z.to_nat (Z.of_nat (S (length tl + 1)) - 1)) with (S (length tl)) by lia.
    simpl. apply list_lookup_total_correct.
    rewrite lookup_app_r by lia. by rewrite Nat.sub_diag. }
  rewrite Hlast.
  change (removelast ((b :: tl) ++ [b]) ≡ₚ tl ++ [b]).
  rewrite removelast_last. symmetry. apply (Permutation_app_comm tl [b]).
Qed.

(** The loops of the heap end by themselves: more turns than the array
    has nodes change nothing. *)
Lemma heapifyUpLoop_turns (turns extra : nat) (nodes : list A) (c : Z) :
  (c < Z.of_nat turns)%Z ->
  Heap.heapifyUpLoop compare (turns + extra) nodes c
  = Heap.heapifyUpLoop compare turns nodes c.
Proof.
  revert nodes c. induction turns as [|turns IH]; intros nodes c Hc.
  - destruct extra as [|extra]; [done|]. simpl.
    destruct (Heap.shouldSwap _ _ _ _) eqn:Hs; [|done].
    apply shouldSwap_range in Hs as (Hp & Hc' & _). lia.
  - simpl. destruct (Heap.shouldSwap _ _ _ _) eqn:Hs; [|done].
    apply shouldSwap_range in Hs as (Hp & Hc' & _).
    apply IH. assert ((c - 1) / 2 < c)%Z; [|lia].
    apply Z.div_lt_upper_bound; lia.
Qed.

Lemma compareChildrenOf_range (nodes : list A) (p : Z) :
  let c := Heap.compareChildrenOf compare nodes p in
  c = (-1)%Z \/ c = (p * 2 + 1)%Z \/ c = (p * 2 + 2)%Z.
Proof.
  unfold Heap.compareChildrenOf.
  destruct (negb _ && negb _); [by left|].
  destruct (negb (Heap.hasLeftChild nodes p)); [by right; right|].
  destruct (negb (Heap.hasRightChild nodes p)); [by right; left|].
  destruct (0 <? _)%Z; [by right; right|by right; left].
Qed.

Lemma heapifyDownLoop_turns (turns extra : nat) (nodes : list A) (p : Z) :
  (Z.of_nat (length nodes) - p <= Z.of_nat turns)%Z ->
  Heap.heapifyDownLoop compare (turns + extra) nodes p
  = Heap.heapifyDownLoop compare turns nodes p.
Proof.
  revert nodes p. induction turns as [|turns IH]; intros nodes p Hp.
  - destruct extra as [|extra]; [done|]. simpl.
    destruct (Heap.shouldSwap _ _ _ _) eqn:Hs; [|done].
    apply shouldSwap_range in Hs as (Hp' & Hc' & _). lia.
  - simpl. destruct (Heap.shouldSwap _ _ _ _) eqn:Hs; [|done].
    apply shouldSwap_range in Hs as (Hp' & Hc' & _).
    apply IH. rewrite swap_length.
    pose proof (compareChildrenOf_range nodes p) as Hc. simpl in Hc. lia.
Qed.

End HeapFacts.

(** ** The order of the heap when every item has a priority *)

Section HeapOrder.
Context {A : Type} `{!Inhabited A}.
Variable key : A -> option Z.

#[local] Abbreviation compare := (HeapQueue.getMinCompare key).
#[local] Abbreviation inOrder := (HeapQueue.inOrder key).
#[local] Abbreviation keyed := (HeapQueue.keyed key).
#[local] Abbreviation ordered := (HeapQueue.ordered key).

Ltac divlia := Z.to_euclidean_division_equations; lia.

Lemma compare_pos (a b : A) :
  (0 < compare a b)%Z <-> lessOrEqual (key a) (key b) = false.
Proof.
  unfold HeapQueue.getMinCompare. destruct (lessOrEqual _ _); split; (done || lia).
Qed.

Lemma inOrder_trans (a b c : A) : inOrder a b -> inOrder b c -> inOrder a c.
Proof.
  unfold HeapQueue.inOrder, lessOrEqual.
  destruct (key a), (key b), (key c); try done.
  intros ?%Z.leb_le ?%Z.leb_le. apply Z.leb_le. lia.
Qed.

Lemma inOrder_refl (a : A) : is_Some (key a) -> inOrder a a.
Proof.
  intros [x Hx]. unfold HeapQueue.inOrder. rewrite Hx. simpl. apply Z.leb_le. lia.
Qed.

Lemma not_inOrder (a b : A) :
  is_Some (key a) -> is_Some (key b) ->
  lessOrEqual (key a) (key b) = false -> inOrder b a.
Proof.
  intros [x Hx] [y Hy]. unfold HeapQueue.inOrder. rewrite Hx, Hy. simpl.
  intros ?%Z.leb_gt. apply Z.leb_le. lia.
Qed.

Lemma keyed_node (nodes : list A) (i : Z) :
  keyed nodes -> (0 <= i < Heap.size nodes)%Z -> is_Some (key (Heap.node nodes i)).
Proof.
  intros Hk Hi. unfold Heap.node, Heap.size in *.
  destruct (lookup_lt_is_Some_2 nodes (Z.to_nat i) ltac:(lia)) as [x Hx].
  rewrite (list_lookup_total_correct _ _ _ Hx).
  unfold HeapQueue.keyed in Hk. rewrite Forall_forall in Hk.
  apply Hk. by eapply list_elem_of_lookup_2.
Qed.

Lemma swap_size (nodes : list A) (i j : Z) :
  Heap.size (Heap.swap nodes i j) = Heap.size nodes.
Proof. unfold Heap.size. by rewrite swap_length. Qed.

Lemma node_swap (nodes : list A) (i j k : Z) :
  (0 <= i < Heap.size nodes)%Z -> (0 <= j < Heap.size nodes)%Z ->
  (0 <= k < Heap.size nodes)%Z ->
  Heap.node (Heap.swap nodes i j) k
  = if decide (k = j) then Heap.node nodes i
    else if decide (k = i) then Heap.node nodes j
    else Heap.node nodes k.
Proof.
  unfold Heap.size, Heap.swap, Heap.node. intros Hi Hj Hk.
  destruct (decide (k = j)) as [->|Hkj].
  - rewrite list_lookup_total_insert_eq; [done|]. rewrite length_insert. lia.
  - rewrite list_lookup_total_insert_ne by lia.
    destruct (decide (k = i)) as [->|Hki].
    + rewrite list_lookup_total_insert_eq; [done|lia].
    + by rewrite list_lookup_total_insert_ne by lia.
Qed.

Lemma keyed_swap (nodes : list A) (i j : Z) :
  (0 <= i < Heap.size nodes)%Z -> (0 <= j < Heap.size nodes)%Z ->
  keyed nodes -> keyed (Heap.swap nodes i j).
Proof.
  intros Hi Hj Hk. unfold HeapQueue.keyed.
  rewrite swap_Permutation; [done| |]; unfold Heap.size in *; lia.
Qed.

(** [_heapifyUp] restores the order of a heap that is in order everywhere
    but between [c] and its parent. *)
Lemma heapifyUpLoop_ordered (turns : nat) (nodes : list A) (c : Z) :
  keyed nodes -> (0 <= c < Heap.size nodes)%Z -> (c < Z.of_nat turns)%Z ->
  (forall i, (0 < i < Heap.size nodes)%Z -> i <> c ->
     inOrder (Heap.node nodes ((i - 1) / 2)) (Heap.node nodes i)) ->
  (forall j, (0 < c)%Z -> (0 < j < Heap.size nodes)%Z -> ((j - 1) / 2 = c)%Z ->
     inOrder (Heap.node nodes ((c - 1) / 2)) (Heap.node nodes j)) ->
  ordered (Heap.heapifyUpLoop compare turns nodes c).
Proof.
  revert nodes c. induction turns as [|turns IH]; intros nodes c Hk Hc Ht Ha Hb; [lia|].
  simpl. destruct (Heap.shouldSwap _ _ _ _) eqn:Hs.
  - apply shouldSwap_range in Hs as (Hp & _ & Hcmp). fold (Heap.size nodes) in Hp.
    apply compare_pos in Hcmp.
    set (p := ((c - 1) / 2)%Z) in *.
    assert (Hcp : (0 < c)%Z) by (subst p; divlia).
    assert (Hpc : (p < c)%Z) by (subst p; divlia).
    assert (Hlt : inOrder (Heap.node nodes c) (Heap.node nodes p)).
    { apply not_inOrder; [apply keyed_node|apply keyed_node|]; (done || lia). }
    apply IH.
    + apply keyed_swap; (done || lia).
    + rewrite swap_size. lia.
    + lia.
    + rewrite swap_size. intros i Hi Hne.
      rewrite !node_swap by (lia || divlia).
      destruct (decide (i = c)) as [->|Hic].
      * fold p. rewrite decide_False by lia. by rewrite decide_True.
      * rewrite (decide_False (P := i = p)) by done.
        destruct (decide (((i - 1) / 2)%Z = c)) as [Hq|Hq].
        -- apply (Hb i); (done || lia).
        -- destruct (decide (((i - 1) / 2)%Z = p)) as [Hq'|Hq'].
           ++ eapply inOrder_trans; [exact Hlt|]. rewrite <- Hq'. by apply Ha.
           ++ by apply Ha.
    + rewrite swap_size. intros j Hp0 Hj Hjp.
      assert (Hg : (((p - 1) / 2) < p)%Z) by divlia.
      rewrite !node_swap by (lia || divlia).
      rewrite (decide_False (P := ((p - 1) / 2)%Z = c)) by lia.
      rewrite (decide_False (P := ((p - 1) / 2)%Z = p)) by lia.
      assert (Hgp : inOrder (Heap.node nodes ((p - 1) / 2)) (Heap.node nodes p)).
      { apply Ha; lia. }
      destruct (decide (j = c)) as [->|Hjc]; [done|].
      rewrite decide_False by divlia.
      eapply inOrder_trans; [exact Hgp|]. rewrite <- Hjp. apply Ha; (done || lia).
  - intros i Hi. destruct (decide (i = c)) as [->|Hne]; [|by apply Ha].
    unfold Heap.shouldSwap in Hs.
    rewrite orb_false_intro in Hs by (apply Z.ltb_ge || apply Z.leb_gt; divlia).
    rewrite orb_false_intro in Hs by (apply Z.ltb_ge || apply Z.leb_gt; lia).
    apply Z.ltb_ge in Hs. unfold HeapQueue.inOrder.
    unfold HeapQueue.getMinCompare in Hs.
    destruct (lessOrEqual _ _); [done|lia].
Qed.

Lemma node_app_l (nodes : list A) (x : A) (i : Z) :
  (0 <= i < Heap.size nodes)%Z -> Heap.node (nodes ++ [x]) i = Heap.node nodes i.
Proof.
  unfold Heap.size, Heap.node. intros Hi.
  apply list_lookup_total_correct. rewrite lookup_app_l by lia.
  apply list_lookup_lookup_total_lt. lia.
Qed.

(** [insert] keeps the order of the heap. *)
Lemma heap_insert_ordered (x : A) (nodes : list A) :
  keyed nodes -> is_Some (key x) -> ordered nodes ->
  ordered (Heap.insert compare x nodes).
Proof.
  intros Hk Hx Ho. unfold Heap.insert, Heap.heapifyUp.
  assert (Hsize : Heap.size (nodes ++ [x]) = (Heap.size nodes + 1)%Z).
  { unfold Heap.size. rewrite length_app. simpl. lia. }
  assert (Hpos : (0 <= Heap.size nodes)%Z) by (unfold Heap.size; lia).
  apply heapifyUpLoop_ordered.
  - apply Forall_app. split; [done|]. by constructor.
  - lia.
  - unfold Heap.size. lia.
  - rewrite Hsize. intros i Hi Hne.
    rewrite !node_app_l by (lia || divlia). apply Ho. lia.
  - rewrite Hsize. intros j Hc Hj Hjc. exfalso. divlia.
Qed.

Lemma compareChildrenOf_least (nodes : list A) (p : Z) :
  keyed nodes -> (0 <= p)%Z ->
  let c := Heap.compareChildrenOf compare nodes p in
  (c = (-1)%Z /\ (Heap.size nodes <= p * 2 + 1)%Z)
  \/ ((p < c < Heap.size nodes)%Z
      /\ ((c - 1) / 2 = p)%Z
      /\ forall j, (0 < j < Heap.size nodes)%Z -> ((j - 1) / 2 = p)%Z ->
           inOrder (Heap.node nodes c) (Heap.node nodes j)).
Proof.
  intros Hk Hp. unfold Heap.compareChildrenOf, Heap.hasLeftChild, Heap.hasRightChild.
  destruct (p * 2 + 1 <? Heap.size nodes)%Z eqn:Hl;
    destruct (p * 2 + 2 <? Heap.size nodes)%Z eqn:Hr; simpl;
    try apply Z.ltb_lt in Hl; try apply Z.ltb_lt in Hr;
    try apply Z.ltb_ge in Hl; try apply Z.ltb_ge in Hr.
  - destruct (0 <? _)%Z eqn:Hcmp.
    + apply Z.ltb_lt, compare_pos in Hcmp. right. split; [lia|]. split; [divlia|].
      intros j Hj Hjp.
      assert (Hcase : j = (p * 2 + 1)%Z \/ j = (p * 2 + 2)%Z) by divlia.
      destruct Hcase as [->| ->].
      * apply not_inOrder; [apply keyed_node|apply keyed_node|]; (done || lia).
      * apply inOrder_refl, keyed_node; (done || lia).
    + apply Z.ltb_ge in Hcmp. right. split; [lia|]. split; [divlia|].
      intros j Hj Hjp.
      assert (Hcase : j = (p * 2 + 1)%Z \/ j = (p * 2 + 2)%Z) by divlia.
      destruct Hcase as [->| ->].
      * apply inOrder_refl, keyed_node; (done || lia).
      * unfold HeapQueue.inOrder. unfold HeapQueue.getMinCompare in Hcmp.
        destruct (lessOrEqual _ _); [done|lia].
  - right. split; [lia|]. split; [divlia|].
    intros j Hj Hjp. assert (j = (p * 2 + 1)%Z) as -> by divlia.
    apply inOrder_refl, keyed_node; (done || lia).
  - lia.
  - left. split; [done|lia].
Qed.

(** [_heapifyDown] restores the order of a heap that is in order everywhere
    but between [p] and its children. *)
Lemma heapifyDownLoop_ordered (turns : nat) (nodes : list A) (p : Z) :
  keyed nodes -> (0 <= p)%Z -> (Heap.size nodes - p <= Z.of_nat turns)%Z ->
  (forall i, (0 < i < Heap.size nodes)%Z -> ((i - 1) / 2)%Z <> p ->
     inOrder (Heap.node nodes ((i - 1) / 2)) (Heap.node nodes i)) ->
  (forall j, (0 < p)%Z -> (0 < j < Heap.size nodes)%Z -> ((j - 1) / 2 = p)%Z ->
     inOrder (Heap.node nodes ((p - 1) / 2)) (Heap.node nodes j)) ->
  ordered (Heap.heapifyDownLoop compare turns nodes p).
Proof.
  revert nodes p. induction turns as [|turns IH]; intros nodes p Hk Hp Ht Ha Hb.
  { simpl. intros i Hi. apply Ha; [done|]. divlia. }
  simpl. pose proof (compareChildrenOf_least nodes p Hk Hp) as Hleast.
  simpl in Hleast. set (c := Heap.compareChildrenOf compare nodes p) in *.
  destruct (Heap.shouldSwap _ _ _ _) eqn:Hs.
  - apply shouldSwap_range in Hs as (Hpr & Hcr & Hcmp).
    fold (Heap.size nodes) in Hpr, Hcr. apply compare_pos in Hcmp.
    destruct Hleast as [[Hc _]|(Hc & Hcp & Hmin)]; [lia|].
    assert (Hlt : inOrder (Heap.node nodes c) (Heap.node nodes p)).
    { apply not_inOrder; [apply keyed_node|apply keyed_node|]; (done || lia). }
    apply IH.
    + apply keyed_swap; (done || lia).
    + lia.
    + rewrite swap_size. lia.
    + rewrite swap_size. intros i Hi Hne.
      rewrite !node_swap by (lia || divlia).
      destruct (decide (i = c)) as [->|Hic].
      * rewrite Hcp. rewrite decide_False by lia. by rewrite decide_True.
      * destruct (decide (i = p)) as [->|Hip].
        -- rewrite decide_False by done.
           rewrite (decide_False (P := ((p - 1) / 2)%Z = p)) by divlia.
           apply Hb; (done || lia).
        -- rewrite decide_False by done.
           destruct (decide (((i - 1) / 2)%Z = p)) as [Hq|Hq]; [by apply Hmin|].
           by apply Ha.
    + rewrite swap_size. intros j Hc0 Hj Hjc.
      rewrite !node_swap by (lia || divlia).
      rewrite Hcp. rewrite (decide_False (P := p = c)) by lia.
      rewrite decide_True by done.
      rewrite (decide_False (P := j = c)) by divlia.
      rewrite (decide_False (P := j = p)) by divlia.
      rewrite <- Hjc. apply Ha; [done|]. lia.
  - intros i Hi. destruct (decide (((i - 1) / 2)%Z = p)) as [Hq|Hq]; [|by apply Ha].
    destruct Hleast as [[_ Hsize]|(Hc & Hcp & Hmin)]; [exfalso; divlia|].
    eapply inOrder_trans; [|by apply Hmin]. rewrite Hq.
    unfold Heap.shouldSwap in Hs.
    rewrite orb_false_intro in Hs by (apply Z.ltb_ge || apply Z.leb_gt; divlia).
    rewrite orb_false_intro in Hs by (apply Z.ltb_ge || apply Z.leb_gt; lia).
    apply Z.ltb_ge in Hs. unfold HeapQueue.inOrder.
    unfold HeapQueue.getMinCompare in Hs.
    destruct (lessOrEqual _ _); [done|lia].
Qed.

(** The root of a heap in order comes no later than any node. *)
Lemma ordered_root (nodes : list A) (i : Z) :
  keyed nodes -> ordered nodes -> (0 <= i < Heap.size nodes)%Z ->
  inOrder (Heap.node nodes 0) (Heap.node nodes i).
Proof.
  intros Hk Ho. assert (Hall : forall (n : nat) (i : Z),
    (0 <= i < Heap.size nodes)%Z -> (i < Z.of_nat n)%Z ->
    inOrder (Heap.node nodes 0) (Heap.node nodes i)).
  { induction n as [|n IH]; intros j Hj Hn; [lia|].
    destruct (decide (j = 0%Z)) as [->|Hne].
    - by apply inOrder_refl, keyed_node.
    - eapply inOrder_trans; [|apply Ho; lia].
      apply IH; divlia. }
  intros Hi. apply (Hall (S (Z.to_nat i))); lia.
Qed.

(** [extractRoot] gives back a node that comes no later than any other, and
    keeps the order of the heap. *)
Lemma heap_extractRoot_ordered (nodes rest : list A) (root : A) :
  keyed nodes -> ordered nodes ->
  Heap.extractRoot compare nodes = Some (root, rest) ->
  keyed rest /\ ordered rest /\ forall x, x ∈ rest -> inOrder root x.
Proof.
  intros Hk Ho Hx.
  destruct (heap_extractRoot_Permutation _ _ _ _ Hx) as [Hroot Hperm].
  assert (Hkr : keyed rest).
  { unfold HeapQueue.keyed in *. rewrite <- Hperm in Hk.
    by apply Forall_cons in Hk as [_ Hk]. }
  split_and!; [done| |].
  - unfold Heap.extractRoot in Hx. destruct nodes as [|r tl]; [done|].
    injection Hx as _ <-. unfold Heap.heapifyDown.
    destruct tl as [|b tl] using rev_ind.
    { simpl. intros i Hi. unfold Heap.size in Hi. simpl in Hi. lia. }
    clear IHtl.
    assert (Hlast : Heap.node (r :: tl ++ [b]) (Heap.size (r :: tl ++ [b]) - 1) = b).
    { unfold Heap.node, Heap.size. simpl. rewrite length_app. simpl.
      replace (Z.to_nat (Z.of_nat (S (length tl + 1)) - 1)) with (S (length tl)) by lia.
      simpl. apply list_lookup_total_correct.
      rewrite lookup_app_r by lia. by rewrite Nat.sub_diag. }
    rewrite Hlast.
    change (ordered (Heap.heapifyDownLoop compare
              (length (removelast ((b :: tl) ++ [b])))
              (removelast ((b :: tl) ++ [b])) 0)).
    rewrite removelast_last.
    assert (Hsize : Heap.size (r :: tl ++ [b]) = (Heap.size (b :: tl) + 1)%Z).
    { unfold Heap.size. simpl. rewrite length_app. simpl. lia. }
    assert (Hnode : forall i, (0 < i < Heap.size (b :: tl))%Z ->
              Heap.node (b :: tl) i = Heap.node (r :: tl ++ [b]) i).
    { intros i Hi. unfold Heap.node, Heap.size in *. simpl in Hi.
      destruct (Z.to_nat i) as [|n] eqn:Hn; [lia|]. simpl.
      symmetry. apply list_lookup_total_correct. rewrite lookup_app_l by lia.
      apply list_lookup_lookup_total_lt. lia. }
    apply heapifyDownLoop_ordered.
    + unfold HeapQueue.keyed in *. apply Forall_cons in Hk as [_ Hk].
      apply Forall_app in Hk as [Hk1 Hk2]. apply Forall_cons. split; [|done].
      by apply Forall_cons in Hk2 as [Hk2 _].
    + lia.
    + unfold Heap.size. lia.
    + intros i Hi Hq. rewrite !Hnode by divlia. apply Ho. lia.
    + intros j Hj. lia.
  - intros x Hin.
    assert (Hin' : x ∈ nodes) by (rewrite <- Hperm; by right).
    apply list_elem_of_lookup in Hin' as [n Hn].
    assert (Hr : Heap.node nodes 0 = root).
    { unfold Heap.node. by apply list_lookup_total_correct. }
    assert (Hxn : Heap.node nodes (Z.of_nat n) = x).
    { unfold Heap.node. rewrite Nat2Z.id. by apply list_lookup_total_correct. }
    rewrite <- Hr, <- Hxn. apply ordered_root; [done|done|].
    apply lookup_lt_Some in Hn. unfold Heap.size. lia.
Qed.

End HeapOrder.

(** ** solution/sync-sorted-merge.js on the heap of the package, on every input *)

Section SyncHeapFacts.
Import Sync SyncRun.
#[local] Existing Instance SyncHeap.Item_inhabited.

Ltac sfields :=
  cbn [heap pq printer log source drained last upcoming] in *.

Lemma heapQueue_push_Permutation (x : Item) (q : list Item) :
  HeapQueue.push priority x q ≡ₚ x :: q.
Proof. apply heap_insert_Permutation. Qed.

Lemma heapQueue_pop_Some (q : list Item) :
  q <> [] ->
  exists item rq, HeapQueue.pop priority q = Some (item, rq) /\ item :: rq ≡ₚ q.
Proof.
  intros Hne. unfold HeapQueue.pop.
  destruct (Heap.extractRoot _ q) as [[item rq]|] eqn:Hx.
  - exists item, rq. split; [done|].
    by apply heap_extractRoot_Permutation in Hx as [_ Hx].
  - by apply heap_extractRoot_None in Hx.
Qed.

Lemma sameItems_sym (st st' : State) :
  SyncHeap.sameItems st st' -> SyncHeap.sameItems st' st.
Proof. intros (Hh & Hp & Hq). by split_and!. Qed.

Lemma syncTodo_sameItems (st st' : State) :
  SyncHeap.sameItems st st' -> syncTodo st = syncTodo st'.
Proof. intros (Hh & Hp & Hq). unfold syncTodo. by rewrite Hh, Hq. Qed.

Lemma SyncInv_sameItems (feeds : list (list Entry)) (k : nat) (st st' : State) :
  SyncHeap.sameItems st st' -> SyncInv feeds k st -> SyncInv feeds k st'.
Proof.
  intros (Hh & Hp & Hq) [H1 H2 H3 H4 H5 H6 H7 H8 H9].
  constructor; rewrite <- ?Hh, <- ?Hp.
  - done.
  - by rewrite <- Hq.
  - by rewrite <- Hq.
  - done.
  - intros it Hit. apply H5. by rewrite Hq.
  - intros i s Hi Hs. destruct (H6 i s Hi Hs) as [(it & Hit & Hsrc)|Hr]; [|by right].
    left. exists it. split; [by rewrite <- Hq|done].
  - unfold emitted, pool, queued in *. by rewrite <- Hh, <- Hp, <- Hq.
  - unfold falses in *. by rewrite <- Hq.
  - done.
Qed.

Lemma heap_fillOne_sameItems (s : nat) (st st' : State) :
  SyncHeap.sameItems st st' ->
  SyncHeap.sameItems (SyncHeap.fillOne s st) (fillOne s st').
Proof.
  intros (Hh & Hp & Hq). unfold SyncHeap.fillOne, fillOne. rewrite <- Hh.
  destruct (pop _) as [l src]. split_and!; sfields.
  - by rewrite Hh.
  - done.
  - by rewrite heapQueue_push_Permutation, push_Permutation, Hq.
Qed.

Lemma heap_fill_sameItems (ls : list nat) (st st' : State) :
  SyncHeap.sameItems st st' ->
  SyncHeap.sameItems (SyncHeap.fill ls st) (fill ls st').
Proof.
  revert st st'. induction ls as [|s ls IH]; intros st st' Hsim; [done|].
  simpl. apply IH. by apply heap_fillOne_sameItems.
Qed.

Lemma heap_body_sameItems (st : State) :
  pq st <> [] ->
  exists st1, SyncHeap.sameItems st st1 /\ pq st1 <> []
    /\ SyncHeap.sameItems (SyncHeap.body st) (body st1).
Proof.
  intros Hne. destruct (heapQueue_pop_Some _ Hne) as (item & rq & Hpop & Hperm).
  exists {| heap := heap st; pq := item :: rq; printer := printer st |}.
  split_and!; [by split_and!|done|].
  unfold SyncHeap.body, body, MinPriorityQueue.pop. rewrite Hpop. sfields.
  destruct (drained _); [by split_and!|].
  destruct (pop _) as [l src]. split_and!; sfields; [done|done|].
  destruct l; [|done].
  by rewrite heapQueue_push_Permutation, push_Permutation.
Qed.

Section Steps.
Variable feeds : list (list Entry).

Lemma SyncInv_heap_filled :
  SyncInv feeds (length feeds)
    (SyncHeap.fill (seq 0 (length feeds)) (start (sourcesOf feeds))).
Proof.
  eapply SyncInv_sameItems; [|apply (SyncInv_filled feeds)].
  apply sameItems_sym, heap_fill_sameItems. by split_and!.
Qed.

Lemma SyncInv_heap_body (st : State) :
  SyncInv feeds (length feeds) st -> pq st <> [] ->
  SyncInv feeds (length feeds) (SyncHeap.body st)
  /\ S (syncTodo (SyncHeap.body st)) = syncTodo st.
Proof.
  intros Hinv Hne.
  destruct (heap_body_sameItems st Hne) as (st1 & Hsim & Hne1 & Hsim').
  pose proof (SyncInv_sameItems _ _ _ _ Hsim Hinv) as Hinv1.
  destruct (SyncInv_body feeds st1 Hinv1) as [Hinv' Htodo].
  split.
  - eapply SyncInv_sameItems; [apply sameItems_sym; exact Hsim'|done].
  - rewrite (syncTodo_sameItems _ _ Hsim'), (syncTodo_sameItems _ _ Hsim).
    by apply Htodo.
Qed.

Lemma heap_loop_total (fuel : nat) (st : State) :
  SyncInv feeds (length feeds) st ->
  syncTodo st <= fuel ->
  exists st', SyncHeap.loop fuel st = Some st'
    /\ SyncInv feeds (length feeds) st' /\ pq st' = [].
Proof.
  revert st. induction fuel as [|fuel IH]; intros st Hinv Hlen.
  - destruct (pq st) as [|item rq] eqn:Hq.
    + exists st. simpl. by rewrite Hq.
    + exfalso. unfold syncTodo in Hlen. rewrite Hq in Hlen. simpl in Hlen. lia.
  - destruct (pq st) as [|item rq] eqn:Hq.
    + exists st. simpl. by rewrite Hq.
    + destruct (SyncInv_heap_body st Hinv ltac:(by rewrite Hq)) as [Hinv' Htodo].
      destruct (IH (SyncHeap.body st) Hinv' ltac:(lia)) as (st' & Hloop & Hst' & Hempty).
      exists st'. simpl. rewrite Hq. simpl. done.
Qed.

Lemma heap_loop_short (fuel : nat) (st : State) :
  SyncInv feeds (length feeds) st ->
  fuel < syncTodo st -> SyncHeap.loop fuel st = None.
Proof.
  revert st. induction fuel as [|fuel IH]; intros st Hinv Hlen.
  - destruct (pq st) as [|item rq] eqn:Hq; simpl; rewrite Hq; [|done].
    exfalso. unfold syncTodo in Hlen.
    rewrite (sync_rests_empty feeds st Hinv Hq), Hq in Hlen. simpl in Hlen. lia.
  - destruct (pq st) as [|item rq] eqn:Hq.
    + exfalso. unfold syncTodo in Hlen.
      rewrite (sync_rests_empty feeds st Hinv Hq), Hq in Hlen. simpl in Hlen. lia.
    + destruct (SyncInv_heap_body st Hinv ltac:(by rewrite Hq)) as [Hinv' Htodo].
      simpl. rewrite Hq. simpl. apply IH; [done|lia].
Qed.

End Steps.

(** The synchronous merge on the heap of the package returns on every
    input: its second loop makes one iteration for each entry and one for
    each source that is empty from the start.  Whatever the order in which
    the heap gives the items back, the printer has then received every
    entry of every feed exactly once, [false] once for each source that is
    empty from the start, and [done] as the last call. *)
Lemma syncHeap_run_on_every_input (feeds : list (list Entry)) (fuel : nat) :
  let needed := length (concat feeds) + emptyFeeds feeds in
  (fuel < needed -> SyncHeap.syncSortedMerge (sourcesOf feeds) fuel = None)
  /\ (needed <= fuel ->
      exists logs,
        SyncHeap.syncSortedMerge (sourcesOf feeds) fuel
        = Some (map EvPrint logs ++ [EvDone])
        /\ entries logs ≡ₚ concat feeds
        /\ falses logs = emptyFeeds feeds).
Proof.
  intros needed.
  assert (Hlen : length (sourcesOf feeds) = length feeds)
    by (unfold sourcesOf; by rewrite length_map).
  pose proof (SyncInv_heap_filled feeds) as Hinv.
  pose proof (syncTodo_value feeds _ _ Hinv) as Htodo.
  rewrite firstn_all in Htodo.
  assert (Hsim : SyncHeap.sameItems
            (SyncHeap.fill (seq 0 (length feeds)) (start (sourcesOf feeds)))
            (syncFilled feeds)).
  { apply heap_fill_sameItems. by split_and!. }
  assert (Hnone : printed (printer
            (SyncHeap.fill (seq 0 (length feeds)) (start (sourcesOf feeds)))) = []).
  { destruct Hsim as (_ & -> & _). unfold syncFilled. by rewrite fill_printer. }
  rewrite Hnone in Htodo. simpl in Htodo.
  unfold SyncHeap.syncSortedMerge. rewrite Hlen. split.
  - intros Hshort. rewrite (heap_loop_short feeds); [done|done|].
    fold needed in Htodo. lia.
  - intros Hfuel.
    destruct (heap_loop_total feeds fuel _ Hinv) as (st' & -> & Hinv' & Hq).
    { fold needed in Htodo. lia. }
    exists (printed (printer st')). split_and!.
    + by rewrite (sinv_printer _ _ _ Hinv') at 1.
    + pose proof (sinv_all _ _ _ Hinv') as Hall.
      assert (Hpool : pool st' = []).
      { unfold pool. by rewrite (sync_rests_empty feeds st' Hinv' Hq), Hq. }
      rewrite Hpool, app_nil_r in Hall. unfold emitted in Hall.
      by rewrite emitted_entries in Hall.
    + pose proof (sinv_false _ _ _ Hinv') as Hf.
      rewrite Hq in Hf. change (falses (map log [])) with 0 in Hf.
      rewrite firstn_all in Hf. lia.
Qed.

End SyncHeapFacts.

(** ** solution/sync-sorted-merge.js on the heap of the package: the order *)

Section SyncHeapOrder.
Import Sync SyncRun.
#[local] Existing Instance SyncHeap.Item_inhabited.

Ltac sfields :=
  cbn [heap pq printer log source drained last upcoming] in *.

Lemma keyed_items (q : list Item) (k : nat) :
  Forall (fun it => is_Some (log it) /\ source it < k) q ->
  HeapQueue.keyed priority q.
Proof.
  intros Hall. eapply Forall_impl; [exact Hall|].
  intros it [[e He] _]. unfold priority. rewrite He. by eexists.
Qed.

Lemma inOrder_earlier (a b : Item) (e x : Entry) :
  HeapQueue.inOrder priority a b -> log a = Some e -> log b = Some x ->
  earlier e x.
Proof.
  unfold HeapQueue.inOrder, priority, earlier. intros H Ha Hb.
  rewrite Ha, Hb in H. simpl in H. by apply Z.leb_le.
Qed.

(** The items of a queue, earliest first. *)
Lemma sorted_arrangement (q : list Item) :
  Forall (fun y => is_Some (log y)) q ->
  exists q', q' ≡ₚ q /\ StronglySorted earlier (queued q').
Proof.
  induction q as [|y q IH]; intros Hall.
  - exists []. split; [done|constructor].
  - apply Forall_cons in Hall as [[e He] Hall].
    destruct (IH Hall) as (q' & Hperm & Hsorted).
    exists (MinPriorityQueue.push before y q'). split.
    + by rewrite push_Permutation, Hperm.
    + apply (sync_push_sorted y e); [done| |done]. by rewrite Hperm.
Qed.

Lemma Inv_sameItems (feeds : list (list Entry)) (k : nat) (st st' : State) :
  SyncHeap.sameItems st st' -> Inv feeds k st -> Inv feeds k st'.
Proof.
  intros (Hh & Hp & Hq) [H1 H2 H3 H4 H5 H6 H7 H8].
  constructor; rewrite <- ?Hh, <- ?Hp.
  - done.
  - by rewrite <- Hq.
  - by rewrite <- Hq.
  - done.
  - intros i s Hi Hs. destruct (H5 i s Hi Hs) as [(it & Hit & Hsrc)|Hr]; [|by right].
    left. exists it. split; [by rewrite <- Hq|done].
  - intros it Hit. apply H6. by rewrite Hq.
  - unfold emitted, pool, queued in *. by rewrite <- Hh, <- Hp, <- Hq.
  - unfold emitted in *. by rewrite <- Hp.
Qed.

Lemma Ord_sameItems (st st' : State) :
  SyncHeap.sameItems st st' -> Ord st ->
  StronglySorted earlier (queued (pq st')) -> Ord st'.
Proof.
  intros (Hh & Hp & Hq) [H1 H2 H3 H4 H5] Hsorted.
  constructor; rewrite <- ?Hh.
  - done.
  - done.
  - intros it e x Hit. apply H3. by rewrite Hq.
  - unfold emitted in *. by rewrite <- Hp.
  - unfold emitted, pool, queued in *. intros p x.
    rewrite <- Hh, <- Hp, <- Hq. apply H5.
Qed.

Lemma heap_body_rearranged (st : State) (item : Item) (rq rq' : list Item) :
  HeapQueue.pop priority (pq st) = Some (item, rq) -> rq' ≡ₚ rq ->
  SyncHeap.sameItems (SyncHeap.body st)
    (body {| heap := heap st; pq := item :: rq'; printer := printer st |}).
Proof.
  intros Hpop Hperm.
  unfold SyncHeap.body, body, MinPriorityQueue.pop. rewrite Hpop. sfields.
  destruct (drained _); [by split_and!|].
  destruct (pop _) as [l src]. split_and!; sfields; [done|done|].
  destruct l; [|done].
  by rewrite heapQueue_push_Permutation, push_Permutation, Hperm.
Qed.

Lemma heap_body_queue (st : State) (item : Item) (rq : list Item) :
  HeapQueue.pop priority (pq st) = Some (item, rq) ->
  pq (SyncHeap.body st) = rq
  \/ exists e, pq (SyncHeap.body st)
       = HeapQueue.push priority {| log := Some e; source := source item |} rq.
Proof.
  intros Hpop. unfold SyncHeap.body. rewrite Hpop.
  destruct (drained _); [by left|].
  destruct (pop _) as [[e|] src]; sfields; [right; by exists e|by left].
Qed.

Section Steps.
Variable feeds : list (list Entry).

Lemma HeapInv_start : SyncHeap.HeapInv feeds 0 (start (sourcesOf feeds)).
Proof.
  split.
  - intros i Hi. unfold Heap.size, start in Hi. simpl in Hi. lia.
  - exists (start (sourcesOf feeds)). split_and!.
    + by split_and!.
    + apply sync_Inv_start.
    + apply sync_Ord_start.
Qed.

Lemma HeapInv_fillOne (k : nat) (st : State) (e : Entry) (f : list Entry) :
  SyncHeap.HeapInv feeds k st -> feeds !! k = Some (e :: f) ->
  SyncHeap.HeapInv feeds (S k) (SyncHeap.fillOne k st).
Proof.
  intros (Ho & st1 & Hsim & Hinv & Hord) Hk. split.
  - pose proof Hsim as (Hh & _ & Hq).
    assert (Hs : heap st !! k = Some (newLogSource (e :: f))).
    { rewrite Hh, (inv_fresh _ _ _ Hinv) by lia. by rewrite Hk. }
    unfold SyncHeap.fillOne. rewrite (lookup_total_Some _ _ _ Hs).
    change (pop (newLogSource (e :: f)))
      with (Some e, advance (newLogSource (e :: f))).
    sfields. apply heap_insert_ordered; [|by eexists|done].
    unfold HeapQueue.keyed. rewrite Hq.
    apply (keyed_items _ k), (inv_items _ _ _ Hinv).
  - exists (fillOne k st1). split_and!.
    + by apply heap_fillOne_sameItems.
    + by eapply sync_Inv_fillOne.
    + intros Hs. eapply sync_Ord_fillOne; [done|by apply Hord|done].
Qed.

Lemma HeapInv_fill (n k : nat) (st : State) :
  Forall (fun f => f <> []) feeds ->
  k + n = length feeds ->
  SyncHeap.HeapInv feeds k st ->
  SyncHeap.HeapInv feeds (length feeds) (SyncHeap.fill (seq k n) st).
Proof.
  intros Hfull. revert k st. induction n as [|n IH]; intros k st Hk Hinv.
  - simpl. by replace (length feeds) with k by lia.
  - simpl. assert (k < length feeds) as Hlt by lia.
    destruct (lookup_lt_is_Some_2 _ _ Hlt) as [f Hf].
    rewrite Forall_forall in Hfull.
    pose proof (Hfull f (list_elem_of_lookup_2 _ _ _ Hf)) as Hne.
    destruct f as [|e f]; [done|].
    apply IH; [lia|]. by eapply HeapInv_fillOne.
Qed.

Lemma HeapInv_body (st : State) :
  SyncHeap.HeapInv feeds (length feeds) st -> pq st <> [] ->
  SyncHeap.HeapInv feeds (length feeds) (SyncHeap.body st).
Proof.
  intros (Ho & st1 & Hsim & Hinv & Hord) Hne.
  pose proof Hsim as (Hh & Hp & Hq).
  assert (Hsome : Forall (fun it => is_Some (log it) /\ source it < length feeds) (pq st)).
  { rewrite Hq. apply (inv_items _ _ _ Hinv). }
  pose proof (keyed_items _ _ Hsome) as Hkeyed.
  destruct (heapQueue_pop_Some _ Hne) as (item & rq & Hpop & Hperm).
  destruct (heap_extractRoot_ordered priority _ _ _ Hkeyed Ho Hpop)
    as (Hkr & Hor & Hmin).
  assert (Hsome' : Forall (fun it => is_Some (log it) /\ source it < length feeds)
                     (item :: rq)) by (by rewrite Hperm).
  apply Forall_cons in Hsome' as [[[e He] _] Hsrq].
  destruct (sorted_arrangement rq) as (rq' & Hperm' & Hsorted).
  { eapply Forall_impl; [exact Hsrq|]. by intros it [? _]. }
  set (st2 := {| heap := heap st; pq := item :: rq'; printer := printer st |}).
  assert (Hsim2 : SyncHeap.sameItems st1 st2).
  { unfold st2. split_and!; sfields; [done|done|].
    by rewrite <- Hq, <- Hperm, Hperm'. }
  pose proof (Inv_sameItems _ _ _ _ Hsim2 Hinv) as Hinv2.
  split.
  - destruct (heap_body_queue st item rq Hpop) as [->|[e' ->]]; [done|].
    apply heap_insert_ordered; [done|by eexists|done].
  - exists (body st2). split_and!.
    + by apply (heap_body_rearranged st item rq rq').
    + by apply (sync_Inv_body feeds st2 Hinv2).
    + intros Hs. apply (sync_Ord_body feeds st2 Hinv2); [|done].
      apply (Ord_sameItems st1); [done|by apply Hord|].
      unfold st2. sfields. unfold queued. simpl. rewrite He.
      apply StronglySorted_cons. split; [|done].
      apply Forall_forall. intros x Hx.
      apply list_elem_of_omap in Hx as (it & Hit & Hlog).
      apply (inOrder_earlier item it); [|done|done].
      apply Hmin. by rewrite <- Hperm'.
Qed.

Lemma HeapInv_loop (fuel : nat) (st st' : State) :
  SyncHeap.HeapInv feeds (length feeds) st ->
  SyncHeap.loop fuel st = Some st' ->
  SyncHeap.HeapInv feeds (length feeds) st'.
Proof.
  revert st. induction fuel as [|fuel IH]; intros st Hinv Hloop.
  - simpl in Hloop. destruct (pq st) as [|item rq] eqn:Hq; simpl in Hloop; [|done].
    by injection Hloop as <-.
  - simpl in Hloop. destruct (pq st) as [|item rq] eqn:Hq; simpl in Hloop.
    + by injection Hloop as <-.
    + apply (IH (SyncHeap.body st)); [|done].
      apply HeapInv_body; [done|by rewrite Hq].
Qed.

End Steps.

Lemma emptyFeeds_none (feeds : list (list Entry)) :
  Forall (fun f => f <> []) feeds -> emptyFeeds feeds = 0.
Proof.
  unfold emptyFeeds. induction 1 as [|f feeds Hf _ IH]; [done|].
  by rewrite filter_cons_False.
Qed.

(** When no source is empty from the start, the synchronous merge on the
    heap of the package prints every entry of every feed exactly once, then
    [done], and the entries are in chronological order when those of each
    source are. *)
Lemma syncHeap_run_output (feeds : list (list Entry)) :
  Forall (fun f => f <> []) feeds ->
  exists es,
    SyncHeap.syncSortedMerge (sourcesOf feeds) (length (concat feeds))
    = Some (map (fun e => EvPrint (Some e)) es ++ [EvDone])
    /\ es ≡ₚ concat feeds
    /\ (Forall chronological feeds -> chronological es).
Proof.
  intros Hfull.
  assert (Hlen : length (sourcesOf feeds) = length feeds)
    by (unfold sourcesOf; by rewrite length_map).
  pose proof (SyncInv_heap_filled feeds) as Hsinv.
  pose proof (syncTodo_value feeds _ _ Hsinv) as Htodo.
  rewrite firstn_all, (emptyFeeds_none feeds Hfull) in Htodo.
  pose proof (HeapInv_fill feeds (length feeds) 0 _ Hfull eq_refl
                (HeapInv_start feeds)) as Hinv.
  unfold SyncHeap.syncSortedMerge. rewrite Hlen.
  destruct (heap_loop_total feeds (length (concat feeds)) _ Hsinv ltac:(lia))
    as (st' & Hloop & _ & Hq).
  rewrite Hloop.
  destruct (HeapInv_loop feeds _ _ _ Hinv Hloop)
    as (_ & st1 & (Hh & Hp & Hq1) & Hinv1 & Hord1).
  rewrite Hq in Hq1. symmetry in Hq1. apply Permutation_nil_r in Hq1.
  exists (emitted st1). split_and!.
  - by rewrite Hp, (inv_printer _ _ _ Hinv1) at 1.
  - pose proof (inv_all _ _ _ Hinv1) as Hall.
    by rewrite (sync_pool_empty feeds st1 Hinv1 Hq1), app_nil_r in Hall.
  - intros Hs. apply StronglySorted_Sorted. by apply (ord_emitted st1), Hord1.
Qed.

End SyncHeapOrder.

(** ** The order and the number of the printed entries *)

Lemma length_concat_feeds (feeds : list (list Entry)) :
  length (concat feeds) = sum_list_with length feeds.
Proof.
  induction feeds as [|f feeds IH]; [done|].
  simpl. rewrite length_app. by rewrite IH.
Qed.

Lemma entries_map_Some (es : list Entry) : entries (map Some es) = es.
Proof.
  unfold entries. induction es as [|e es IH]; [done|].
  simpl. f_equal. exact IH.
Qed.

(** C1, at the input [oneEmptyOfFour] of the synchronous merge: four
    sources, each in chronological order, the second one empty from the
    start.  The first loop pushes the [false] of the empty source without
    testing it, and [false] has no [date]: the heap of the package compares
    an item without priority as the larger one on either side, so that the
    entry dated 92, pushed after it, moves above the entry dated 40.  The
    entries are passed to [printer.print] in the order 92, 40, 103 (with
    [false] between the first two), which is not chronological.  (The
    refill of the second loop and the asynchronous solution test the log
    before they push it; the order of the asynchronous output is proved in
    [async_output_chronological] on every input.) *)
Theorem C1_sync_prints_entries_out_of_order :
  Forall chronological oneEmptyOfFour
  /\ exists out,
       SyncHeap.syncSortedMerge (sourcesOf oneEmptyOfFour) 4 = Some out
       /\ printed out = [Some (mk 92); None; Some (mk 40); Some (mk 103)]
       /\ entries (printed out) = [mk 92; mk 40; mk 103]
       /\ ~ chronological (entries (printed out)).
Proof.
  split.
  - unfold oneEmptyOfFour. repeat constructor.
  - exists [EvPrint (Some (mk 92)); EvPrint None; EvPrint (Some (mk 40));
            EvPrint (Some (mk 103)); EvDone].
    split; [by vm_compute|].
    split; [by vm_compute|]. split; [by vm_compute|].
    assert (Hes : entries (printed
              [EvPrint (Some (mk 92)); EvPrint None; EvPrint (Some (mk 40));
               EvPrint (Some (mk 103)); EvDone]) = [mk 92; mk 40; mk 103])
      by (by vm_compute).
    rewrite Hes. intros Hsorted.
    apply Sorted_inv in Hsorted as [_ Hhd].
    apply HdRel_inv in Hhd. unfold earlier in Hhd. simpl in Hhd. lia.
Qed.

(** C2.  On every finite list of finite sources, the entries passed to
    [printer.print] over the whole run are the entries that the sources
    produce, each of them once: none is lost and none is printed twice, and
    their number is the sum over the sources of the number of entries that
    the source produces before it is drained.  This holds for the
    synchronous merge, on the heap of the package as well as on the queue
    as a sorted list, and for the asynchronous merge under every order of
    completion of the fetches.  (The synchronous merge also passes [false]
    to [printer.print] for a source that is empty from the start; [false] is
    no entry, and is the matter of C5.) *)
Theorem C2_every_entry_is_printed_exactly_once
    (delay : nat -> nat) (feeds : list (list Entry)) :
  (exists logs,
     SyncHeap.syncSortedMerge (sourcesOf feeds)
       (length (concat feeds) + emptyFeeds feeds)
     = Some (map EvPrint logs ++ [EvDone])
     /\ entries logs ≡ₚ concat feeds
     /\ length (entries logs) = sum_list_with length feeds)
  /\ (exists logs,
        Sync.syncSortedMerge (sourcesOf feeds)
          (length (concat feeds) + emptyFeeds feeds)
        = Some (map EvPrint logs ++ [EvDone])
        /\ entries logs ≡ₚ concat feeds
        /\ length (entries logs) = sum_list_with length feeds)
  /\ (exists logs,
        Async.printer (Async.asyncSortedMerge delay feeds (Async.enough feeds))
        = map EvPrint logs ++ [EvDone]
        /\ logs = map Some (entries logs)
        /\ entries logs ≡ₚ concat feeds
        /\ length (entries logs) = sum_list_with length feeds).
Proof.
  split_and!.
  - destruct (proj2 (syncHeap_run_on_every_input feeds _) (le_n _))
      as (logs & Hout & Hperm & _).
    exists logs. split_and!; [done|done|].
    by rewrite Hperm, length_concat_feeds.
  - destruct (proj2 (sync_run_on_every_input feeds _) (le_n _))
      as (logs & Hout & Hperm & _).
    exists logs. split_and!; [done|done|].
    by rewrite Hperm, length_concat_feeds.
  - destruct (async_run_output delay feeds) as (_ & es & Hout & Hperm & _).
    exists (map Some es). rewrite entries_map_Some. split_and!.
    + rewrite Hout. by rewrite map_map.
    + done.
    + done.
    + by rewrite Hperm, length_concat_feeds.
Qed.

(** ** The synchronous merge as the package runs it *)

(** X22.  The synchronous merge on the heap of the package, when no source is
    empty from the start: [length (concat feeds)] iterations of the second
    loop are enough; the printer then has received every entry of every feed
    exactly once, then [done]; the entries are in chronological order when
    those of each source are. *)
Theorem sync_on_the_heap_output (feeds : list (list Entry)) :
  Forall (fun f => f <> []) feeds ->
  exists es,
    SyncHeap.syncSortedMerge (sourcesOf feeds) (length (concat feeds))
    = Some (map (fun e => EvPrint (Some e)) es ++ [EvDone])
    /\ es ≡ₚ concat feeds
    /\ (Forall chronological feeds -> chronological es).
Proof. apply syncHeap_run_output. Qed.

(** The scenario with three sources. *)
Lemma sync_on_the_heap_output_witness :
  Forall (fun f => f <> []) threeSources
  /\ exists es,
       SyncHeap.syncSortedMerge (sourcesOf threeSources)
         (length (concat threeSources))
       = Some (map (fun e => EvPrint (Some e)) es ++ [EvDone])
       /\ es ≡ₚ concat threeSources
       /\ (Forall chronological threeSources -> chronological es).
Proof.
  split; [exact threeSources_not_empty|].
  exact (sync_on_the_heap_output threeSources threeSources_not_empty).
Defined.

(** X23.  The synchronous merge on the heap of the package returns on every
    input, sources that are empty from the start included.  Its second loop
    makes one iteration for each entry and one for each source that is empty
    from the start, no fewer.  The printer then has received every entry of
    every feed exactly once, [false] exactly once for each source that is
    empty from the start, and [done] once, as the last call. *)
Theorem sync_on_the_heap_returns_on_every_input
    (feeds : list (list Entry)) (fuel : nat) :
  let needed := length (concat feeds) + emptyFeeds feeds in
  (fuel < needed -> SyncHeap.syncSortedMerge (sourcesOf feeds) fuel = None)
  /\ (needed <= fuel ->
      exists logs,
        SyncHeap.syncSortedMerge (sourcesOf feeds) fuel
        = Some (map EvPrint logs ++ [EvDone])
        /\ entries logs ≡ₚ concat feeds
        /\ falses logs = emptyFeeds feeds).
Proof. apply syncHeap_run_on_every_input. Qed.

(** The input [oneEmptyOfFour] with four units of fuel. *)
Lemma sync_on_the_heap_returns_on_every_input_witness :
  length (concat oneEmptyOfFour) + emptyFeeds oneEmptyOfFour <= 4
  /\ exists logs,
       SyncHeap.syncSortedMerge (sourcesOf oneEmptyOfFour) 4
       = Some (map EvPrint logs ++ [EvDone])
       /\ entries logs ≡ₚ concat oneEmptyOfFour
       /\ falses logs = emptyFeeds oneEmptyOfFour.
Proof.
  assert (H : length (concat oneEmptyOfFour) + emptyFeeds oneEmptyOfFour <= 4)
    by (vm_compute; lia).
  split; [exact H|].
  exact (proj2 (sync_on_the_heap_returns_on_every_input oneEmptyOfFour 4) H).
Defined.


